(** * obs-localvocal: the cloud speech-to-text streaming client

    A shallow embedding of [src/cloud-utils/cloud-stt.cpp] (class
    [GoogleSttStreamer] and the sample encoder [f32_to_s16]) together with
    the properties its specification states about it, and of the text
    utilities of [src/transcription-utils.cpp] and [.h] with properties
    read off their code.

    Layout: the data model and the operations come first, each definition
    next to the source lines it renders; the lemmas and the theorems about
    them follow. *)

From Stdlib Require Import ZArith List String Bool Lia Arith.
From Stdlib Require Import Floats.SpecFloat.
From Stdlib Require Import Ascii.
Import ListNotations.
Open Scope Z_scope.

(* ===================================================================== *)
(** * Part I. The sample encoder                                          *)
(* ===================================================================== *)

(** ** IEEE-754 binary32

    [float] in the source is the 32-bit format: 24 bits of precision, the
    exponent of the infinities is 128.  The values are the Standard
    Library's [spec_float]; the arithmetic is its parameterised [SFmul] and
    [SFcompare] at these two constants. *)
Module Float32.

Definition prec : Z := 24.
Definition emax : Z := 128.

Definition float32 : Type := spec_float.

(** A well-formed binary32 datum: the mantissa of a finite value is in
    canonical form and its exponent is in range. *)
Definition valid (x : float32) : bool := valid_binary prec emax x.

Definition is_nan (x : float32) : bool :=
  match x with S754_nan => true | _ => false end.

(** The literals of the source: [1.0f], [-1.0f] and [32767.0f]. *)
Definition one : float32 := S754_finite false 8388608 (-23).
Definition minus_one : float32 := S754_finite true 8388608 (-23).
Definition f32767 : float32 := S754_finite false 16776704 (-9).

(** [a * b], [a > b] and [a < b] on [float]. *)
Definition mul (a b : float32) : float32 := SFmul prec emax a b.
Definition gt (a b : float32) : bool := SFltb b a.
Definition lt (a b : float32) : bool := SFltb a b.
Definition le (a b : float32) : bool := SFleb a b.

(** The C library and the integer conversions of the platform.
    [long_bits] is the width of [long]; [lround_unspecified] is what
    [lroundf] returns where the C standard leaves the result unspecified
    (a NaN, an infinity, a value that does not fit [long]). *)
Record libm : Type := {
  long_bits : Z;
  lround_unspecified : float32 -> Z
}.

Definition fits_long (L : libm) (v : Z) : bool :=
  (- 2 ^ (long_bits L - 1) <=? v) && (v <? 2 ^ (long_bits L - 1)).

(** The magnitude [m * 2^e] rounded to the nearest integer, halfway
    cases away from zero. *)
Definition round_half_away (m : positive) (e : Z) : Z :=
  if 0 <=? e then Z.shiftl (Zpos m) e
  else Z.shiftr (Zpos m + Z.shiftl 1 (- e - 1)) (- e).

(** [std::lroundf]. *)
Definition lroundf (L : libm) (x : float32) : Z :=
  match x with
  | S754_zero _ => 0
  | S754_finite s m e =>
      let a := round_half_away m e in
      let v := if s then - a else a in
      if fits_long L v then v else lround_unspecified L x
  | _ => lround_unspecified L x
  end.

(** [static_cast<int16_t>] of a [long]: the value modulo [2^16], taken in
    [-32768 .. 32767]. *)
Definition to_int16 (v : Z) : Z := (v + 32768) mod 65536 - 32768.

End Float32.
Import Float32.

(** ** [f32_to_s16] (cloud-stt.cpp, lines 28-36) *)

(** The two guarded assignments of lines 30-33 on their own. *)
Definition clamp (x : float32) : float32 :=
  let x := if gt x one then one else x in
  let x := if lt x minus_one then minus_one else x in
  x.

Definition f32_to_s16 (L : libm) (x : float32) : Z :=
  let x := if gt x one then one else x in
  let x := if lt x minus_one then minus_one else x in
  to_int16 (lroundf L (mul x f32767)).

(** ** The encoder on values

    The same computation on exact values, for comparison with the code.
    A value is an integer count of units of [2^-158]: every binary32
    datum, and every product of one of magnitude at most 1 with 32767, is
    a whole number of them. *)

(** The value of a datum; an infinity stands beyond every finite value. *)
Definition sval (x : float32) : Z :=
  match x with
  | S754_zero _ => 0
  | S754_finite s m e => if s then - (Zpos m * 2 ^ (e + 158)) else Zpos m * 2 ^ (e + 158)
  | S754_infinity s => if s then - 2 ^ 300 else 2 ^ 300
  | S754_nan => 0
  end.

(** [v / 2^t] rounded to the nearest integer, halfway cases to the even
    one. *)
Definition rne (v t : Z) : Z :=
  let q := v / 2 ^ t in
  let r := v mod 2 ^ t in
  if (2 ^ t <? 2 * r) || ((2 * r =? 2 ^ t) && Z.odd q) then q + 1 else q.

(** A non-negative value rounded to binary32: 24 significant bits, and no
    bit below [2^-149]. *)
Definition round24 (v : Z) : Z :=
  let t := Z.max (Z.log2 v - 23) 9 in rne v t * 2 ^ t.

(** A non-negative value rounded to the nearest integer, halfway cases
    upwards; the result counts ones, not units. *)
Definition to_nearest_integer (v : Z) : Z := (v + 2 ^ 157) / 2 ^ 158.

(** Scale by 32767, in binary32, and round to the nearest integer. *)
Definition quantize (v : Z) : Z := to_nearest_integer (round24 (32767 * v)).

(** Clamp to [-1, 1], scale, round; the sign is put back at the end. *)
Definition encode_value (v : Z) : Z :=
  let c := Z.max (- 2 ^ 158) (Z.min (2 ^ 158) v) in
  if c <? 0 then - quantize (- c) else quantize c.

(** The magnitude of [lroundf] on a finite datum. *)
Definition lround_magnitude (x : float32) : Z :=
  match x with
  | S754_finite _ m e => round_half_away m e
  | _ => 0
  end.


(* ===================================================================== *)
(** * Part II. The streaming client                                       *)
(* ===================================================================== *)

(** ** Host data

    The structures below are declared in [transcription-filter-data.h] and
    in the generated protobuf headers, which are not part of the sources at
    hand; each is rendered with the fields that [cloud-stt.cpp] reads or
    writes. *)

(** Modelled from the spec: the enumeration [DetectionResult] of
    [transcription-filter-data.h].  The specification names two values of
    the finality indicator, PARTIAL and FINAL; the code writes the latter
    [DETECTION_RESULT_SPEECH]. *)
Inductive DetectionResult : Type :=
| DETECTION_RESULT_SPEECH
| DETECTION_RESULT_PARTIAL.

(** Modelled from the spec: the value object [DetectionResultWithText] of
    [transcription-filter-data.h], "text, a finality indicator, language
    code, and start/end timestamps in milliseconds". *)
Record DetectionResultWithText : Type := {
  result : DetectionResult;
  text : string;
  start_timestamp_ms : Z;
  end_timestamp_ms : Z;
  language : string
}.

(** Modelled from the spec: the two host settings that the result consumer
    reads from [transcription_filter_data], the configured transcription
    language and the base recognition language ([whisper_params.language],
    a C string that may be null). *)
Record transcription_filter_data : Type := {
  cloud_transcription_language : string;
  whisper_params_language : option string
}.

(** ** Messages of the remote protocol *)

Inductive AudioEncoding : Type := LINEAR16.

Record StreamingRecognitionConfig : Type := {
  language_code : string;
  sample_rate_hertz : Z;
  audio_channel_count : Z;
  encoding : AudioEncoding;
  enable_automatic_punctuation : bool;
  interim_results : bool;
  single_utterance : bool
}.

Inductive StreamingRecognizeRequest : Type :=
| ConfigRequest (cfg : StreamingRecognitionConfig)
| AudioRequest (pcm : list Z).

Record SpeechRecognitionAlternative : Type := { transcript : string }.

Record StreamingRecognitionResult : Type := {
  alternatives : list SpeechRecognitionAlternative;
  is_final : bool
}.

Record StreamingRecognizeResponse : Type := {
  results : list StreamingRecognitionResult
}.

Record Status : Type := { ok : bool; error_message : string }.

(** ** The object *)

(** [GoogleSttStreamer::Impl]: the channel and the stub are always
    created; the stream is a pointer that may be null, and carries here
    the ordinal of the stream it points to. *)
Record Impl : Type := { stream : option nat }.

(** The fields of [GoogleSttStreamer] (cloud-stt.h, lines 28-45).  A
    [std::thread] member is its joinable bit; [mtx_] has no content. *)
Record GoogleSttStreamer : Type := {
  gf_ : option transcription_filter_data;
  pending_ : list float32;
  reader_ : bool;
  running_ : bool;
  impl_ : option Impl;
  sent_samples_ : Z;
  language_code_ : string;
  api_key_ : string;
  rotating_ : bool;
  rotator_ : bool;
  start_ms_ : Z;
  rotate_interval_ms_ : Z
}.

(** The object as the constructor leaves it. *)
Definition GoogleSttStreamer_new (gf : option transcription_filter_data) : GoogleSttStreamer :=
  {| gf_ := gf; pending_ := []; reader_ := false; running_ := false;
     impl_ := None; sent_samples_ := 0; language_code_ := EmptyString;
     api_key_ := EmptyString; rotating_ := false; rotator_ := false;
     start_ms_ := 0; rotate_interval_ms_ := 240000 |}.

Definition set_pending_ (v : list float32) (s : GoogleSttStreamer) : GoogleSttStreamer :=
  {| gf_ := gf_ s; pending_ := v; reader_ := reader_ s; running_ := running_ s;
     impl_ := impl_ s; sent_samples_ := sent_samples_ s;
     language_code_ := language_code_ s; api_key_ := api_key_ s;
     rotating_ := rotating_ s; rotator_ := rotator_ s;
     start_ms_ := start_ms_ s; rotate_interval_ms_ := rotate_interval_ms_ s |}.

Definition set_reader_ (v : bool) (s : GoogleSttStreamer) : GoogleSttStreamer :=
  {| gf_ := gf_ s; pending_ := pending_ s; reader_ := v; running_ := running_ s;
     impl_ := impl_ s; sent_samples_ := sent_samples_ s;
     language_code_ := language_code_ s; api_key_ := api_key_ s;
     rotating_ := rotating_ s; rotator_ := rotator_ s;
     start_ms_ := start_ms_ s; rotate_interval_ms_ := rotate_interval_ms_ s |}.

Definition set_running_ (v : bool) (s : GoogleSttStreamer) : GoogleSttStreamer :=
  {| gf_ := gf_ s; pending_ := pending_ s; reader_ := reader_ s; running_ := v;
     impl_ := impl_ s; sent_samples_ := sent_samples_ s;
     language_code_ := language_code_ s; api_key_ := api_key_ s;
     rotating_ := rotating_ s; rotator_ := rotator_ s;
     start_ms_ := start_ms_ s; rotate_interval_ms_ := rotate_interval_ms_ s |}.

Definition set_impl_ (v : option Impl) (s : GoogleSttStreamer) : GoogleSttStreamer :=
  {| gf_ := gf_ s; pending_ := pending_ s; reader_ := reader_ s; running_ := running_ s;
     impl_ := v; sent_samples_ := sent_samples_ s;
     language_code_ := language_code_ s; api_key_ := api_key_ s;
     rotating_ := rotating_ s; rotator_ := rotator_ s;
     start_ms_ := start_ms_ s; rotate_interval_ms_ := rotate_interval_ms_ s |}.

Definition set_sent_samples_ (v : Z) (s : GoogleSttStreamer) : GoogleSttStreamer :=
  {| gf_ := gf_ s; pending_ := pending_ s; reader_ := reader_ s; running_ := running_ s;
     impl_ := impl_ s; sent_samples_ := v;
     language_code_ := language_code_ s; api_key_ := api_key_ s;
     rotating_ := rotating_ s; rotator_ := rotator_ s;
     start_ms_ := start_ms_ s; rotate_interval_ms_ := rotate_interval_ms_ s |}.

Definition set_language_code_ (v : string) (s : GoogleSttStreamer) : GoogleSttStreamer :=
  {| gf_ := gf_ s; pending_ := pending_ s; reader_ := reader_ s; running_ := running_ s;
     impl_ := impl_ s; sent_samples_ := sent_samples_ s;
     language_code_ := v; api_key_ := api_key_ s;
     rotating_ := rotating_ s; rotator_ := rotator_ s;
     start_ms_ := start_ms_ s; rotate_interval_ms_ := rotate_interval_ms_ s |}.

Definition set_api_key_ (v : string) (s : GoogleSttStreamer) : GoogleSttStreamer :=
  {| gf_ := gf_ s; pending_ := pending_ s; reader_ := reader_ s; running_ := running_ s;
     impl_ := impl_ s; sent_samples_ := sent_samples_ s;
     language_code_ := language_code_ s; api_key_ := v;
     rotating_ := rotating_ s; rotator_ := rotator_ s;
     start_ms_ := start_ms_ s; rotate_interval_ms_ := rotate_interval_ms_ s |}.

Definition set_rotating_ (v : bool) (s : GoogleSttStreamer) : GoogleSttStreamer :=
  {| gf_ := gf_ s; pending_ := pending_ s; reader_ := reader_ s; running_ := running_ s;
     impl_ := impl_ s; sent_samples_ := sent_samples_ s;
     language_code_ := language_code_ s; api_key_ := api_key_ s;
     rotating_ := v; rotator_ := rotator_ s;
     start_ms_ := start_ms_ s; rotate_interval_ms_ := rotate_interval_ms_ s |}.

Definition set_rotator_ (v : bool) (s : GoogleSttStreamer) : GoogleSttStreamer :=
  {| gf_ := gf_ s; pending_ := pending_ s; reader_ := reader_ s; running_ := running_ s;
     impl_ := impl_ s; sent_samples_ := sent_samples_ s;
     language_code_ := language_code_ s; api_key_ := api_key_ s;
     rotating_ := rotating_ s; rotator_ := v;
     start_ms_ := start_ms_ s; rotate_interval_ms_ := rotate_interval_ms_ s |}.

Definition set_start_ms_ (v : Z) (s : GoogleSttStreamer) : GoogleSttStreamer :=
  {| gf_ := gf_ s; pending_ := pending_ s; reader_ := reader_ s; running_ := running_ s;
     impl_ := impl_ s; sent_samples_ := sent_samples_ s;
     language_code_ := language_code_ s; api_key_ := api_key_ s;
     rotating_ := rotating_ s; rotator_ := rotator_ s;
     start_ms_ := v; rotate_interval_ms_ := rotate_interval_ms_ s |}.

(** ** The world around the object *)

(** What the object does to the outside, in the order it does it.  The
    calls of [obs_log] are left out. *)
Inductive event : Type :=
| NetOpen (key : string) (opened : bool)
| NetWrite (req : StreamingRecognizeRequest) (accepted : bool)
| NetWritesDone
| NetTryCancel
| NetFinish (st : Status)
| ImplReleased
| HostCallback (ts : Z) (out : DetectionResultWithText)
| ReaderSpawned
| ReaderJoined
| RotatorSpawned
| RotatorJoined
| RotatorDetached.

(** What the outside answers: the readings of the system clock, whether
    the n-th [StreamingRecognize] yields a stream, whether the n-th
    [Write] is accepted, the responses the n-th stream delivers before its
    [Read] fails, and the status its [Finish] reports. *)
Record environment : Type := {
  now_ms_at : nat -> Z;
  stream_created : nat -> bool;
  write_ok : nat -> bool;
  responses_of : nat -> list StreamingRecognizeResponse;
  finish_status : nat -> Status
}.

(** The object, the position in each of the environment's answers, the
    responses of the open stream not read yet, whether the body of the
    reader thread is still to run, and the events so far. *)
Record world : Type := {
  self : GoogleSttStreamer;
  clock_reads : nat;
  streams_opened : nat;
  writes_issued : nat;
  inbox : list StreamingRecognizeResponse;
  reader_live : bool;
  trace : list event
}.

Definition world_new (gf : option transcription_filter_data) : world :=
  {| self := GoogleSttStreamer_new gf; clock_reads := 0; streams_opened := 0;
     writes_issued := 0; inbox := []; reader_live := false; trace := [] |}.

Definition set_self (v : GoogleSttStreamer) (w : world) : world :=
  {| self := v; clock_reads := clock_reads w; streams_opened := streams_opened w;
     writes_issued := writes_issued w; inbox := inbox w;
     reader_live := reader_live w; trace := trace w |}.

Definition set_clock_reads (v : nat) (w : world) : world :=
  {| self := self w; clock_reads := v; streams_opened := streams_opened w;
     writes_issued := writes_issued w; inbox := inbox w;
     reader_live := reader_live w; trace := trace w |}.

Definition set_streams_opened (v : nat) (w : world) : world :=
  {| self := self w; clock_reads := clock_reads w; streams_opened := v;
     writes_issued := writes_issued w; inbox := inbox w;
     reader_live := reader_live w; trace := trace w |}.

Definition set_writes_issued (v : nat) (w : world) : world :=
  {| self := self w; clock_reads := clock_reads w; streams_opened := streams_opened w;
     writes_issued := v; inbox := inbox w;
     reader_live := reader_live w; trace := trace w |}.

Definition set_inbox (v : list StreamingRecognizeResponse) (w : world) : world :=
  {| self := self w; clock_reads := clock_reads w; streams_opened := streams_opened w;
     writes_issued := writes_issued w; inbox := v;
     reader_live := reader_live w; trace := trace w |}.

Definition set_reader_live (v : bool) (w : world) : world :=
  {| self := self w; clock_reads := clock_reads w; streams_opened := streams_opened w;
     writes_issued := writes_issued w; inbox := inbox w;
     reader_live := v; trace := trace w |}.

Definition set_trace (v : list event) (w : world) : world :=
  {| self := self w; clock_reads := clock_reads w; streams_opened := streams_opened w;
     writes_issued := writes_issued w; inbox := inbox w;
     reader_live := reader_live w; trace := v |}.

(** ** The monad of the member functions

    A member function reads and writes the world and either returns or
    ends the process through [std::terminate]. *)
Inductive outcome (A : Type) : Type :=
| Returned (a : A) (w : world)
| Terminated (w : world).
Arguments Returned {A} a w.
Arguments Terminated {A} w.

Definition M (A : Type) : Type := world -> outcome A.

Definition ret {A : Type} (a : A) : M A := fun w => Returned a w.

Definition bind {A B : Type} (c : M A) (k : A -> M B) : M B :=
  fun w => match c w with
           | Returned a w' => k a w'
           | Terminated w' => Terminated w'
           end.

Declare Scope stt_scope.
Delimit Scope stt_scope with stt.
Notation "x <- c ;; k" := (bind c (fun x => k))
  (at level 61, c at next level, right associativity) : stt_scope.
Notation "c ;; k" := (bind c (fun _ => k))
  (at level 61, right associativity) : stt_scope.
Open Scope stt_scope.

Definition get {A : Type} (f : GoogleSttStreamer -> A) : M A :=
  fun w => Returned (f (self w)) w.

Definition modify (f : GoogleSttStreamer -> GoogleSttStreamer) : M unit :=
  fun w => Returned tt (set_self (f (self w)) w).

Definition emit (e : event) : M unit :=
  fun w => Returned tt (set_trace (trace w ++ [e]) w).

Definition terminate {A : Type} : M A := fun w => Terminated w.

(** The final world and the value of a call that returned. *)
Definition world_of {A : Type} (o : outcome A) : world :=
  match o with Returned _ w => w | Terminated w => w end.

Definition value_of {A : Type} (o : outcome A) : option A :=
  match o with Returned a _ => Some a | Terminated _ => None end.

(** The events a call added to those of [w]. *)
Definition events_since (w w' : world) : list event :=
  skipn (List.length (trace w)) (trace w').

(** ** The member functions *)

(** The thread a call is made from; [RotatorThread] is the thread that
    [rotator_] currently holds. *)
Inductive thread_id : Type := HostThread | ReaderThread | RotatorThread.

Definition is_rotator (t : thread_id) : bool :=
  match t with RotatorThread => true | _ => false end.

Definition uint64_max : Z := 2 ^ 64.

(** [constexpr size_t CHUNK = 1600] (line 162). *)
Definition CHUNK : nat := 1600.
Arguments CHUNK : simpl never.

Section Client.

Variable L : libm.
Variable E : environment.

(** [now_ms()] (transcription-utils.h, line 24): the next reading of the
    clock, as a [uint64_t]. *)
Definition now_ms : M Z :=
  fun w => Returned (now_ms_at E (clock_reads w) mod uint64_max)
                    (set_clock_reads (S (clock_reads w)) w).

(** [impl_ && impl_->stream]. *)
Definition stream_of (s : GoogleSttStreamer) : option nat :=
  match impl_ s with
  | Some i => stream i
  | None => None
  end.

(** [stub->StreamingRecognize(&ctx)], the context carrying the key. *)
Definition StreamingRecognize (key : string) : M (option nat) :=
  fun w =>
    let k := streams_opened w in
    let opened := stream_created E k in
    let w := set_streams_opened (S k) w in
    let w := set_trace (trace w ++ [NetOpen key opened]) w in
    if opened then Returned (Some k) (set_inbox (responses_of E k) w)
    else Returned None w.

(** [stream->Write(req)]. *)
Definition Write (req : StreamingRecognizeRequest) : M bool :=
  fun w =>
    let accepted := write_ok E (writes_issued w) in
    let w := set_writes_issued (S (writes_issued w)) w in
    Returned accepted (set_trace (trace w ++ [NetWrite req accepted]) w).

(** [stream->Finish()] on the stream of ordinal [k]. *)
Definition Finish (k : nat) : M Status :=
  emit (NetFinish (finish_status E k)) ;; ret (finish_status E k).

(** [set_text_callback(ts, gf_, out)]. *)
Definition set_text_callback (ts : Z) (out : DetectionResultWithText) : M unit :=
  emit (HostCallback ts out).

(** [impl_.reset()]: the handle is released when there is one. *)
Definition impl_reset : M unit :=
  i <- get impl_ ;;
  match i with
  | Some _ => emit ImplReleased ;; modify (set_impl_ None)
  | None => ret tt
  end.

(** [impl_ = std::make_unique<Impl>()] (line 58): a fresh handle with a
    null stream; the handle it replaces is released. *)
Definition impl_make : M unit :=
  i <- get impl_ ;;
  match i with
  | Some _ => emit ImplReleased
  | None => ret tt
  end ;;
  modify (set_impl_ (Some {| stream := None |})).

(** [reader_ = std::thread(&GoogleSttStreamer::resultsThread, this)]
    (line 100): assigning to a joinable [std::thread] ends the process. *)
Definition spawn_reader : M unit :=
  j <- get reader_ ;;
  if j then terminate
  else
    emit ReaderSpawned ;;
    modify (set_reader_ true) ;;
    fun w => Returned tt (set_reader_live true w).

(** The request of lines 71-80. *)
Definition cfgReq (lang : string) : StreamingRecognizeRequest :=
  ConfigRequest
    {| language_code := lang;
       sample_rate_hertz := 16000;
       audio_channel_count := 1;
       encoding := LINEAR16;
       enable_automatic_punctuation := true;
       interim_results := true;
       single_utterance := false |}.

Definition config_error_text : string :=
  "CloudSTT error: failed to write config (check API key/billing).".

(** [GoogleSttStreamer::start] (lines 49-102). *)
Definition start (api_key lang : string) : M bool :=
  running <- get running_ ;;
  if running then ret true
  else
    modify (set_api_key_ api_key) ;;
    modify (set_language_code_ lang) ;;
    t0 <- now_ms ;;
    modify (set_start_ms_ t0) ;;
    impl_make ;;
    key <- get api_key_ ;;
    st <- StreamingRecognize key ;;
    modify (set_impl_ (Some {| stream := st |})) ;;
    match st with
    | None => ret false
    | Some _ =>
        lc <- get language_code_ ;;
        accepted <- Write (cfgReq lc) ;;
        if negb accepted then
          gf <- get gf_ ;;
          match gf with
          | Some _ =>
              t <- now_ms ;;
              set_text_callback t
                {| result := DETECTION_RESULT_PARTIAL;
                   text := config_error_text;
                   start_timestamp_ms := t;
                   end_timestamp_ms := t;
                   language := "en" |}
          | None => ret tt
          end ;;
          impl_reset ;;
          ret false
        else
          modify (set_running_ true) ;;
          spawn_reader ;;
          ret true
    end.

(** The body of the [for] loop of lines 207-213, on the pair of locals
    [text] and [is_final]. *)
Definition scan_result (acc : string * bool) (r : StreamingRecognitionResult) : string * bool :=
  let text := match alternatives r with
              | a :: _ => (fst acc ++ transcript a)%string
              | [] => fst acc
              end in
  let final := if is_final r then true else snd acc in
  (text, final).

Definition is_empty (s : string) : bool :=
  match s with EmptyString => true | _ => false end.

(** The language of lines 221-228. *)
Definition result_language (gf : transcription_filter_data) : string :=
  if negb (is_empty (cloud_transcription_language gf)) then
    cloud_transcription_language gf
  else
    match whisper_params_language gf with
    | Some l => if (0 <? Z.of_nat (String.length l)) then l else "en"%string
    | None => "en"%string
    end.

(** One turn of the [while] loop of [resultsThread] (lines 204-234),
    [resp] being the response just read. *)
Definition on_response (resp : StreamingRecognizeResponse) : M unit :=
  let '(text, final) := fold_left scan_result (results resp) (EmptyString, false) in
  if negb (is_empty text) then
    gf <- get gf_ ;;
    match gf with
    | Some g =>
        t <- now_ms ;;
        set_text_callback t
          {| result := if final then DETECTION_RESULT_SPEECH
                       else DETECTION_RESULT_PARTIAL;
             text := text;
             start_timestamp_ms := 0;
             end_timestamp_ms := t;
             language := result_language g |}
    | None => ret tt
    end
  else ret tt.

(** [while (running_ && impl_->stream->Read(&resp))] (line 203);
    [incoming] is what the stream still delivers, and [Read] fails when
    it is exhausted. *)
Fixpoint read_loop (incoming : list StreamingRecognizeResponse) : M unit :=
  running <- get running_ ;;
  if negb running then ret tt
  else
    match incoming with
    | [] => ret tt
    | resp :: rest =>
        (fun w => Returned tt (set_inbox rest w)) ;;
        on_response resp ;;
        read_loop rest
    end.

(** [GoogleSttStreamer::resultsThread] (lines 196-258). *)
Definition resultsThread : M unit :=
  st <- get stream_of ;;
  match st with
  | None => ret tt
  | Some _ =>
      (fun w => read_loop (inbox w) w) ;;
      st <- get stream_of ;;
      match st with
      | Some k =>
          status <- Finish k ;;
          gf <- get gf_ ;;
          match gf with
          | Some _ =>
              if negb (ok status) then
                t <- now_ms ;;
                set_text_callback t
                  {| result := DETECTION_RESULT_PARTIAL;
                     text := ("CloudSTT error: " ++ error_message status)%string;
                     start_timestamp_ms := t;
                     end_timestamp_ms := t;
                     language := "en" |}
              else ret tt
          | None => ret tt
          end
      | None => ret tt
      end ;;
      modify (set_running_ false)
  end.

(** [reader_.join()]: the caller waits until the body of the reader
    thread has run to its end. *)
Definition join_reader : M unit :=
  (fun w => if reader_live w then resultsThread (set_reader_live false w)
            else Returned tt w) ;;
  modify (set_reader_ false) ;;
  emit ReaderJoined.

(** [GoogleSttStreamer::stop] (lines 104-125). *)
Definition stop : M unit :=
  modify (set_running_ false) ;;
  st <- get stream_of ;;
  match st with
  | Some _ => emit NetWritesDone ;; emit NetTryCancel
  | None => ret tt
  end ;;
  j <- get reader_ ;;
  (if j then join_reader else ret tt) ;;
  impl_reset ;;
  modify (set_pending_ []).

(** [GoogleSttStreamer::shouldRotate] (lines 38-41); the subtraction is
    that of [uint64_t]. *)
Definition shouldRotate : M bool :=
  running <- get running_ ;;
  if running then
    t <- now_ms ;;
    t0 <- get start_ms_ ;;
    limit <- get rotate_interval_ms_ ;;
    ret (limit <? (t - t0) mod uint64_max)
  else ret false.

(** [rotating_.compare_exchange_strong(expected, true)] with
    [expected = false] (lines 129-130): one indivisible step. *)
Definition compare_exchange_rotating : M bool :=
  fun w =>
    if rotating_ (self w) then Returned false w
    else Returned true (set_self (set_rotating_ true (self w)) w).

(** Lines 132-139 of [requestRotate]: the previous rotation thread is
    joined, or detached when the caller is that thread, and the new one
    is started on [doRotate]. *)
Definition respawn_rotator (me : thread_id) : M unit :=
  j <- get rotator_ ;;
  (if j then
     (if negb (is_rotator me) then emit RotatorJoined else emit RotatorDetached) ;;
     modify (set_rotator_ false)
   else ret tt) ;;
  emit RotatorSpawned ;;
  modify (set_rotator_ true).

(** [GoogleSttStreamer::requestRotate] (lines 127-140). *)
Definition requestRotate (me : thread_id) : M unit :=
  won <- compare_exchange_rotating ;;
  if negb won then ret tt
  else respawn_rotator me.

(** [GoogleSttStreamer::doRotate] (lines 142-150). *)
Definition doRotate : M unit :=
  stop ;;
  key <- get api_key_ ;;
  lang <- get language_code_ ;;
  _ <- start key lang ;;
  modify (set_rotating_ false).

(** The [while] loop of lines 169-176; [sending] is [chunks_to_send]. *)
Fixpoint drain_loop (fuel : nat) (sending : list (list Z)) : M (list (list Z)) :=
  match fuel with
  | O => ret sending
  | S fuel' =>
      p <- get pending_ ;;
      if (CHUNK <=? List.length p)%nat then
        let s16 := map (f32_to_s16 L) (firstn CHUNK p) in
        modify (set_pending_ (skipn CHUNK p)) ;;
        n <- get sent_samples_ ;;
        modify (set_sent_samples_ ((n + Z.of_nat CHUNK) mod uint64_max)) ;;
        drain_loop fuel' (sending ++ [s16])
      else ret sending
  end.

(** The [for] loop of lines 179-193. *)
Fixpoint send_chunks (sending : list (list Z)) : M unit :=
  match sending with
  | [] => ret tt
  | s16 :: rest =>
      st <- get stream_of ;;
      match st with
      | None => modify (set_running_ false)
      | Some _ =>
          accepted <- Write (AudioRequest s16) ;;
          if negb accepted then modify (set_running_ false)
          else send_chunks rest
      end
  end.

(** [GoogleSttStreamer::pushFloat16k] (lines 152-194).  [data] is [None]
    for a null pointer and otherwise the array it points to, of which
    the first [n] elements are read.  The loop of line 169 removes a
    whole chunk at each turn, so the length of the queue bounds its
    turns. *)
Definition pushFloat16k (me : thread_id) (data : option (list float32)) (n : nat) : M unit :=
  running <- get running_ ;;
  match data with
  | None => ret tt
  | Some samples =>
      if negb running || (n =? 0)%nat then ret tt
      else
        rotate <- shouldRotate ;;
        (if rotate then requestRotate me else ret tt) ;;
        rotating <- get rotating_ ;;
        if rotating then ret tt
        else
          p <- get pending_ ;;
          modify (set_pending_ (p ++ firstn n samples)) ;;
          p <- get pending_ ;;
          sending <- drain_loop (List.length p) [] ;;
          send_chunks sending
  end.

End Client.

(** ** The threads around the rotation flag

    The calls of [requestRotate] and the rotation tasks run side by side.
    Each is cut at the places where it touches [rotating_]: a call is
    before its compare-and-swap, between a successful one and the start of
    the rotation thread, or has returned; a rotation task is before
    [stop()], before [start()], before the assignment of line 149, or
    past it.  The other member functions are steps of their own. *)

Inductive request_pc : Type :=
| AtSwap
| AtSpawn
| Left (proceeded : bool).

Inductive rotation_pc : Type :=
| ToStop
| ToStart
| ToClear (started : bool)
| Finished.

Inductive thread : Type :=
| Requesting (me : thread_id) (pc : request_pc)
| Rotation (pc : rotation_pc).

Record system : Type := { shared : world; pool : list thread }.

Fixpoint set_thread (i : nat) (t : thread) (ts : list thread) : list thread :=
  match ts, i with
  | [], _ => []
  | _ :: rest, O => t :: rest
  | u :: rest, S j => u :: set_thread j t rest
  end.

(** Does the thread hold the rotation gate: it has won the swap, or it is
    the rotation task before its last assignment. *)
Definition holds_gate (t : thread) : bool :=
  match t with
  | Requesting _ AtSpawn => true
  | Rotation ToStop | Rotation ToStart | Rotation (ToClear _) => true
  | _ => false
  end.

Definition in_flight (ts : list thread) : nat :=
  List.length (filter holds_gate ts).

Definition rotating (sys : system) : bool := rotating_ (self (shared sys)).

Inductive label : Type :=
| DoSwap (i : nat) (won : bool)
| DoSpawn (i : nat)
| DoStop (i : nat)
| DoStart (i : nat) (started : bool)
| DoClear (i : nat)
| HostPush (me : thread_id) (data : option (list float32)) (n : nat)
| HostStop
| HostStart (api_key lang : string) (started : bool)
| ReaderRuns.

Section Threads.

Variable L : libm.
Variable E : environment.

(** The rotation thread a call of [pushFloat16k] has started, if any. *)
Definition started_by_push (w w' : world) : list thread :=
  if negb (rotating_ (self w)) && rotating_ (self w') then [Rotation ToStop] else [].

Inductive step : label -> system -> system -> Prop :=
| step_swap : forall w ts i me won w',
    nth_error ts i = Some (Requesting me AtSwap) ->
    compare_exchange_rotating w = Returned won w' ->
    step (DoSwap i won) {| shared := w; pool := ts |}
         {| shared := w';
            pool := set_thread i (Requesting me (if won then AtSpawn else Left false)) ts |}
| step_spawn : forall w ts i me w',
    nth_error ts i = Some (Requesting me AtSpawn) ->
    respawn_rotator me w = Returned tt w' ->
    step (DoSpawn i) {| shared := w; pool := ts |}
         {| shared := w';
            pool := set_thread i (Requesting me (Left true)) ts ++ [Rotation ToStop] |}
| step_rotation_stop : forall w ts i w',
    nth_error ts i = Some (Rotation ToStop) ->
    stop E w = Returned tt w' ->
    step (DoStop i) {| shared := w; pool := ts |}
         {| shared := w'; pool := set_thread i (Rotation ToStart) ts |}
| step_rotation_start : forall w ts i started w',
    nth_error ts i = Some (Rotation ToStart) ->
    start E (api_key_ (self w)) (language_code_ (self w)) w = Returned started w' ->
    step (DoStart i started) {| shared := w; pool := ts |}
         {| shared := w'; pool := set_thread i (Rotation (ToClear started)) ts |}
| step_rotation_clear : forall w ts i started w',
    nth_error ts i = Some (Rotation (ToClear started)) ->
    modify (set_rotating_ false) w = Returned tt w' ->
    step (DoClear i) {| shared := w; pool := ts |}
         {| shared := w'; pool := set_thread i (Rotation Finished) ts |}
| step_host_push : forall w ts me data n w',
    pushFloat16k L E me data n w = Returned tt w' ->
    step (HostPush me data n) {| shared := w; pool := ts |}
         {| shared := w'; pool := ts ++ started_by_push w w' |}
| step_host_stop : forall w ts w',
    stop E w = Returned tt w' ->
    step HostStop {| shared := w; pool := ts |} {| shared := w'; pool := ts |}
| step_host_start : forall w ts api_key lang started w',
    start E api_key lang w = Returned started w' ->
    step (HostStart api_key lang started) {| shared := w; pool := ts |}
         {| shared := w'; pool := ts |}
| step_reader : forall w ts w',
    reader_live w = true ->
    resultsThread E (set_reader_live false w) = Returned tt w' ->
    step ReaderRuns {| shared := w; pool := ts |} {| shared := w'; pool := ts |}.

(** The states a run reaches, with the labels of its steps, last first. *)
Inductive run : system -> list label -> system -> Prop :=
| run_nil : forall sys, run sys [] sys
| run_snoc : forall sys0 ls sys l sys',
    run sys0 ls sys -> step l sys sys' -> run sys0 (l :: ls) sys'.

End Threads.

(** A start of the system: the flag is clear and every thread is a call of
    [requestRotate] that has not swapped yet. *)
Definition only_callers (ts : list thread) : bool :=
  forallb (fun t => match t with Requesting _ AtSwap => true | _ => false end) ts.

Definition initial (sys : system) : Prop :=
  rotating sys = false /\ only_callers (pool sys) = true.

(** ** Reading a trace *)

Definition audio_of (e : event) : list (list Z) :=
  match e with
  | NetWrite (AudioRequest pcm) _ => [pcm]
  | _ => []
  end.

(** The audio frames handed to [Write], in order. *)
Definition frames_written (es : list event) : list (list Z) := flat_map audio_of es.

Definition callback_of (e : event) : list DetectionResultWithText :=
  match e with
  | HostCallback _ out => [out]
  | _ => []
  end.

(** The results delivered to the host, in order. *)
Definition callbacks (es : list event) : list DetectionResultWithText :=
  flat_map callback_of es.

Definition is_spawn (e : event) : bool :=
  match e with
  | ReaderSpawned | RotatorSpawned => true
  | _ => false
  end.

(** The threads started. *)
Definition threads_started (es : list event) : list event := filter is_spawn es.

(** A sequence of calls of [pushFloat16k] from the host thread, each with
    a non-null array and its length. *)
Fixpoint push_all (L : libm) (E : environment) (pushes : list (list float32)) (w : world) : world :=
  match pushes with
  | [] => w
  | d :: rest => push_all L E rest (world_of (pushFloat16k L E HostThread (Some d) (List.length d) w))
  end.

(** ** The result consumer in the words of the specification *)

(** The text of the top alternative of a result entry, empty when the
    entry has no alternative. *)
Definition top_transcript (r : StreamingRecognitionResult) : string :=
  match alternatives r with
  | a :: _ => transcript a
  | [] => EmptyString
  end.

(** The concatenation of the top transcripts over the entries. *)
Definition response_text_of (rs : list StreamingRecognitionResult) : string :=
  fold_right append EmptyString (map top_transcript rs).

Definition response_text (resp : StreamingRecognizeResponse) : string :=
  response_text_of (results resp).

(** Was any entry of the response marked final. *)
Definition response_final (resp : StreamingRecognizeResponse) : bool :=
  existsb is_final (results resp).

(** The configured transcription language, else the base recognition
    language, else "en". *)
Definition fallback_language (g : transcription_filter_data) : string :=
  match cloud_transcription_language g with
  | String _ _ => cloud_transcription_language g
  | EmptyString =>
      match whisper_params_language g with
      | Some (String c l) => String c l
      | _ => "en"%string
      end
  end.

(** The Detection Result of a response read at time [t]. *)
Definition delivery (g : transcription_filter_data) (t : Z)
    (resp : StreamingRecognizeResponse) : DetectionResultWithText :=
  {| result := if response_final resp then DETECTION_RESULT_SPEECH
               else DETECTION_RESULT_PARTIAL;
     text := response_text resp;
     start_timestamp_ms := 0;
     end_timestamp_ms := t;
     language := fallback_language g |}.

(** The results due for a sequence of responses, each with the time of
    its callback: nothing for a response with no text, nothing at all
    without a host; [clock] counts the readings of the clock so far. *)
Fixpoint deliveries (E : environment) (gf : option transcription_filter_data)
    (clock : nat) (resps : list StreamingRecognizeResponse)
    : list (Z * DetectionResultWithText) :=
  match resps with
  | [] => []
  | resp :: rest =>
      match gf with
      | None => deliveries E gf clock rest
      | Some g =>
          if is_empty (response_text resp) then deliveries E gf clock rest
          else
            let t := now_ms_at E clock mod uint64_max in
            (t, delivery g t resp) :: deliveries E gf (S clock) rest
      end
  end.

(** ** The pending queue in the words of the specification *)

(** The [i]-th frame of a queue: its samples [i * 1600 .. i * 1600 + 1599],
    encoded. *)
Definition frame_at (L : libm) (queue : list float32) (i : nat) : list Z :=
  map (f32_to_s16 L) (firstn CHUNK (skipn (i * CHUNK) queue)).

(** The frames a queue holds: as many as 1600 goes into its length, taken
    from the front. *)
Definition frames_of (L : libm) (queue : list float32) : list (list Z) :=
  map (frame_at L queue) (seq 0 (List.length queue / CHUNK)).

(** What is left of a queue once its frames are taken. *)
Definition remainder_of (queue : list float32) : list float32 :=
  skipn (List.length queue / CHUNK * CHUNK) queue.

(** The Sent-Sample Counter after [k] chunks: [k] additions of 1600 on a
    [uint64_t]. *)
Definition bump (k : nat) (counter : Z) : Z :=
  Nat.iter k (fun v => (v + Z.of_nat CHUNK) mod uint64_max) counter.

(** The first of [count] consecutive writes, from the [from]-th on, that
    the remote side refuses. *)
Fixpoint first_refusal (E : environment) (from count : nat) : option nat :=
  match count with
  | O => None
  | S c =>
      if write_ok E from then option_map S (first_refusal E (S from) c)
      else Some O
  end.

(** Is a rotation due at the next reading of the clock (line 40). *)
Definition rotation_due (E : environment) (w : world) : bool :=
  rotate_interval_ms_ (self w)
    <? (now_ms_at E (clock_reads w) mod uint64_max - start_ms_ (self w)) mod uint64_max.

(** ** States of the world that the member functions reach *)

Section ClientStates.

Variable L : libm.
Variable E : environment.

(** The handle-release event [impl_make] emits, if any. *)
Definition released (w : world) : list event :=
  match impl_ (self w) with Some _ => [ImplReleased] | None => [] end.

(** The object once lines 55-58 and 65 have run. *)
Definition opening (api_key lang : string) (st : option nat) (w : world) : GoogleSttStreamer :=
  set_impl_ (Some {| stream := st |})
    (set_start_ms_ (now_ms_at E (clock_reads w) mod uint64_max)
       (set_language_code_ lang (set_api_key_ api_key (self w)))).

(** The Detection Result of lines 86-91, [t] being the clock reading. *)
Definition config_error (t : Z) : DetectionResultWithText :=
  {| result := DETECTION_RESULT_PARTIAL;
     text := config_error_text;
     start_timestamp_ms := t;
     end_timestamp_ms := t;
     language := "en" |}.

(** The diagnostic of lines 85-93, delivered when a host is attached. *)
Definition config_diagnostic (w : world) : list event :=
  match gf_ (self w) with
  | Some _ =>
      let t := now_ms_at E (S (clock_reads w)) mod uint64_max in
      [HostCallback t (config_error t)]
  | None => []
  end.

(** The callback of a result with its time. *)
Definition callback_event (d : Z * DetectionResultWithText) : event :=
  HostCallback (fst d) (snd d).

(** The world once the loop of line 203 has read all of [resps]. *)
Definition after_reading (resps : list StreamingRecognizeResponse) (w : world) : world :=
  let ds := deliveries E (gf_ (self w)) (clock_reads w) resps in
  {| self := self w;
     clock_reads := (clock_reads w + List.length ds)%nat;
     streams_opened := streams_opened w;
     writes_issued := writes_issued w;
     inbox := match resps with [] => inbox w | _ :: _ => [] end;
     reader_live := reader_live w;
     trace := trace w ++ map callback_event ds |}.

(** The world once the loop of line 169 has emptied the queue of its
    complete chunks. *)
Definition drained (w : world) : world :=
  let q := pending_ (self w) in
  set_self
    (set_sent_samples_ (bump (List.length q / CHUNK) (sent_samples_ (self w)))
       (set_pending_ (remainder_of q) (self w))) w.

(** An audio frame handed to [Write], with the answer of the remote side. *)
Definition audio_write (accepted : bool) (s16 : list Z) : event :=
  NetWrite (AudioRequest s16) accepted.

(** The world once the loop of line 179 has gone through [sending]. *)
Definition after_sending (sending : list (list Z)) (w : world) : world :=
  match sending, stream_of (self w) with
  | [], _ => w
  | _ :: _, None => set_self (set_running_ false (self w)) w
  | _ :: _, Some _ =>
      match first_refusal E (writes_issued w) (List.length sending) with
      | None =>
          set_trace (trace w ++ map (audio_write true) sending)
            (set_writes_issued (writes_issued w + List.length sending) w)
      | Some j =>
          set_self (set_running_ false (self w))
            (set_trace
               (trace w ++ map (audio_write true) (firstn j sending)
                  ++ [audio_write false (nth j sending [])])
               (set_writes_issued (writes_issued w + S j) w))
      end
  end.

(** The world once the gate is taken and the rotation thread started. *)
Definition gate_taken (me : thread_id) (w : world) : world :=
  set_self (set_rotator_ true (set_rotating_ true (self w)))
    (set_trace
       (trace w
          ++ (if rotator_ (self w)
              then [if is_rotator me then RotatorDetached else RotatorJoined]
              else [])
          ++ [RotatorSpawned]) w).

(** A push on a running client with the gate open and no rotation due:
    the samples are queued, the complete chunks drained and sent. *)
Definition queued (samples : list float32) (w : world) : world :=
  set_self (set_pending_ (pending_ (self w) ++ samples) (self w))
    (set_clock_reads (S (clock_reads w)) w).

(** A session in good health: the client is running with an open stream,
    no rotation is in flight or falls due, the remote side accepts every
    write, and the queue holds less than a chunk. *)
Definition steady (w : world) : Prop :=
  running_ (self w) = true /\
  rotating_ (self w) = false /\
  stream_of (self w) <> None /\
  (List.length (pending_ (self w)) < CHUNK)%nat /\
  (forall i, (writes_issued w <= i)%nat -> write_ok E i = true) /\
  (forall i, (clock_reads w <= i)%nat ->
     (now_ms_at E i mod uint64_max - start_ms_ (self w)) mod uint64_max
       <= rotate_interval_ms_ (self w)).

(** The world a push leaves in good health. *)
Definition pushed (d : list float32) (w : world) : world :=
  let q := pending_ (self w) ++ d in
  {| self := set_sent_samples_ (bump (List.length q / CHUNK) (sent_samples_ (self w)))
               (set_pending_ (remainder_of q) (self w));
     clock_reads := match d with [] => clock_reads w | _ => S (clock_reads w) end;
     streams_opened := streams_opened w;
     writes_issued := (writes_issued w + List.length q / CHUNK)%nat;
     inbox := inbox w;
     reader_live := reader_live w;
     trace := trace w ++ map (audio_write true) (frames_of L q) |}.

End ClientStates.

(** ** Properties of the member functions and of the pool *)

(** The computation leaves a client that is not running not running. *)
Definition stays_down {A : Type} (c : M A) : Prop :=
  forall w, running_ (self w) = false -> running_ (self (world_of (c w))) = false.

(** The computation does not write [rotating_]. *)
Definition keeps_gate {A : Type} (c : M A) : Prop :=
  forall w, rotating_ (self (world_of (c w))) = rotating_ (self w).

(** The flag as a number of holders. *)
Definition gate_count (b : bool) : nat := if b then 1%nat else 0%nat.

(** The flag is set exactly when one thread holds the gate. *)
Definition gate_invariant (sys : system) : Prop :=
  in_flight (pool sys) = gate_count (rotating sys).

(** How a step changes the thread at a place of the pool. *)
Definition moved_by (l : label) (i : nat) (u : thread) : Prop :=
  match l with
  | DoSwap j won =>
      j = i /\ exists me, u = Requesting me (if won then AtSpawn else Left false)
  | DoSpawn j => (j = i /\ exists me, u = Requesting me (Left true)) \/ u = Rotation ToStop
  | DoStop j => j = i /\ u = Rotation ToStart
  | DoStart j started => j = i /\ u = Rotation (ToClear started)
  | DoClear j => j = i /\ u = Rotation Finished
  | HostPush _ _ _ => u = Rotation ToStop
  | HostStop | HostStart _ _ _ | ReaderRuns => False
  end.

(** The labels of the compare-and-swaps, and of those that succeeded. *)
Definition is_swap (l : label) : bool :=
  match l with DoSwap _ _ => true | _ => false end.

Definition is_won_swap (l : label) : bool :=
  match l with DoSwap _ true => true | _ => false end.

(** The calls whose compare-and-swap succeeded. *)
Definition winners (ls : list label) : nat := List.length (filter is_won_swap ls).

(** ** The end of a session *)

(** The Detection Result of lines 244-248, [t] being the clock reading. *)
Definition finish_error (st : Status) (t : Z) : DetectionResultWithText :=
  {| result := DETECTION_RESULT_PARTIAL;
     text := ("CloudSTT error: " ++ error_message st)%string;
     start_timestamp_ms := t;
     end_timestamp_ms := t;
     language := "en" |}.

(** The diagnostic of lines 239-249 for the stream of ordinal [k]. *)
Definition finish_diagnostic (E : environment) (k : nat) (w : world) : list event :=
  match gf_ (self w) with
  | Some _ =>
      if negb (ok (finish_status E k)) then
        let t := now_ms_at E (clock_reads w) mod uint64_max in
        [HostCallback t (finish_error (finish_status E k) t)]
      else []
  | None => []
  end.

(** The world once lines 237-256 have run on the stream of ordinal [k]. *)
Definition after_finish (E : environment) (k : nat) (w : world) : world :=
  {| self := set_running_ false (self w);
     clock_reads := (clock_reads w + List.length (finish_diagnostic E k w))%nat;
     streams_opened := streams_opened w;
     writes_issued := writes_issued w;
     inbox := inbox w;
     reader_live := reader_live w;
     trace := trace w ++ NetFinish (finish_status E k) :: finish_diagnostic E k w |}.

(** What the body of the reader thread does when it is joined by
    [stop()]: the client is no longer running, so nothing is read. *)
Definition reader_end (E : environment) (w : world) : list event :=
  if reader_ (self w) && reader_live w then
    match stream_of (self w) with
    | Some k => NetFinish (finish_status E k) :: finish_diagnostic E k w
    | None => []
    end
  else [].

(** The world that [stop()] leaves. *)
Definition stopped (E : environment) (w : world) : world :=
  {| self := set_pending_ [] (set_impl_ None (set_reader_ false
               (set_running_ false (self w))));
     clock_reads := (clock_reads w + List.length (callbacks (reader_end E w)))%nat;
     streams_opened := streams_opened w;
     writes_issued := writes_issued w;
     inbox := inbox w;
     reader_live := if reader_ (self w) then false else reader_live w;
     trace := trace w
              ++ (match stream_of (self w) with
                  | Some _ => [NetWritesDone; NetTryCancel]
                  | None => []
                  end)
              ++ reader_end E w
              ++ (if reader_ (self w) then [ReaderJoined] else [])
              ++ released w |}.

(** A clock that is set back by half a second after its first reading,
    and a client started at that first reading. *)
Definition env_set_back : environment :=
  {| now_ms_at := fun n => match n with O => 1000 | S _ => 500 end;
     stream_created := fun _ => true;
     write_ok := fun _ => true;
     responses_of := fun _ => [];
     finish_status := fun _ => {| ok := true; error_message := EmptyString |} |}.

Definition world_set_back : world :=
  world_of (start env_set_back "key" "en" (world_new None)).


(* ===================================================================== *)
(** * Part III. The text utilities                                        *)
(* ===================================================================== *)

(** ** Characters, strings and the pieces of the C++ library

    A [std::string] that is inspected character by character is the list
    of its characters.  The classification functions of [<cctype>] depend
    on the locale in force; they are taken on the code of the character,
    as the lambdas of the source do by converting to [unsigned char]. *)
Record locale : Type := {
  isalpha : ascii -> bool;
  isspace : ascii -> bool;
  ispunct : ascii -> bool
}.

Section TextUtilities.
Local Open Scope nat_scope.

Variable C : locale.

(** [std::find_if(first, last, p)] over a whole sequence, as a position:
    that of the first element that satisfies [p], and the length of the
    sequence when there is none. *)
Fixpoint find_if {A : Type} (p : A -> bool) (l : list A) : nat :=
  match l with
  | [] => 0
  | a :: rest => if p a then 0 else S (find_if p rest)
  end.

(** [std::find_if(l.rbegin(), l.rend(), p).base()]: the position after
    the last element that satisfies [p], and 0 when there is none. *)
Definition find_if_reverse_base {A : Type} (p : A -> bool) (l : list A) : nat :=
  List.length l - find_if p (rev l).

(** [l.erase(l.begin() + first, l.begin() + last)]. *)
Definition erase {A : Type} (first last : nat) (l : list A) : list A :=
  firstn first l ++ skipn last l.

(** [str[i]]. *)
Definition char_at (str : list ascii) (i : nat) : ascii := nth i str zero.

Definition is_nil {A : Type} (l : list A) : bool :=
  match l with [] => true | _ :: _ => false end.

(** ** [trim] (transcription-utils.h, lines 43-54) *)
Definition trim (str : list ascii) : list ascii :=
  let not_space := fun ch => negb (isspace C ch) in
  let str_copy := str in
  let str_copy := erase 0 (find_if not_space str_copy) str_copy in
  let str_copy :=
    erase (find_if_reverse_base not_space str_copy) (List.length str_copy) str_copy in
  str_copy.

(** ** [remove_leading_trailing_nonalpha] (transcription-utils.cpp, lines 93-131)

    The iterator of line 124-128 is one past the character found; when no
    character is found it would be one past [end()], which the library
    leaves undefined: the result is then [None]. *)
Definition remove_leading_trailing_nonalpha (str : list ascii) : option (list ascii) :=
  if List.length str =? 0 then Some str
  else if List.length str =? 1 then
    if isalpha C (char_at str 0) then Some str else Some []
  else if List.length str =? 2 then
    if isalpha C (char_at str 0) && isalpha C (char_at str 1) then Some str
    else if isalpha C (char_at str 0) then Some [char_at str 0]
    else if isalpha C (char_at str 1) then Some [char_at str 1]
    else Some []
  else
    let keep := fun ch => negb (isspace C ch) || negb (ispunct C ch) in
    let str_copy := str in
    let last_non_space := find_if_reverse_base keep str_copy in
    let str_copy := erase last_non_space (List.length str_copy) str_copy in
    let first_non_space := find_if keep str_copy + 1 in
    if first_non_space <=? List.length str_copy then
      Some (erase 0 first_non_space str_copy)
    else None.

(** ** [split] (lines 133-144) *)

(** The characters [std::getline] takes from a stream that is not at its
    end: those before the next delimiter, which is taken out of the stream
    and not stored, or all of them when there is no delimiter. *)
Fixpoint getline_from (delimiter : ascii) (stream : list ascii) : list ascii * list ascii :=
  match stream with
  | [] => ([], [])
  | c :: rest =>
      if Ascii.eqb c delimiter then ([], rest)
      else let '(token, rest') := getline_from delimiter rest in (c :: token, rest')
  end.

(** [std::getline(stream, token, delimiter)]: it fails, and the stream
    tests false, when no character at all could be taken. *)
Definition getline (delimiter : ascii) (stream : list ascii)
    : option (list ascii * list ascii) :=
  match stream with
  | [] => None
  | _ :: _ => Some (getline_from delimiter stream)
  end.

(** The [while] loop of lines 138-142.  A turn takes at least one
    character out of the stream, so the length of the stream bounds the
    turns. *)
Fixpoint split_loop (fuel : nat) (delimiter : ascii) (tokenStream : list ascii)
    (tokens : list (list ascii)) : list (list ascii) :=
  match fuel with
  | O => tokens
  | S fuel' =>
      match getline delimiter tokenStream with
      | None => tokens
      | Some (token, rest) =>
          split_loop fuel' delimiter rest
            (if negb (is_nil token) then tokens ++ [token] else tokens)
      end
  end.

Definition split (string : list ascii) (delimiter : ascii) : list (list ascii) :=
  split_loop (S (List.length string)) delimiter string [].

(** ** [split_words] (lines 146-164) *)

(** The body of the [for] loop of lines 150-159 on the pair of locals
    [words] and [word]. *)
Definition split_words_step (st : list (list ascii) * list ascii) (c : ascii)
    : list (list ascii) * list ascii :=
  let '(words, word) := st in
  if isspace C c then
    if negb (is_nil word) then (words ++ [word], []) else (words, word)
  else (words, word ++ [c]).

Definition split_words (str_copy : list ascii) : list (list ascii) :=
  let '(words, word) := fold_left split_words_step str_copy ([], []) in
  if negb (is_nil word) then words ++ [word] else words.

(** ** [split_into_lines] (lines 215-244) *)

(** [iss >> word]: the white space in front is skipped, then the
    characters up to the next white space are taken; the extraction fails
    when the stream ends before a character is found. *)
Fixpoint skip_space (stream : list ascii) : list ascii :=
  match stream with
  | [] => []
  | c :: rest => if isspace C c then skip_space rest else stream
  end.

Fixpoint take_word (stream : list ascii) : list ascii * list ascii :=
  match stream with
  | [] => ([], [])
  | c :: rest =>
      if isspace C c then ([], stream)
      else let '(word, rest') := take_word rest in (c :: word, rest')
  end.

Definition extract_word (stream : list ascii) : option (list ascii * list ascii) :=
  match skip_space stream with
  | [] => None
  | c :: rest => Some (take_word (c :: rest))
  end.

(** [size_t] is the 64-bit unsigned type of the platforms the plugin is
    built for. *)
Definition size_max : Z := 2 ^ 64.

Definition size_of (word : list ascii) : Z :=
  (Z.of_nat (List.length word) mod size_max)%Z.

(** The locals of the loop of lines 226-237. *)
Record lines_state : Type := {
  lines : list (list ascii);
  segment : list ascii;
  current_line_size : Z
}.

Definition space : ascii := " "%char.
Definition newline : ascii := "010"%char.

(** One turn of the loop, [word] being the word just extracted. *)
Definition place_word (max_len : Z) (st : lines_state) (word : list ascii) : lines_state :=
  let add_len :=
    ((size_of word + (if 0 <? current_line_size st then 1 else 0)) mod size_max)%Z in
  if ((current_line_size st + add_len) mod size_max <=? max_len)%Z then
    {| lines := lines st;
       segment := segment st
                    ++ (if (0 <? current_line_size st)%Z then [space] else []) ++ word;
       current_line_size := ((current_line_size st + add_len) mod size_max)%Z |}
  else
    {| lines := lines st ++ [segment st ++ [newline]];
       segment := word;
       current_line_size := size_of word |}.

(** The [while] loop; an extraction takes at least one character out of
    the stream. *)
Fixpoint lines_loop (fuel : nat) (max_len : Z) (iss : list ascii) (st : lines_state)
    : lines_state :=
  match fuel with
  | O => st
  | S fuel' =>
      match extract_word iss with
      | None => st
      | Some (word, rest) => lines_loop fuel' max_len rest (place_word max_len st word)
      end
  end.

Definition split_into_lines (text : list ascii) (max_len current_line_size : Z)
    : list (list ascii) :=
  if (max_len =? 0)%Z || is_nil text then []
  else
    let st := lines_loop (S (List.length text)) max_len text
                {| lines := []; segment := []; current_line_size := current_line_size |} in
    if negb (is_nil (segment st)) then lines st ++ [segment st] else lines st.

End TextUtilities.

(** ** [get_last_line_length] (lines 192-213) *)

(** The files the program sees: the content stored under a path, if any,
    and whether a stream on the path can be opened for reading and for
    writing. *)
Record filesystem : Type := {
  content_of : string -> option (list ascii);
  readable : string -> bool;
  writable : string -> bool
}.

(** [std::ifstream(file_path, std::ios::ate)]: the content when the
    stream is open.  The file is read byte by byte, with no translation
    of line ends. *)
Definition ifstream (fs : filesystem) (file_path : string) : option (list ascii) :=
  if readable fs file_path then content_of fs file_path else None.

(** [file.seekg(-pos, std::ios::end); file.get(ch)]. *)
Definition char_from_end (file : list ascii) (pos : Z) : ascii :=
  nth (Z.to_nat (Z.of_nat (List.length file) - pos)) file zero.

(** The [for] loop of lines 205-210; the value is [pos] when it ends. *)
Fixpoint scan_back (fuel : nat) (file : list ascii) (file_size pos : Z) : Z :=
  match fuel with
  | O => pos
  | S fuel' =>
      if pos <=? file_size then
        if Ascii.eqb (char_from_end file pos) "010"%char then pos
        else scan_back fuel' file file_size (pos + 1)
      else pos
  end.

Definition get_last_line_length (fs : filesystem) (file_path : string) : Z :=
  match ifstream fs file_path with
  | None => 0
  | Some file =>
      let file_size := Z.of_nat (List.length file) in
      if file_size <=? 0 then 0
      else
        let pos := scan_back (S (List.length file)) file file_size 1 in
        (pos - 1) mod 2 ^ 64
  end.

(** ** [clear_output_files_on_start] (lines 166-190) *)

(** The operations of [std::filesystem::path] the function uses, a path
    being written as its string. *)
Record path_library : Type := {
  stem : string -> string;
  extension : string -> string;
  parent_path : string -> string;
  path_append : string -> string -> string
}.

(** [std::ofstream(path, std::ios::out | std::ios::trunc)], closed at
    once: the file is created or emptied when the stream opens. *)
Definition truncate (p : string) (fs : filesystem) : filesystem :=
  if writable fs p then
    {| content_of := fun q => if String.eqb q p then Some [] else content_of fs q;
       readable := readable fs;
       writable := writable fs |}
  else fs.

(** [std::filesystem::exists]. *)
Definition exists_file (fs : filesystem) (p : string) : bool :=
  match content_of fs p with Some _ => true | None => false end.

Definition clear_output_files_on_start (P : path_library) (output_file_path : string)
    (language_codes_to_whisper : list (string * string)) (fs : filesystem) : filesystem :=
  if String.eqb output_file_path EmptyString then fs
  else
    let base_file_name := stem P output_file_path in
    let fie_extension := extension P output_file_path in
    let file_parent_path := parent_path P output_file_path in
    let fs := truncate output_file_path fs in
    fold_left
      (fun fs entry =>
         let language_code := fst entry in
         let target_language_output_file_path :=
           path_append P file_parent_path
             (base_file_name ++ "_" ++ language_code ++ fie_extension)%string in
         if exists_file fs target_language_output_file_path then
           truncate target_language_output_file_path fs
         else fs)
      language_codes_to_whisper fs.

(** ** [fix_utf8] (lines 10-85) *)

(** A [uint8_t] is an integer in [0, 256). *)
Definition is_lead_byte (c : Z) : bool :=
  (Z.land c 224 =? 192) || (Z.land c 240 =? 224) || (Z.land c 248 =? 240).

Definition is_trail_byte (c : Z) : bool := Z.land c 192 =? 128.

Definition lead_byte_length (c : Z) : Z :=
  if Z.land c 224 =? 192 then 2
  else if Z.land c 240 =? 224 then 3
  else if Z.land c 248 =? 240 then 4
  else 1.

(** A pointer into an array of bytes: what is read at each offset from
    it, [None] outside the array. *)
Definition pointer : Type := nat -> option Z.

(** [is_trail_byte(c[k])] within a conjunction: the byte is read only if
    the evaluation comes to it. *)
Definition and_then (a : option bool) (b : option bool) : option bool :=
  match a with
  | Some true => b
  | other => other
  end.

Definition trail_at (c : pointer) (k : nat) : option bool :=
  option_map is_trail_byte (c k).

Definition is_valid_lead_byte (c : pointer) : option bool :=
  match c 0%nat with
  | None => None
  | Some c0 =>
      let length := lead_byte_length c0 in
      if length =? 1 then Some true
      else
        match and_then (Some (length =? 2)) (trail_at c 1) with
        | None => None
        | Some true => Some true
        | Some false =>
            match and_then (Some (length =? 3))
                    (and_then (trail_at c 1) (trail_at c 2)) with
            | None => None
            | Some true => Some true
            | Some false =>
                match and_then (Some (length =? 4))
                        (and_then (trail_at c 1)
                           (and_then (trail_at c 2) (trail_at c 3))) with
                | None => None
                | Some true => Some true
                | Some false => Some false
                end
            end
        end
  end.

(** [c_str[i]] on the storage of a string of bytes [buf]: the bytes, then
    the terminating zero; nothing beyond. *)
Definition c_str (buf : list Z) : pointer :=
  fun i => if (i <? List.length buf)%nat then nth_error buf i
           else if (i =? List.length buf)%nat then Some 0 else None.

Definition offset (c : pointer) (i : nat) : pointer := fun k => c (i + k)%nat.

(** [c_str[i] = v], [i] within the string. *)
Fixpoint store (buf : list Z) (i : nat) (v : Z) : list Z :=
  match buf, i with
  | [], _ => []
  | _ :: rest, O => v :: rest
  | b :: rest, S j => b :: store rest j v
  end.

(** The body of the loop of lines 52-79 at index [i]. *)
Definition fix_at (buf : list Z) (i : nat) : option (list Z) :=
  match c_str buf i with
  | None => None
  | Some ci =>
      if is_lead_byte ci then
        match c_str buf (i + 1)%nat with
        | None => None
        | Some next =>
            let buf := if next =? 255 then store buf (i + 1)%nat 159 else buf in
            match is_valid_lead_byte (offset (c_str buf) i) with
            | None => None
            | Some true => Some buf
            | Some false => Some (store buf i ((ci - 32) mod 256))
            end
        end
      else if 248 <=? ci then
        match c_str buf (i + 1)%nat, c_str buf (i + 2)%nat, c_str buf (i + 3)%nat with
        | Some b1, Some b2, Some b3 =>
            let buf_ := [(ci - 32) mod 256; b1; b2; b3] in
            match is_valid_lead_byte (nth_error buf_) with
            | None => None
            | Some true => Some (store buf i ((ci - 32) mod 256))
            | Some false => Some buf
            end
        | _, _, _ => None
        end
      else Some buf
  end.

(** The loop, from index [i], [count] turns to go. *)
Fixpoint fix_loop (count : nat) (i : nat) (buf : list Z) : option (list Z) :=
  match count with
  | O => Some buf
  | S count' =>
      match fix_at buf i with
      | None => None
      | Some buf' => fix_loop count' (S i) buf'
      end
  end.

(** The [std::string] built from the C string at line 81: the bytes before
    the first zero. *)
Fixpoint until_zero (buf : list Z) : list Z :=
  match buf with
  | [] => []
  | b :: rest => if b =? 0 then [] else b :: until_zero rest
  end.

(** [fix_utf8]; [win32] tells whether [_WIN32] is defined.  The loop
    works on the storage of its argument, through the pointer of line 51,
    and the result is built from that storage.  The result is [None] when
    the function reads beyond the storage of the string. *)
Definition fix_utf8 (win32 : bool) (str : list Z) : option (list Z) :=
  if win32 then option_map until_zero (fix_loop (List.length str) 0 str)
  else Some str.

(** ** The "C" locale *)
Definition c_isspace (c : ascii) : bool :=
  let n := nat_of_ascii c in ((9 <=? n) && (n <=? 13) || (n =? 32))%nat.
Definition c_isalpha (c : ascii) : bool :=
  let n := nat_of_ascii c in ((65 <=? n) && (n <=? 90) || (97 <=? n) && (n <=? 122))%nat.
Definition c_ispunct (c : ascii) : bool :=
  let n := nat_of_ascii c in
  ((33 <=? n) && (n <=? 47) || (58 <=? n) && (n <=? 64)
   || (91 <=? n) && (n <=? 96) || (123 <=? n) && (n <=? 126))%nat.
Definition c_locale : locale :=
  {| isalpha := c_isalpha; isspace := c_isspace; ispunct := c_ispunct |}.

Definition chars (s : string) : list ascii := list_ascii_of_string s.

(** Names in the current directory, without extension: what the
    operations of [std::filesystem::path] give on them. *)
Definition plain_names : path_library :=
  {| stem := fun p => p;
     extension := fun _ => EmptyString;
     parent_path := fun _ => EmptyString;
     path_append := fun parent name => (parent ++ name)%string |}.

(** A directory with a transcript, its German translation and nothing
    else; every path can be opened. *)
Definition two_files : filesystem :=
  {| content_of := fun p =>
       if String.eqb p "out" then Some (chars "first line")
       else if String.eqb p "out_de" then Some (chars "erste Zeile")
       else None;
     readable := fun _ => true;
     writable := fun _ => true |}.

(** ** Vocabulary for the properties of the text utilities *)

(** Every character of the string is white space. *)
Definition all_space (C : locale) (l : list ascii) : bool := forallb (isspace C) l.

(** Does the delimiter occur in the string. *)
Definition has (d : ascii) (s : list ascii) : bool := existsb (Ascii.eqb d) s.

(** The tokens put together again, a delimiter between two of them. *)
Fixpoint join (d : ascii) (tokens : list (list ascii)) : list ascii :=
  match tokens with
  | [] => []
  | [t] => t
  | t :: rest => t ++ d :: join d rest
  end.

(** A token: not empty, and no delimiter in it. *)
Definition is_token (d : ascii) (t : list ascii) : bool :=
  negb (is_nil t) && negb (has d t).

(** A word: not empty, and no white space in it. *)
Definition is_word (C : locale) (w : list ascii) : bool :=
  negb (is_nil w) && forallb (fun c => negb (isspace C c)) w.

(** What [split_words] returns from the state of its loop (lines
    160-163). *)
Definition finish_words (st : list (list ascii) * list ascii) : list (list ascii) :=
  let '(words, word) := st in
  if negb (is_nil word) then words ++ [word] else words.

Definition is_newline (c : ascii) : bool := Ascii.eqb c "010"%char.

Definition add_newline (body : list ascii) : list ascii := body ++ [newline].

Definition no_newline (body : list ascii) : bool :=
  forallb (fun c => negb (is_newline c)) body.

(** The lines of [split_into_lines] without their line ends: the first
    one, which continues a line of [offset] characters, is empty or fits;
    each of the others fits or is one word. *)
Definition lines_fit (C : locale) (max_len offset : Z) (bodies : list (list ascii)) : Prop :=
  match bodies with
  | [] => True
  | first :: others =>
      (first = [] \/ offset + Z.of_nat (List.length first) <= max_len) /\
      Forall (fun b => is_word C b = true \/ Z.of_nat (List.length b) <= max_len) others
  end.

(** What the loop of [split_into_lines] maintains: [iss] is what is left
    of the stream, [bodies] are the lines closed so far without their line
    ends, and [c0] is the line size the function was called with. *)
Record lines_inv (C : locale) (text : list ascii) (max_len c0 : Z)
    (iss : list ascii) (st : lines_state) (bodies : list (list ascii)) : Prop := {
  inv_lines : lines st = map add_newline bodies;
  inv_words :
    split_words C (List.concat (lines st) ++ segment st) ++ split_words C iss
    = split_words C text;
  inv_size :
    current_line_size st
    = (if is_nil bodies then c0 else 0) + Z.of_nat (List.length (segment st));
  inv_bound :
    current_line_size st + Z.of_nat (List.length iss)
    <= c0 + Z.of_nat (List.length text) + (if is_nil (segment st) then 0 else 1);
  inv_rest :
    is_nil (segment st) = false ->
    match iss with [] => True | c :: _ => isspace C c = true end;
  inv_first : is_nil (segment st) = true -> bodies = [];
  inv_fit : lines_fit C max_len c0 (bodies ++ [segment st]);
  inv_clean : Forall (fun b => no_newline b = true) (bodies ++ [segment st])
}.

(** The files a call of [clear_output_files_on_start] may empty besides
    the output file: one for each language code. *)
Definition translation_paths (P : path_library) (output_file_path : string)
    (language_codes_to_whisper : list (string * string)) : list string :=
  map (fun entry =>
         path_append P (parent_path P output_file_path)
           (stem P output_file_path ++ "_" ++ fst entry
              ++ extension P output_file_path)%string)
      language_codes_to_whisper.

(** The body of the loop of lines 184-189 on its own. *)
Definition clear_step (P : path_library) (output_file_path : string) (fs : filesystem)
    (entry : string * string) : filesystem :=
  let target :=
    path_append P (parent_path P output_file_path)
      (stem P output_file_path ++ "_" ++ fst entry ++ extension P output_file_path)%string in
  if exists_file fs target then truncate target fs else fs.

Definition is_byte (b : Z) : Prop := 0 <= b < 256.

Definition between (lo hi c : Z) : bool := (lo <=? c) && (c <=? hi).

(** The classes of bytes as ranges: lead bytes of two, three and four
    bytes, and trail bytes. *)
Definition byte_classes (c : Z) : bool :=
  (lead_byte_length c =?
     if between 192 223 c then 2
     else if between 224 239 c then 3
     else if between 240 247 c then 4
     else 1)
  && Bool.eqb (is_lead_byte c) (between 192 247 c)
  && Bool.eqb (is_trail_byte c) (between 128 191 c).

(** What the loop of [fix_utf8] maintains, [orig] being the string it was
    given and [i] the index it has come to: a byte differs from the
    original only where the loop has been, where it is the original less
    0x20, or where the original was 0xff, at the index at hand at the
    latest, where it is 0x9f. *)
Definition fixing (orig : list Z) (i : nat) (buf : list Z) : Prop :=
  List.length buf = List.length orig /\
  Forall is_byte buf /\
  forall j,
    nth j buf 0 = nth j orig 0 \/
    (192 <= nth j orig 0 /\ nth j buf 0 = nth j orig 0 - 32 /\ (j < i)%nat) \/
    (nth j orig 0 = 255 /\ nth j buf 0 = 159 /\ (j <= i)%nat).

(** A string in UTF-8 as the function understands it: characters of one
    byte in [1, 127], and lead bytes each followed by as many trail bytes
    as its class asks for; [pending] counts the trail bytes still due. *)
Fixpoint well_formed (pending : nat) (s : list Z) : bool :=
  match s with
  | [] => (pending =? 0)%nat
  | c :: rest =>
      match pending with
      | O =>
          if between 1 127 c then well_formed 0 rest
          else is_lead_byte c && well_formed (Z.to_nat (lead_byte_length c - 1)) rest
      | S p => is_trail_byte c && well_formed p rest
      end
  end.

(** The body of the loop changes nothing at the head of [suf]. *)
Definition settled (suf : list Z) : Prop :=
  match suf with
  | [] => True
  | c :: rest =>
      if is_lead_byte c then
        hd 0 rest <> 255 /\ is_valid_lead_byte (c_str suf) = Some true
      else c < 248
  end.

(* ===================================================================== *)
(** * Part IV. Properties of the streaming client                         *)
(* ===================================================================== *)

(** Concrete data for the examples. *)
Definition linux64 : libm :=
  {| long_bits := 64; lround_unspecified := fun _ => - 2 ^ 63 |}.

Definition half : float32 := S754_finite false 8388608 (-24).

Definition status_ok : Status := {| ok := true; error_message := EmptyString |}.

(** A remote side that accepts everything and says nothing, under a
    clock that stands still. *)
Definition env_quiet : environment :=
  {| now_ms_at := fun _ => 1000;
     stream_created := fun _ => true;
     write_ok := fun _ => true;
     responses_of := fun _ => [];
     finish_status := fun _ => status_ok |}.

(** A remote side that yields a stream and refuses every write. *)
Definition env_refusing : environment :=
  {| now_ms_at := fun n => 1000 + Z.of_nat n;
     stream_created := fun _ => true;
     write_ok := fun _ => false;
     responses_of := fun _ => [];
     finish_status := fun _ => status_ok |}.

(** A remote side that yields no stream. *)
Definition env_unreachable : environment :=
  {| now_ms_at := fun n => 1000 + Z.of_nat n;
     stream_created := fun _ => false;
     write_ok := fun _ => true;
     responses_of := fun _ => [];
     finish_status := fun _ => status_ok |}.

Definition host_en : transcription_filter_data :=
  {| cloud_transcription_language := "uk"; whisper_params_language := Some "en"%string |}.

(** A running client: [start] on a fresh object with a quiet remote. *)
Definition world_running : world :=
  world_of (start env_quiet "key" "en" (world_new (Some host_en))).

(** A running client in the middle of a rotation. *)
Definition world_rotating : world :=
  set_self (set_rotating_ true (self world_running)) world_running.

(** A remote side that accepts the configuration and one audio frame, and
    refuses the writes after that. *)
Definition env_failing : environment :=
  {| now_ms_at := fun _ => 1000;
     stream_created := fun _ => true;
     write_ok := fun i => (i <? 2)%nat;
     responses_of := fun _ => [];
     finish_status := fun _ => status_ok |}.

Definition response_hel : StreamingRecognizeResponse :=
  {| results := [ {| alternatives := [ {| transcript := "hel" |} ]; is_final := false |} ] |}.

Definition response_hello : StreamingRecognizeResponse :=
  {| results := [ {| alternatives := [ {| transcript := "hello" |}; {| transcript := "hollow" |} ];
                     is_final := true |} ] |}.

Definition response_blank : StreamingRecognizeResponse :=
  {| results := [ {| alternatives := []; is_final := true |} ] |}.

(** A remote side that answers one partial and then one final result, under
    a clock that ticks at each reading. *)
Definition env_scripted : environment :=
  {| now_ms_at := fun n => 1000 + Z.of_nat n;
     stream_created := fun _ => true;
     write_ok := fun _ => true;
     responses_of := fun _ => [response_hel; response_hello];
     finish_status := fun _ => status_ok |}.

(** Two calls race for the gate of a running client: the first swap wins,
    the second loses. *)
Definition race_start : system :=
  {| shared := world_running;
     pool := [Requesting HostThread AtSwap; Requesting ReaderThread AtSwap] |}.

Definition race_end : system :=
  {| shared := set_self (set_rotating_ true (self world_running)) world_running;
     pool := [Requesting HostThread AtSpawn; Requesting ReaderThread (Left false)] |}.

(** The winner has started the rotation thread, and the rotation task has
    run to its end. *)
Definition race_spawned : system :=
  {| shared := world_of (respawn_rotator HostThread (shared race_end));
     pool := [Requesting HostThread (Left true); Requesting ReaderThread (Left false);
              Rotation ToStop] |}.

Definition race_rotated : system :=
  {| shared := world_of (doRotate env_quiet (shared race_spawned));
     pool := [Requesting HostThread (Left true); Requesting ReaderThread (Left false);
              Rotation Finished] |}.

(** Unfolding of the monad, of the records and of the member functions,
    by value: the world is shared, not copied, along a sequence of binds. *)
Ltac exec_records :=
  cbv beta iota zeta delta
    [bind ret get modify emit terminate world_of value_of
     self clock_reads streams_opened writes_issued inbox reader_live trace
     set_self set_clock_reads set_streams_opened set_writes_issued set_inbox
     set_reader_live set_trace
     gf_ pending_ reader_ running_ impl_ sent_samples_ language_code_ api_key_
     rotating_ rotator_ start_ms_ rotate_interval_ms_
     set_pending_ set_reader_ set_running_ set_impl_ set_sent_samples_
     set_language_code_ set_api_key_ set_rotating_ set_rotator_ set_start_ms_
     stream stream_of negb andb orb].

Ltac unfold_monad := exec_records.

Ltac destruct_world w :=
  let s := fresh "s" in
  destruct w as [s ? ? ? ? ? ?]; destruct s;
  cbv beta iota delta
    [self clock_reads streams_opened writes_issued inbox reader_live trace
     gf_ pending_ reader_ running_ impl_ sent_samples_ language_code_ api_key_
     rotating_ rotator_ start_ms_ rotate_interval_ms_] in *.

(** ** Traces *)

Lemma events_since_same (w : world) : events_since w w = [].
Proof. unfold events_since. apply skipn_all. Qed.

Lemma events_since_app (w w' : world) (es : list event) :
  trace w' = trace w ++ es -> events_since w w' = es.
Proof.
  intros H. unfold events_since. rewrite H.
  rewrite skipn_app, skipn_all, Nat.sub_diag. reflexivity.
Qed.

Lemma frames_written_app (a b : list event) :
  frames_written (a ++ b) = frames_written a ++ frames_written b.
Proof. unfold frames_written. apply flat_map_app. Qed.

Lemma callbacks_app (a b : list event) :
  callbacks (a ++ b) = callbacks a ++ callbacks b.
Proof. unfold callbacks. apply flat_map_app. Qed.

Section ClientFacts.

Variable L : libm.
Variable E : environment.

(** *** The three ways [start] ends on a client that is not running *)

Lemma start_running_noop (api_key lang : string) (w : world) :
  running_ (self w) = true ->
  start E api_key lang w = Returned true w.
Proof.
  intros H. destruct_world w. subst. unfold start. unfold_monad. reflexivity.
Qed.

Lemma start_no_stream (api_key lang : string) (w : world) :
  running_ (self w) = false ->
  stream_created E (streams_opened w) = false ->
  start E api_key lang w =
    Returned false
      {| self := opening E api_key lang None w;
         clock_reads := S (clock_reads w);
         streams_opened := S (streams_opened w);
         writes_issued := writes_issued w;
         inbox := inbox w;
         reader_live := reader_live w;
         trace := (trace w ++ released w) ++ [NetOpen api_key false] |}.
Proof.
  intros Hr Hs. unfold start, impl_make, StreamingRecognize, now_ms, released, opening.
  destruct_world w. subst. unfold_monad.
  destruct impl_0; unfold_monad; rewrite Hs; rewrite ?app_nil_r; reflexivity.
Qed.

Lemma start_config_refused (api_key lang : string) (w : world) :
  running_ (self w) = false ->
  stream_created E (streams_opened w) = true ->
  write_ok E (writes_issued w) = false ->
  start E api_key lang w =
    Returned false
      {| self := set_impl_ None (opening E api_key lang None w);
         clock_reads := (match gf_ (self w) with Some _ => 2 | None => 1 end + clock_reads w)%nat;
         streams_opened := S (streams_opened w);
         writes_issued := S (writes_issued w);
         inbox := responses_of E (streams_opened w);
         reader_live := reader_live w;
         trace := ((((trace w ++ released w) ++ [NetOpen api_key true])
                      ++ [NetWrite (cfgReq lang) false])
                     ++ config_diagnostic E w) ++ [ImplReleased] |}.
Proof.
  intros Hr Hs Hw.
  unfold start, impl_make, impl_reset, StreamingRecognize, Write, now_ms,
    set_text_callback, released, opening, config_diagnostic, config_error.
  destruct_world w. subst. unfold_monad.
  destruct impl_0, gf_0; unfold_monad; rewrite Hs; unfold_monad; rewrite Hw;
    unfold_monad; rewrite ?app_nil_r; reflexivity.
Qed.

Lemma start_streaming (api_key lang : string) (w : world) :
  running_ (self w) = false ->
  stream_created E (streams_opened w) = true ->
  write_ok E (writes_issued w) = true ->
  reader_ (self w) = false ->
  start E api_key lang w =
    Returned true
      {| self := set_reader_ true (set_running_ true
                   (opening E api_key lang (Some (streams_opened w)) w));
         clock_reads := S (clock_reads w);
         streams_opened := S (streams_opened w);
         writes_issued := S (writes_issued w);
         inbox := responses_of E (streams_opened w);
         reader_live := true;
         trace := (((trace w ++ released w) ++ [NetOpen api_key true])
                     ++ [NetWrite (cfgReq lang) true]) ++ [ReaderSpawned] |}.
Proof.
  intros Hr Hs Hw Hj.
  unfold start, impl_make, spawn_reader, StreamingRecognize, Write, now_ms,
    released, opening.
  destruct_world w. subst. unfold_monad.
  destruct impl_0; unfold_monad; rewrite Hs; unfold_monad; rewrite Hw;
    unfold_monad; rewrite ?app_nil_r; reflexivity.
Qed.

(** *** The result consumer *)

Lemma append_assoc (a b c : string) : ((a ++ b) ++ c = a ++ (b ++ c))%string.
Proof. induction a as [|x a IH]; cbn; [reflexivity | now rewrite IH]. Qed.

Lemma append_empty_r (a : string) : (a ++ EmptyString = a)%string.
Proof. induction a as [|x a IH]; cbn; [reflexivity | now rewrite IH]. Qed.

Lemma scan_results_spec (rs : list StreamingRecognitionResult) (t : string) (f : bool) :
  fold_left scan_result rs (t, f) =
    ((t ++ response_text_of rs)%string, f || existsb is_final rs).
Proof.
  unfold response_text_of.
  revert t f. induction rs as [|r rs IH]; intros t f.
  - cbn. now rewrite append_empty_r, orb_false_r.
  - cbn [fold_left map fold_right existsb]. unfold scan_result at 2.
    cbn [fst snd]. rewrite IH. unfold top_transcript.
    destruct (alternatives r) as [|a alts], (is_final r), f; cbn;
      rewrite ?append_assoc; reflexivity.
Qed.

Lemma result_language_fallback (g : transcription_filter_data) :
  result_language g = fallback_language g.
Proof.
  unfold result_language, fallback_language.
  destruct (cloud_transcription_language g); cbn; [|reflexivity].
  destruct (whisper_params_language g) as [[|c l]|]; cbn; reflexivity.
Qed.

Lemma on_response_spec (resp : StreamingRecognizeResponse) (w : world) :
  on_response E resp w =
    match gf_ (self w) with
    | Some g =>
        if is_empty (response_text resp) then Returned tt w
        else
          let t := now_ms_at E (clock_reads w) mod uint64_max in
          Returned tt
            (set_trace (trace w ++ [HostCallback t (delivery g t resp)])
               (set_clock_reads (S (clock_reads w)) w))
    | None => Returned tt w
    end.
Proof.
  unfold on_response, response_text, delivery, response_final.
  rewrite scan_results_spec. cbn [append orb].
  destruct_world w. unfold now_ms, set_text_callback.
  destruct gf_0 as [g|]; destruct (is_empty (response_text_of (results resp)));
    unfold_monad; rewrite ?result_language_fallback; reflexivity.
Qed.

Lemma read_loop_spec (resps : list StreamingRecognizeResponse) (w : world) :
  running_ (self w) = true ->
  read_loop E resps w = Returned tt (after_reading E resps w).
Proof.
  revert w. induction resps as [|r rest IH]; intros w Hr.
  - cbn. unfold bind, get, after_reading. rewrite Hr. cbn.
    rewrite Nat.add_0_r, app_nil_r. destruct w; reflexivity.
  - cbn [read_loop]. unfold bind at 1. unfold get at 1. rewrite Hr. cbn [negb].
    unfold bind at 1. unfold bind at 1. rewrite on_response_spec.
    unfold after_reading. cbn [deliveries].
    assert (Hin : forall w0 : world, inbox w0 = rest ->
              match rest with [] => inbox w0 | _ :: _ => [] end = []).
    { intros w0 H0. destruct rest; [exact H0 | reflexivity]. }
    destruct (gf_ (self w)) as [g|] eqn:Hg.
    + replace (gf_ (self (set_inbox rest w))) with (Some g)
        by (destruct w; symmetry; exact Hg).
      destruct (is_empty (response_text r)) eqn:Ht.
      * rewrite IH by (destruct w; exact Hr). unfold after_reading.
        rewrite Hin by (destruct w; reflexivity).
        destruct w; cbn in *. rewrite Hg. reflexivity.
      * cbv zeta. rewrite IH by (destruct w; exact Hr). unfold after_reading.
        rewrite Hin by (destruct w; reflexivity).
        destruct w; cbn in *. rewrite Hg. cbn.
        rewrite <- app_assoc, Nat.add_succ_r. reflexivity.
    + replace (gf_ (self (set_inbox rest w))) with (@None transcription_filter_data)
        by (destruct w; symmetry; exact Hg).
      rewrite IH by (destruct w; exact Hr). unfold after_reading.
      rewrite Hin by (destruct w; reflexivity).
      destruct w; cbn in *. rewrite Hg. reflexivity.
Qed.

(** *** The queue *)

Lemma frames_of_short (q : list float32) :
  (List.length q < CHUNK)%nat -> frames_of L q = [].
Proof.
  intros H. unfold frames_of. rewrite Nat.div_small by exact H. reflexivity.
Qed.

Lemma div_chunk_step (n : nat) :
  (CHUNK <= n)%nat -> (n / CHUNK = S ((n - CHUNK) / CHUNK))%nat.
Proof.
  intros H. replace n with ((n - CHUNK) + 1 * CHUNK)%nat at 1 by lia.
  rewrite Nat.div_add by (unfold CHUNK; lia). lia.
Qed.

Lemma frames_of_step (q : list float32) :
  (CHUNK <= List.length q)%nat ->
  frames_of L q = map (f32_to_s16 L) (firstn CHUNK q) :: frames_of L (skipn CHUNK q).
Proof.
  intros H. unfold frames_of. rewrite length_skipn.
  rewrite (div_chunk_step _ H). cbn [seq map]. f_equal.
  rewrite <- seq_shift, map_map. apply map_ext. intros i.
  unfold frame_at. rewrite skipn_skipn. do 3 f_equal. lia.
Qed.

Lemma remainder_of_short (q : list float32) :
  (List.length q < CHUNK)%nat -> remainder_of q = q.
Proof.
  intros H. unfold remainder_of. rewrite Nat.div_small by exact H. reflexivity.
Qed.

Lemma remainder_of_step (q : list float32) :
  (CHUNK <= List.length q)%nat -> remainder_of q = remainder_of (skipn CHUNK q).
Proof.
  intros H. unfold remainder_of. rewrite length_skipn, skipn_skipn.
  rewrite (div_chunk_step _ H). f_equal. lia.
Qed.

Lemma bump_succ (k : nat) (c : Z) :
  bump (S k) c = bump k ((c + Z.of_nat CHUNK) mod uint64_max).
Proof. unfold bump. rewrite Nat.iter_succ_r. reflexivity. Qed.

Lemma drain_loop_spec (fuel : nat) (sending : list (list Z)) (w : world) :
  (List.length (pending_ (self w)) / CHUNK <= fuel)%nat ->
  drain_loop L fuel sending w =
    Returned (sending ++ frames_of L (pending_ (self w))) (drained w).
Proof.
  revert sending w. induction fuel as [|fuel IH]; intros sending w Hf.
  - assert (Hs : (List.length (pending_ (self w)) < CHUNK)%nat).
    { apply Nat.div_small_iff; [unfold CHUNK; lia | lia]. }
    cbn [drain_loop]. unfold ret, drained.
    rewrite frames_of_short, remainder_of_short by exact Hs.
    rewrite Nat.div_small by exact Hs. rewrite app_nil_r.
    destruct_world w. reflexivity.
  - cbn [drain_loop]. unfold bind at 1. unfold get at 1.
    destruct (Nat.leb_spec CHUNK (List.length (pending_ (self w)))) as [Hc|Hc].
    + unfold bind at 1. unfold modify at 1. unfold bind at 1. unfold get at 1.
      unfold bind at 1. unfold modify at 1.
      rewrite IH.
      * rewrite <- app_assoc. cbn [app].
        rewrite (frames_of_step _ Hc). f_equal.
        clear IH. unfold drained. destruct_world w. exec_records.
        rewrite (remainder_of_step _ Hc), length_skipn, (div_chunk_step _ Hc), bump_succ.
        reflexivity.
      * clear IH. destruct_world w. exec_records. rewrite length_skipn.
        rewrite (div_chunk_step _ Hc) in Hf. lia.
    + unfold ret, drained.
      rewrite frames_of_short, remainder_of_short by exact Hc.
      rewrite Nat.div_small by exact Hc. rewrite app_nil_r.
      destruct_world w. reflexivity.
Qed.

Lemma length_remainder_of (q : list float32) :
  List.length (remainder_of q) = (List.length q mod CHUNK)%nat.
Proof.
  unfold remainder_of. rewrite length_skipn.
  pose proof (Nat.div_mod_eq (List.length q) CHUNK). lia.
Qed.

Lemma length_frames_of (q : list float32) :
  List.length (frames_of L q) = (List.length q / CHUNK)%nat.
Proof. unfold frames_of. now rewrite length_map, length_seq. Qed.

(** *** The writes *)

Lemma send_chunks_spec (sending : list (list Z)) (w : world) :
  send_chunks E sending w = Returned tt (after_sending E sending w).
Proof.
  revert w. induction sending as [|c rest IH]; intros w.
  - reflexivity.
  - cbn [send_chunks]. unfold bind at 1. unfold get at 1.
    unfold after_sending. cbn [List.length first_refusal].
    destruct (stream_of (self w)) as [k|] eqn:Hk; [|reflexivity].
    unfold bind at 1. unfold Write at 1.
    destruct (write_ok E (writes_issued w)) eqn:Hw; cbn [negb].
    + rewrite IH. clear IH. unfold after_sending.
      destruct rest as [|c' rest'].
      * cbn [List.length first_refusal option_map map].
        destruct_world w. exec_records. rewrite Nat.add_1_r. reflexivity.
      * replace (stream_of (self (set_trace _ _))) with (Some k)
          by (destruct_world w; symmetry; exact Hk).
        set (n := List.length (c' :: rest')).
        replace (writes_issued (set_trace _ _)) with (S (writes_issued w))
          by (destruct_world w; reflexivity).
        destruct (first_refusal E (S (writes_issued w)) n) as [j|]; cbn [option_map].
        -- destruct_world w. exec_records. cbn [firstn map nth app].
           rewrite <- !app_assoc. cbn [app]. do 2 f_equal. lia.
        -- destruct_world w. exec_records. cbn [map].
           rewrite <- !app_assoc. cbn [app]. do 2 f_equal. lia.
    + destruct_world w. exec_records. cbn [firstn map nth app].
      rewrite Nat.add_1_r. reflexivity.
Qed.

(** *** [pushFloat16k] *)

Lemma push_idle (me : thread_id) (data : option (list float32)) (n : nat) (w : world) :
  running_ (self w) = false \/ data = None \/ n = 0%nat ->
  pushFloat16k L E me data n w = Returned tt w.
Proof.
  intros H. unfold pushFloat16k, bind, get, ret.
  destruct data as [d|]; [|reflexivity].
  destruct H as [H | [H | H]].
  - rewrite H. reflexivity.
  - discriminate.
  - subst n. rewrite orb_true_r. reflexivity.
Qed.

Lemma shouldRotate_running (w : world) :
  running_ (self w) = true ->
  shouldRotate E w = Returned (rotation_due E w) (set_clock_reads (S (clock_reads w)) w).
Proof.
  intros H. unfold shouldRotate, rotation_due, now_ms.
  destruct_world w. subst. reflexivity.
Qed.

Lemma requestRotate_spec (me : thread_id) (w : world) :
  requestRotate me w =
    Returned tt (if rotating_ (self w) then w else gate_taken me w).
Proof.
  unfold requestRotate, compare_exchange_rotating, respawn_rotator, gate_taken.
  destruct_world w. destruct rotating_0; [reflexivity|].
  destruct rotator_0, me; cbn [is_rotator]; exec_records; cbn [app];
    rewrite <- ?app_assoc; reflexivity.
Qed.

(** A push that finds the gate closed, or closes it: the samples go
    nowhere. *)
Lemma push_rotating (me : thread_id) (d : list float32) (n : nat) (w : world) :
  running_ (self w) = true -> n <> 0%nat ->
  rotating_ (self w) = true \/ rotation_due E w = true ->
  pushFloat16k L E me (Some d) n w =
    Returned tt
      (let w1 := set_clock_reads (S (clock_reads w)) w in
       if rotation_due E w && negb (rotating_ (self w)) then gate_taken me w1 else w1).
Proof.
  intros Hr Hn H. unfold pushFloat16k.
  unfold bind at 1. unfold get at 1. rewrite Hr.
  destruct n as [|n]; [congruence|]. cbn [negb orb Nat.eqb].
  unfold bind at 1. rewrite (shouldRotate_running _ Hr).
  destruct (rotation_due E w) eqn:Hd.
  - unfold bind at 1. rewrite requestRotate_spec.
    destruct (rotating_ (self w)) eqn:Hg; destruct_world w; subst; reflexivity.
  - destruct H as [H|H]; [|discriminate].
    rewrite H. destruct_world w; subst; reflexivity.
Qed.

Lemma push_steady (me : thread_id) (d : list float32) (n : nat) (w : world) :
  running_ (self w) = true -> n <> 0%nat ->
  rotating_ (self w) = false -> rotation_due E w = false ->
  pushFloat16k L E me (Some d) n w =
    Returned tt
      (after_sending E
         (frames_of L (pending_ (self w) ++ firstn n d))
         (drained (queued (firstn n d) w))).
Proof.
  intros Hr Hn Hg Hd. unfold pushFloat16k.
  unfold bind at 1. unfold get at 1. rewrite Hr.
  destruct n as [|n]; [congruence|]. cbn [negb orb Nat.eqb].
  unfold bind at 1. rewrite (shouldRotate_running _ Hr), Hd.
  unfold bind at 1. unfold ret at 1.
  unfold bind at 1. unfold get at 1.
  replace (rotating_ (self (set_clock_reads _ w))) with false
    by (destruct_world w; symmetry; exact Hg).
  unfold bind at 1. unfold get at 1.
  unfold bind at 1. unfold modify at 1.
  unfold bind at 1. unfold get at 1.
  unfold bind at 1.
  rewrite drain_loop_spec.
  - cbn [app]. rewrite send_chunks_spec.
    unfold queued. destruct_world w. reflexivity.
  - apply Nat.Div0.div_le_upper_bound.
    set (len := List.length _).
    unfold CHUNK. nia.
Qed.

(** *** Chunking does not depend on how the samples arrive *)

Lemma frames_remainder_app (n : nat) (a b : list float32) :
  (List.length a <= n)%nat ->
  frames_of L (a ++ b) = frames_of L a ++ frames_of L (remainder_of a ++ b) /\
  remainder_of (a ++ b) = remainder_of (remainder_of a ++ b) /\
  List.concat (frames_of L a) ++ map (f32_to_s16 L) (remainder_of a) = map (f32_to_s16 L) a.
Proof.
  revert a. induction n as [|n IH]; intros a Hn.
  - destruct a; [|cbn in Hn; lia].
    rewrite (frames_of_short []), (remainder_of_short [])
      by (cbn [List.length]; unfold CHUNK; lia).
    repeat split; reflexivity.
  - destruct (Nat.lt_ge_cases (List.length a) CHUNK) as [Hs|Hc].
    + rewrite (frames_of_short a), (remainder_of_short a) by exact Hs.
      repeat split; reflexivity.
    + assert (Hab : (CHUNK <= List.length (a ++ b))%nat)
        by (rewrite length_app; lia).
      assert (Hlen : (List.length (skipn CHUNK a) <= n)%nat)
        by (rewrite length_skipn; unfold CHUNK in *; lia).
      destruct (IH (skipn CHUNK a) Hlen) as (IH1 & IH2 & IH3).
      assert (Hf : firstn CHUNK (a ++ b) = firstn CHUNK a).
      { rewrite firstn_app. replace (CHUNK - List.length a)%nat with 0%nat by lia.
        cbn [firstn]. now rewrite app_nil_r. }
      assert (Hk : skipn CHUNK (a ++ b) = skipn CHUNK a ++ b).
      { rewrite skipn_app. replace (CHUNK - List.length a)%nat with 0%nat by lia.
        reflexivity. }
      rewrite (frames_of_step _ Hab), (frames_of_step _ Hc).
      rewrite (remainder_of_step _ Hab), (remainder_of_step _ Hc).
      rewrite Hf, Hk, IH1, <- IH2. repeat split; try reflexivity.
      cbn [List.concat]. rewrite <- app_assoc, IH3, <- map_app, firstn_skipn.
      reflexivity.
Qed.

Lemma frames_of_app (a b : list float32) :
  frames_of L (a ++ b) = frames_of L a ++ frames_of L (remainder_of a ++ b).
Proof. apply (frames_remainder_app (List.length a)). lia. Qed.

Lemma remainder_of_app (a b : list float32) :
  remainder_of (a ++ b) = remainder_of (remainder_of a ++ b).
Proof. apply (frames_remainder_app (List.length a) a b). lia. Qed.

Lemma frames_in_order (a : list float32) :
  List.concat (frames_of L a) ++ map (f32_to_s16 L) (remainder_of a) = map (f32_to_s16 L) a.
Proof. apply (frames_remainder_app (List.length a) a []). lia. Qed.

Lemma frames_full (a : list float32) :
  Forall (fun f => List.length f = CHUNK) (frames_of L a).
Proof.
  unfold frames_of. apply Forall_forall. intros f Hin.
  apply in_map_iff in Hin. destruct Hin as (i & <- & Hi).
  apply in_seq in Hi. unfold frame_at.
  rewrite length_map, length_firstn, length_skipn.
  pose proof (Nat.div_mod_eq (List.length a) CHUNK) as Hd.
  assert (S i * CHUNK <= List.length a / CHUNK * CHUNK)%nat
    by (apply Nat.mul_le_mono_r; lia).
  lia.
Qed.

Lemma bump_closed (k : nat) (c : Z) :
  0 <= c < uint64_max ->
  bump k c = (c + Z.of_nat (k * CHUNK)) mod uint64_max.
Proof.
  intros Hc. revert c Hc. induction k as [|k IH]; intros c Hc.
  - cbn. rewrite Z.add_0_r, Z.mod_small; [reflexivity | exact Hc].
  - rewrite bump_succ, IH by (apply Z.mod_pos_bound; reflexivity).
    rewrite Zplus_mod_idemp_l. f_equal. lia.
Qed.

Lemma bump_add (j k : nat) (c : Z) : bump (j + k) c = bump k (bump j c).
Proof.
  unfold bump. rewrite Nat.add_comm. apply Nat.iter_add.
Qed.

Lemma bump_range (k : nat) (c : Z) :
  0 <= c < uint64_max -> 0 <= bump k c < uint64_max.
Proof.
  intros Hc. destruct k as [|k]; [exact Hc|].
  unfold bump. cbn [Nat.iter nat_rect]. apply Z.mod_pos_bound. reflexivity.
Qed.

Lemma first_refusal_none (from count : nat) :
  (forall i, (from <= i)%nat -> write_ok E i = true) ->
  first_refusal E from count = None.
Proof.
  revert from. induction count as [|c IH]; intros from H; [reflexivity|].
  cbn. rewrite H by lia. rewrite IH; [reflexivity|].
  intros i Hi. apply H. lia.
Qed.

(** *** A session in good health *)

Lemma push_steady_state (me : thread_id) (d : list float32) (w : world) :
  steady E w ->
  pushFloat16k L E me (Some d) (List.length d) w = Returned tt (pushed L d w).
Proof.
  intros (Hr & Hg & Hs & Hp & Hw & Hc).
  destruct d as [|x d].
  - rewrite push_idle by auto. f_equal. unfold pushed.
    rewrite app_nil_r, frames_of_short, remainder_of_short by exact Hp.
    rewrite Nat.div_small by exact Hp. cbn [map bump Nat.iter nat_rect].
    rewrite app_nil_r, Nat.add_0_r. destruct_world w. reflexivity.
  - rewrite push_steady; try assumption; try discriminate.
    + rewrite firstn_all. f_equal. unfold after_sending.
      set (q := pending_ (self w) ++ x :: d).
      replace (stream_of (self (drained (queued (x :: d) w)))) with (stream_of (self w))
        by (destruct_world w; reflexivity).
      replace (writes_issued (drained (queued (x :: d) w))) with (writes_issued w)
        by (destruct_world w; reflexivity).
      rewrite first_refusal_none by exact Hw.
      rewrite length_frames_of.
      destruct (stream_of (self w)) as [k|]; [|congruence].
      unfold pushed. fold q.
      destruct (frames_of L q) eqn:Hfr.
      * assert (Hz : (List.length q / CHUNK = 0)%nat)
          by (rewrite <- length_frames_of, Hfr; reflexivity).
        rewrite Hz. cbn [map]. rewrite app_nil_r, Nat.add_0_r.
        unfold drained, queued. subst q. destruct_world w. exec_records.
        rewrite Hz. reflexivity.
      * rewrite <- Hfr. unfold drained, queued. subst q.
        destruct_world w. reflexivity.
    + unfold rotation_due. apply Z.ltb_ge. apply Hc. lia.
Qed.

Lemma pushed_steady (d : list float32) (w : world) :
  steady E w -> steady E (pushed L d w).
Proof.
  intros (Hr & Hg & Hs & Hp & Hw & Hc). unfold steady, pushed.
  destruct_world w. exec_records. repeat split; try assumption.
  - rewrite length_remainder_of. apply Nat.mod_upper_bound. discriminate.
  - intros i Hi. apply Hw. lia.
  - intros i Hi. apply Hc. destruct d; lia.
Qed.

Lemma push_all_steady (pushes : list (list float32)) (w : world) :
  steady E w ->
  let q := pending_ (self w) ++ List.concat pushes in
  let w' := push_all L E pushes w in
  steady E w' /\
  pending_ (self w') = remainder_of q /\
  sent_samples_ (self w') = bump (List.length q / CHUNK) (sent_samples_ (self w)) /\
  trace w' = trace w ++ map (audio_write true) (frames_of L q).
Proof.
  revert w. induction pushes as [|d rest IH]; intros w Hst; cbv zeta.
  - destruct Hst as (Hr & Hg & Hs & Hp & Hw & Hc).
    cbn [push_all List.concat]. rewrite app_nil_r.
    rewrite frames_of_short, remainder_of_short, Nat.div_small by exact Hp.
    cbn [map bump Nat.iter nat_rect]. rewrite app_nil_r.
    unfold steady. repeat split; assumption.
  - cbn [push_all List.concat]. rewrite push_steady_state by exact Hst.
    cbn [world_of].
    destruct (IH (pushed L d w) (pushed_steady d w Hst)) as (H1 & H2 & H3 & H4).
    split; [exact H1|].
    assert (Hp1 : pending_ (self (pushed L d w)) = remainder_of (pending_ (self w) ++ d))
      by (destruct_world w; reflexivity).
    assert (Hs1 : sent_samples_ (self (pushed L d w))
                  = bump (List.length (pending_ (self w) ++ d) / CHUNK)
                      (sent_samples_ (self w)))
      by (destruct_world w; reflexivity).
    assert (Ht1 : trace (pushed L d w)
                  = trace w ++ map (audio_write true) (frames_of L (pending_ (self w) ++ d)))
      by (destruct_world w; reflexivity).
    rewrite Hp1 in *. rewrite Hs1 in H3. rewrite Ht1 in H4. clear Hp1 Hs1 Ht1.
    rewrite app_assoc.
    set (a := pending_ (self w) ++ d) in *.
    repeat split.
    + rewrite H2. symmetry. apply remainder_of_app.
    + rewrite H3, <- bump_add. f_equal.
      rewrite <- !length_frames_of, (frames_of_app a), length_app. reflexivity.
    + rewrite H4, <- app_assoc, <- map_app, <- frames_of_app. reflexivity.
Qed.

(** *** Frames in a trace *)

Lemma frames_written_audio (b : bool) (fs : list (list Z)) :
  frames_written (map (audio_write b) fs) = fs.
Proof.
  induction fs as [|f fs IH]; [reflexivity|].
  cbn. unfold frames_written in IH. now rewrite IH.
Qed.

Lemma callbacks_audio (b : bool) (fs : list (list Z)) :
  callbacks (map (audio_write b) fs) = [].
Proof. induction fs as [|f fs IH]; [reflexivity | exact IH]. Qed.

Lemma first_refusal_some (from count j : nat) :
  first_refusal E from count = Some j ->
  (j < count)%nat /\ write_ok E (from + j) = false /\
  forall i, (i < j)%nat -> write_ok E (from + i) = true.
Proof.
  revert from j. induction count as [|c IH]; intros from j H; [discriminate|].
  cbn in H. destruct (write_ok E from) eqn:Hw.
  - destruct (first_refusal E (S from) c) as [j'|] eqn:Hj; [|discriminate].
    injection H as <-. destruct (IH _ _ Hj) as (H1 & H2 & H3).
    repeat split; [lia | now rewrite Nat.add_succ_r |].
    intros [|i] Hi; [now rewrite Nat.add_0_r|].
    rewrite Nat.add_succ_r. apply H3. lia.
  - injection H as <-. repeat split; [lia | now rewrite Nat.add_0_r | lia].
Qed.

Lemma firstn_snoc_nth {A : Type} (j : nat) (l : list A) (d : A) :
  (j < List.length l)%nat -> firstn j l ++ [nth j l d] = firstn (S j) l.
Proof.
  revert l. induction j as [|j IH]; intros [|x l] H; cbn in *; try lia.
  - reflexivity.
  - rewrite IH by lia. reflexivity.
Qed.

(** The frames the loop of line 179 hands to [Write]. *)
Lemma after_sending_frames (sending : list (list Z)) (w : world) :
  let w' := after_sending E sending w in
  pending_ (self w') = pending_ (self w) /\
  sent_samples_ (self w') = sent_samples_ (self w) /\
  callbacks (events_since w w') = [] /\
  frames_written (events_since w w') =
    match stream_of (self w), first_refusal E (writes_issued w) (List.length sending) with
    | None, _ => []
    | Some _, None => sending
    | Some _, Some j => firstn (S j) sending
    end /\
  (writes_issued w' =
    match stream_of (self w), first_refusal E (writes_issued w) (List.length sending) with
    | None, _ => writes_issued w
    | Some _, None => writes_issued w + List.length sending
    | Some _, Some j => writes_issued w + S j
    end)%nat /\
  running_ (self w') =
    match stream_of (self w), first_refusal E (writes_issued w) (List.length sending) with
    | Some _, None => running_ (self w)
    | Some _, Some _ => false
    | None, _ => match sending with [] => running_ (self w) | _ :: _ => false end
    end.
Proof.
  cbv zeta. unfold after_sending.
  destruct sending as [|c rest].
  - rewrite events_since_same. cbn [List.length first_refusal firstn].
    destruct (stream_of (self w)); repeat split; try reflexivity; lia.
  - destruct (stream_of (self w)) as [k|] eqn:Hk.
    + destruct (first_refusal E (writes_issued w) (List.length (c :: rest))) as [j|] eqn:Hj.
      * apply first_refusal_some in Hj. destruct Hj as (Hlt & _).
        rewrite (events_since_app w _
                   (map (audio_write true) (firstn j (c :: rest))
                      ++ [audio_write false (nth j (c :: rest) [])]))
          by (destruct_world w; reflexivity).
        rewrite callbacks_app, frames_written_app, callbacks_audio, frames_written_audio.
        cbn [callbacks frames_written flat_map audio_write audio_of callback_of app].
        rewrite (firstn_snoc_nth j (c :: rest) [] Hlt).
        destruct_world w. repeat split; reflexivity.
      * rewrite (events_since_app w _ (map (audio_write true) (c :: rest)))
          by (destruct_world w; reflexivity).
        rewrite callbacks_audio, frames_written_audio.
        destruct_world w. repeat split; reflexivity.
    + rewrite (events_since_app w _ []) by (destruct_world w; now rewrite app_nil_r).
      destruct_world w. repeat split; reflexivity.
Qed.

End ClientFacts.

(** ** Who sets [running_]

    Only line 99, in [start], sets the flag; the other member functions
    leave a client that is not running as it is in this respect. *)

Lemma stays_down_ret {A : Type} (a : A) : stays_down (ret a).
Proof. intros w H. exact H. Qed.

Lemma stays_down_bind {A B : Type} (c : M A) (k : A -> M B) :
  stays_down c -> (forall a, stays_down (k a)) -> stays_down (bind c k).
Proof.
  intros Hc Hk w H. unfold bind. specialize (Hc w H).
  destruct (c w) as [a w1|w1]; cbn [world_of] in *.
  - apply Hk. exact Hc.
  - exact Hc.
Qed.

Lemma stays_down_get {A : Type} (f : GoogleSttStreamer -> A) : stays_down (get f).
Proof. intros w H. exact H. Qed.

Lemma stays_down_emit (e : event) : stays_down (emit e).
Proof. intros w H. exact H. Qed.

Lemma stays_down_modify (f : GoogleSttStreamer -> GoogleSttStreamer) :
  (forall s, running_ s = false -> running_ (f s) = false) -> stays_down (modify f).
Proof. intros Hf w H. cbn. apply Hf, H. Qed.

Lemma stays_down_world {A : Type} (a : A) (f : world -> world) :
  (forall w, self (f w) = self w) -> stays_down (fun w => Returned a (f w)).
Proof. intros Hf w H. cbn. now rewrite Hf. Qed.

Ltac stays_down_step :=
  match goal with
  | |- stays_down (bind _ _) => apply stays_down_bind; [|intros ?]
  | |- stays_down (modify _) =>
      apply stays_down_modify; intros []; cbn; solve [auto]
  | |- stays_down (ret _) => apply stays_down_ret
  | |- stays_down (get _) => apply stays_down_get
  | |- stays_down (emit _) => apply stays_down_emit
  | |- stays_down (if ?b then _ else _) => destruct b
  | |- stays_down (match ?x with _ => _ end) => destruct x
  | |- stays_down (fun w => Returned _ _) =>
      apply stays_down_world; intros []; reflexivity
  end.

Section Recovery.

Variable L : libm.
Variable E : environment.

Lemma stays_down_now_ms : stays_down (now_ms E).
Proof. intros [] H. exact H. Qed.

Lemma stays_down_on_response (resp : StreamingRecognizeResponse) :
  stays_down (on_response E resp).
Proof.
  unfold on_response, set_text_callback.
  destruct (fold_left scan_result (results resp) (EmptyString, false)).
  repeat first [ apply stays_down_now_ms | stays_down_step ].
Qed.

Lemma stays_down_read_loop (resps : list StreamingRecognizeResponse) :
  stays_down (read_loop E resps).
Proof.
  induction resps as [|r rest IH]; cbn [read_loop].
  - repeat stays_down_step.
  - apply stays_down_bind; [apply stays_down_get|]. intros running.
    destruct (negb running); [apply stays_down_ret|].
    apply stays_down_bind; [apply stays_down_world; intros []; reflexivity|].
    intros _. apply stays_down_bind; [apply stays_down_on_response|].
    intros _. exact IH.
Qed.

Lemma stays_down_resultsThread : stays_down (resultsThread E).
Proof.
  unfold resultsThread. apply stays_down_bind; [apply stays_down_get|].
  intros [k|]; [|apply stays_down_ret].
  apply stays_down_bind.
  { intros w. apply stays_down_read_loop. }
  intros _. unfold Finish, set_text_callback.
  repeat first [ apply stays_down_now_ms | stays_down_step ].
Qed.

Lemma stays_down_join_reader : stays_down (join_reader E).
Proof.
  unfold join_reader. apply stays_down_bind.
  - intros w H. destruct (reader_live w); [|exact H].
    apply stays_down_resultsThread. destruct w; exact H.
  - intros _. repeat stays_down_step.
Qed.

Lemma stays_down_stop : stays_down (stop E).
Proof.
  unfold stop, impl_reset.
  repeat first [ apply stays_down_join_reader | stays_down_step ].
Qed.

Lemma stays_down_requestRotate (me : thread_id) : stays_down (requestRotate me).
Proof.
  intros w H. rewrite requestRotate_spec. cbn [world_of].
  destruct (rotating_ (self w)); [exact H|]. destruct w; exact H.
Qed.

(** A client that is not running stays so under every member function
    but [start], and through it [doRotate]. *)
Lemma only_start_recovers (w : world) :
  running_ (self w) = false ->
  running_ (self (world_of (stop E w))) = false /\
  running_ (self (world_of (resultsThread E w))) = false /\
  (forall me, running_ (self (world_of (requestRotate me w))) = false) /\
  (forall me data n, pushFloat16k L E me data n w = Returned tt w).
Proof.
  intros H. split; [apply stays_down_stop, H|].
  split; [apply stays_down_resultsThread, H|].
  split; [intros me; apply stays_down_requestRotate, H|].
  intros me data n. apply push_idle. auto.
Qed.

End Recovery.

(** The results of [deliveries], one by one. *)
Lemma deliveries_sound (E : environment) (gf : option transcription_filter_data)
    (clock : nat) (resps : list StreamingRecognizeResponse) :
  Forall (fun d =>
            exists g resp,
              gf = Some g /\ In resp resps /\
              text (snd d) = response_text resp /\
              is_empty (response_text resp) = false /\
              result (snd d) = (if response_final resp then DETECTION_RESULT_SPEECH
                                else DETECTION_RESULT_PARTIAL) /\
              language (snd d) = fallback_language g /\
              start_timestamp_ms (snd d) = 0 /\
              end_timestamp_ms (snd d) = fst d)
         (deliveries E gf clock resps).
Proof.
  revert clock. induction resps as [|r rest IH]; intros clock; cbn [deliveries].
  - constructor.
  - assert (Hrest : forall c,
              Forall (fun d =>
                exists g resp,
                  gf = Some g /\ In resp (r :: rest) /\
                  text (snd d) = response_text resp /\
                  is_empty (response_text resp) = false /\
                  result (snd d) = (if response_final resp then DETECTION_RESULT_SPEECH
                                    else DETECTION_RESULT_PARTIAL) /\
                  language (snd d) = fallback_language g /\
                  start_timestamp_ms (snd d) = 0 /\
                  end_timestamp_ms (snd d) = fst d)
                (deliveries E gf c rest)).
    { intros c. eapply Forall_impl; [|apply (IH c)].
      intros d (g & resp & H1 & H2 & H3). exists g, resp.
      split; [exact H1|]. split; [right; exact H2 | exact H3]. }
    destruct gf as [g|]; [|apply Hrest].
    destruct (is_empty (response_text r)) eqn:Ht; [apply Hrest|].
    cbv zeta. constructor; [|apply Hrest].
    exists g, r. cbn. repeat split; auto.
Qed.

(** ** The operations at work *)

(** A scripted stream: the reader delivers the partial result and then the
    final one, in this order, each stamped with the clock reading taken
    for it, and leaves the client not running once the stream has ended. *)
Example scripted_stream_is_delivered :
  let w0 := world_of (start env_scripted "key" "en" (world_new (Some host_en))) in
  let w1 := world_of (resultsThread env_scripted w0) in
  callbacks (events_since w0 w1)
  = [ {| result := DETECTION_RESULT_PARTIAL; text := "hel";
         start_timestamp_ms := 0; end_timestamp_ms := 1001; language := "uk" |};
      {| result := DETECTION_RESULT_SPEECH; text := "hello";
         start_timestamp_ms := 0; end_timestamp_ms := 1002; language := "uk" |} ]
  /\ running_ (self w0) = true /\ running_ (self w1) = false.
Proof. vm_compute. repeat split; reflexivity. Qed.

(** A rotation of a running client: the old session is closed and its
    reader joined, a new stream is opened and configured, a new reader is
    started, and the flag is cleared. *)
Example rotation_replaces_the_session :
  let o := doRotate env_quiet world_rotating in
  value_of o = Some tt /\
  events_since world_rotating (world_of o)
  = [NetWritesDone; NetTryCancel; NetFinish status_ok; ReaderJoined; ImplReleased;
     NetOpen "key" true; NetWrite (cfgReq "en") true; ReaderSpawned] /\
  running_ (self (world_of o)) = true /\
  rotating_ (self (world_of o)) = false /\
  stream_of (self (world_of o)) = Some 1%nat.
Proof. vm_compute. repeat split; reflexivity. Qed.

(** [start] again after the stream has ended by itself and before any
    [stop]: the reader thread of the ended session is still joinable, and
    the assignment of line 100 ends the process. *)
Example restart_without_stop_terminates :
  let w0 := world_of (start env_scripted "key" "en" (world_new (Some host_en))) in
  let w1 := world_of (resultsThread env_scripted (set_reader_live false w0)) in
  running_ (self w1) = false /\
  reader_ (self w1) = true /\
  value_of (start env_scripted "key" "en" w1) = None.
Proof. vm_compute. repeat split; reflexivity. Qed.

(** ** The member functions as equations *)

(** The world and the object taken apart, with names of their own. *)
Ltac open_world w :=
  destruct w as [[gf0 queue0 reader0 running0 impl0 sent0 lang0 key0 rotating0 rotator0
                  started0 interval0] clock0 opened0 written0 inbox0 live0 trace0];
  cbv beta iota delta
    [self clock_reads streams_opened writes_issued inbox reader_live trace
     gf_ pending_ reader_ running_ impl_ sent_samples_ language_code_ api_key_
     rotating_ rotator_ start_ms_ rotate_interval_ms_ stream_of stream] in *.

Section MoreClientFacts.

Variable L : libm.
Variable E : environment.

Lemma read_loop_stopped (resps : list StreamingRecognizeResponse) (w : world) :
  running_ (self w) = false -> read_loop E resps w = Returned tt w.
Proof.
  intros H. open_world w. subst.
  destruct resps; cbn [read_loop]; unfold_monad; reflexivity.
Qed.

Lemma resultsThread_no_stream (w : world) :
  stream_of (self w) = None -> resultsThread E w = Returned tt w.
Proof.
  intros H. unfold resultsThread. unfold bind at 1. unfold get at 1.
  rewrite H. reflexivity.
Qed.

Lemma resultsThread_spec (w : world) (k : nat) :
  stream_of (self w) = Some k ->
  resultsThread E w =
    Returned tt
      (after_finish E k
         (if running_ (self w) then after_reading E (inbox w) w else w)).
Proof.
  intros H. unfold resultsThread. unfold bind at 1. unfold get at 1.
  rewrite H. unfold bind at 1.
  assert (Hr : read_loop E (inbox w) w
               = Returned tt (if running_ (self w) then after_reading E (inbox w) w else w)).
  { destruct (running_ (self w)) eqn:R;
      [apply read_loop_spec | apply read_loop_stopped]; exact R. }
  rewrite Hr.
  set (w1 := if running_ (self w) then after_reading E (inbox w) w else w).
  assert (H1 : stream_of (self w1) = Some k).
  { unfold w1. destruct (running_ (self w)); [|exact H]. exact H. }
  clearbody w1. clear Hr H w.
  unfold after_finish, finish_diagnostic, finish_error, Finish, now_ms, set_text_callback.
  open_world w1. unfold_monad.
  destruct impl0 as [[[k'|]]|]; try discriminate.
  injection H1 as ->.
  unfold_monad.
  destruct gf0; unfold_monad; [destruct (ok (finish_status E k))|]; unfold_monad;
    cbn [List.length app];
    rewrite <- ?app_assoc, ?Nat.add_0_r, ?Nat.add_1_r, ?app_nil_r; reflexivity.
Qed.

Lemma stop_spec (w : world) : stop E w = Returned tt (stopped E w).
Proof.
  unfold stop, join_reader, impl_reset, stopped, reader_end, released.
  open_world w. unfold_monad.
  destruct impl0 as [[[k|]]|], reader0, live0; unfold_monad;
    try (rewrite (resultsThread_spec _ k) by reflexivity);
    try (rewrite resultsThread_no_stream by reflexivity);
    unfold after_finish, finish_diagnostic; unfold_monad;
    try (destruct gf0; [destruct (ok (finish_status E k))|]; unfold_monad);
    cbn [List.length app callbacks flat_map callback_of];
    rewrite <- ?app_assoc, ?Nat.add_0_r, ?Nat.add_1_r, ?app_nil_r; reflexivity.
Qed.

Lemma stopped_twice (w : world) : stopped E (stopped E w) = stopped E w.
Proof.
  unfold stopped, reader_end, released. open_world w. unfold_monad.
  cbn [List.length app callbacks flat_map].
  rewrite ?app_nil_r, ?Nat.add_0_r. reflexivity.
Qed.

(** [start] on a client that is not running keeps the queue and the
    counter, however it ends. *)
Lemma start_keeps_queue (api_key lang : string) (w : world) :
  pending_ (self (world_of (start E api_key lang w))) = pending_ (self w) /\
  sent_samples_ (self (world_of (start E api_key lang w))) = sent_samples_ (self w) /\
  rotating_ (self (world_of (start E api_key lang w))) = rotating_ (self w).
Proof.
  unfold start, impl_make, impl_reset, spawn_reader, StreamingRecognize, Write, now_ms,
    set_text_callback.
  open_world w. unfold_monad.
  destruct running0; unfold_monad; [auto|].
  destruct impl0; unfold_monad;
    (destruct (stream_created E opened0); unfold_monad; [|auto]);
    (destruct (write_ok E written0); unfold_monad);
    try (destruct reader0; unfold_monad; auto);
    destruct gf0; unfold_monad; auto.
Qed.

(** [start] with a reader thread that was not joined: the stream is
    opened, the configuration is written, and the assignment of line 100
    ends the process. *)
Lemma start_joinable (api_key lang : string) (w : world) :
  running_ (self w) = false ->
  stream_created E (streams_opened w) = true ->
  write_ok E (writes_issued w) = true ->
  reader_ (self w) = true ->
  start E api_key lang w =
    Terminated
      {| self := set_running_ true (opening E api_key lang (Some (streams_opened w)) w);
         clock_reads := S (clock_reads w);
         streams_opened := S (streams_opened w);
         writes_issued := S (writes_issued w);
         inbox := responses_of E (streams_opened w);
         reader_live := reader_live w;
         trace := ((trace w ++ released w) ++ [NetOpen api_key true])
                    ++ [NetWrite (cfgReq lang) true] |}.
Proof.
  intros Hr Hs Hw Hj.
  unfold start, impl_make, spawn_reader, StreamingRecognize, Write, now_ms,
    released, opening.
  open_world w. subst. unfold_monad.
  destruct impl0; unfold_monad; rewrite Hs; unfold_monad; rewrite Hw;
    unfold_monad; rewrite ?app_nil_r; reflexivity.
Qed.

(** The three ways a call of [pushFloat16k] ends. *)
Lemma push_outcome (me : thread_id) (data : option (list float32)) (n : nat) (w : world) :
  exists w',
    pushFloat16k L E me data n w = Returned tt w' /\
    ((pending_ (self w') = pending_ (self w) /\
      sent_samples_ (self w') = sent_samples_ (self w) /\
      frames_written (events_since w w') = []) \/
     (exists d,
        data = Some d /\
        w' = after_sending E (frames_of L (pending_ (self w) ++ firstn n d))
               (drained (queued (firstn n d) w)))).
Proof.
  destruct (running_ (self w)) eqn:Hr.
  2:{ exists w. rewrite push_idle by auto. rewrite events_since_same. auto. }
  destruct data as [d|].
  2:{ exists w. rewrite push_idle by auto. rewrite events_since_same. auto. }
  destruct (Nat.eq_dec n 0) as [Hn|Hn].
  { exists w. rewrite push_idle by auto. rewrite events_since_same. auto. }
  destruct (rotating_ (self w)) eqn:Hg.
  { eexists. rewrite (push_rotating L E me d n w Hr Hn) by auto. split; [reflexivity|].
    left. rewrite Hg, andb_false_r.
    rewrite (events_since_app w _ []) by (open_world w; now rewrite app_nil_r).
    open_world w. auto. }
  destruct (rotation_due E w) eqn:Hd.
  { eexists. rewrite (push_rotating L E me d n w Hr Hn) by auto. split; [reflexivity|].
    left. rewrite Hg, Hd. cbn [andb negb]. unfold gate_taken.
    rewrite (events_since_app w _
               ((if rotator_ (self w)
                 then [if is_rotator me then RotatorDetached else RotatorJoined]
                 else []) ++ [RotatorSpawned]))
      by (open_world w; reflexivity).
    open_world w. destruct rotator0, me; auto. }
  eexists. rewrite (push_steady L E me d n w Hr Hn Hg Hd). split; [reflexivity|].
  right. exists d. auto.
Qed.

End MoreClientFacts.

(* ===================================================================== *)
(** * Part V. The rotation gate                                           *)
(* ===================================================================== *)

(** ** Who writes [rotating_]

    Apart from the compare-and-swap of line 130 and the assignment of line
    149, no statement of the class writes the flag. *)

Lemma keeps_gate_ret {A : Type} (a : A) : keeps_gate (ret a).
Proof. intros w. reflexivity. Qed.

Lemma keeps_gate_bind {A B : Type} (c : M A) (k : A -> M B) :
  keeps_gate c -> (forall a, keeps_gate (k a)) -> keeps_gate (bind c k).
Proof.
  intros Hc Hk w. unfold bind. specialize (Hc w).
  destruct (c w) as [a w1|w1]; cbn [world_of] in *.
  - rewrite <- Hc. apply Hk.
  - exact Hc.
Qed.

Lemma keeps_gate_get {A : Type} (f : GoogleSttStreamer -> A) : keeps_gate (get f).
Proof. intros w. reflexivity. Qed.

Lemma keeps_gate_emit (e : event) : keeps_gate (emit e).
Proof. intros w. reflexivity. Qed.

Lemma keeps_gate_terminate {A : Type} : keeps_gate (@terminate A).
Proof. intros w. reflexivity. Qed.

Lemma keeps_gate_modify (f : GoogleSttStreamer -> GoogleSttStreamer) :
  (forall s, rotating_ (f s) = rotating_ s) -> keeps_gate (modify f).
Proof. intros H w. cbn. apply H. Qed.

Lemma keeps_gate_world {A : Type} (a : A) (f : world -> world) :
  (forall w, self (f w) = self w) -> keeps_gate (fun w => Returned a (f w)).
Proof. intros H w. cbn. now rewrite H. Qed.

Create HintDb gate.
#[local] Hint Resolve keeps_gate_ret keeps_gate_get keeps_gate_emit
  keeps_gate_terminate : gate.

Ltac keeps_gate_step :=
  match goal with
  | |- keeps_gate (bind _ _) => apply keeps_gate_bind; [|intros ?]
  | |- keeps_gate (modify _) => apply keeps_gate_modify; intros []; reflexivity
  | |- keeps_gate (if ?b then _ else _) => destruct b
  | |- keeps_gate (match ?x with _ => _ end) => destruct x
  | |- keeps_gate (fun w => Returned _ _) =>
      apply keeps_gate_world; intros []; reflexivity
  | |- keeps_gate _ => solve [auto with gate]
  end.

Ltac keeps_gate_auto := repeat keeps_gate_step.

Lemma keeps_gate_respawn (me : thread_id) : keeps_gate (respawn_rotator me).
Proof. unfold respawn_rotator. keeps_gate_auto. Qed.

Section Gate.

Variable L : libm.
Variable E : environment.

Lemma keeps_gate_now_ms : keeps_gate (now_ms E).
Proof. intros []. reflexivity. Qed.

Lemma keeps_gate_StreamingRecognize (key : string) :
  keeps_gate (StreamingRecognize E key).
Proof.
  intros w. unfold StreamingRecognize.
  destruct (stream_created E (streams_opened w)); destruct w; reflexivity.
Qed.

Lemma keeps_gate_Write (req : StreamingRecognizeRequest) : keeps_gate (Write E req).
Proof. intros []. reflexivity. Qed.

Hint Resolve keeps_gate_now_ms keeps_gate_StreamingRecognize keeps_gate_Write : gate.

Lemma keeps_gate_start (api_key lang : string) : keeps_gate (start E api_key lang).
Proof.
  unfold start, impl_make, impl_reset, spawn_reader, set_text_callback.
  keeps_gate_auto.
Qed.

Lemma keeps_gate_on_response (resp : StreamingRecognizeResponse) :
  keeps_gate (on_response E resp).
Proof.
  unfold on_response, set_text_callback.
  destruct (fold_left scan_result (results resp) (EmptyString, false)).
  keeps_gate_auto.
Qed.

Lemma keeps_gate_read_loop (resps : list StreamingRecognizeResponse) :
  keeps_gate (read_loop E resps).
Proof.
  induction resps as [|r rest IH]; cbn [read_loop].
  - keeps_gate_auto.
  - apply keeps_gate_bind; [auto with gate|]. intros running.
    destruct (negb running); [auto with gate|].
    apply keeps_gate_bind; [apply keeps_gate_world; intros []; reflexivity|].
    intros _. apply keeps_gate_bind; [apply keeps_gate_on_response|].
    intros _. exact IH.
Qed.

Lemma keeps_gate_resultsThread : keeps_gate (resultsThread E).
Proof.
  unfold resultsThread. apply keeps_gate_bind; [auto with gate|].
  intros [k|]; [|auto with gate].
  apply keeps_gate_bind.
  { intros w. apply keeps_gate_read_loop. }
  intros _. unfold Finish, set_text_callback. keeps_gate_auto.
Qed.

Lemma keeps_gate_join_reader : keeps_gate (join_reader E).
Proof.
  unfold join_reader. apply keeps_gate_bind.
  - intros w. destruct (reader_live w); [|reflexivity].
    rewrite keeps_gate_resultsThread. destruct w; reflexivity.
  - intros _. keeps_gate_auto.
Qed.

Lemma keeps_gate_stop : keeps_gate (stop E).
Proof.
  unfold stop, impl_reset.
  repeat first [ apply keeps_gate_join_reader | keeps_gate_step ].
Qed.

(** What the swap does. *)
Lemma swap_spec (w : world) :
  compare_exchange_rotating w =
    if rotating_ (self w) then Returned false w
    else Returned true (set_self (set_rotating_ true (self w)) w).
Proof. reflexivity. Qed.

(** A push never opens the gate; it closes it when a rotation is due on
    a running client and the gate was open. *)
Lemma push_gate (me : thread_id) (data : option (list float32)) (n : nat) (w : world) :
  exists w',
    pushFloat16k L E me data n w = Returned tt w' /\
    (rotating_ (self w) = true -> rotating_ (self w') = true).
Proof.
  destruct (running_ (self w)) eqn:Hr.
  2:{ exists w. split; [apply push_idle; auto | auto]. }
  destruct data as [d|].
  2:{ exists w. split; [apply push_idle; auto | auto]. }
  destruct (Nat.eq_dec n 0) as [Hn|Hn].
  { exists w. split; [apply push_idle; auto | auto]. }
  destruct (rotating_ (self w)) eqn:Hg.
  - eexists. split; [apply push_rotating; auto|].
    intros _. cbv zeta. rewrite Hg, andb_false_r. destruct w; exact Hg.
  - destruct (rotation_due E w) eqn:Hd.
    + eexists. split; [apply push_rotating; auto|]. discriminate.
    + eexists. split; [apply push_steady; auto|]. discriminate.
Qed.

End Gate.

(** ** Counting the holders of the gate *)

Lemma in_flight_app (ts us : list thread) :
  in_flight (ts ++ us) = (in_flight ts + in_flight us)%nat.
Proof. unfold in_flight. now rewrite filter_app, length_app. Qed.

Lemma in_flight_cons (t : thread) (ts : list thread) :
  in_flight (t :: ts) = (gate_count (holds_gate t) + in_flight ts)%nat.
Proof. unfold in_flight. cbn. destruct (holds_gate t); reflexivity. Qed.

Lemma in_flight_set_thread (i : nat) (t u : thread) (ts : list thread) :
  nth_error ts i = Some u ->
  (in_flight (set_thread i t ts) + gate_count (holds_gate u)
   = in_flight ts + gate_count (holds_gate t))%nat.
Proof.
  revert i. induction ts as [|v ts IH]; intros [|i] H; cbn in H; try discriminate.
  - injection H as ->. cbn [set_thread]. rewrite !in_flight_cons. lia.
  - cbn [set_thread]. rewrite !in_flight_cons. specialize (IH i H). lia.
Qed.

Lemma in_flight_only_callers (ts : list thread) :
  only_callers ts = true -> in_flight ts = 0%nat.
Proof.
  unfold only_callers.
  induction ts as [|t ts IH]; [reflexivity|].
  intros H. cbn [forallb] in H. apply andb_prop in H. destruct H as (Ht & Hts).
  rewrite in_flight_cons, (IH Hts).
  destruct t as [me [| |p]|p]; try discriminate. reflexivity.
Qed.

Section GateInvariant.

Variable L : libm.
Variable E : environment.

Lemma step_keeps_invariant (l : label) (sys sys' : system) :
  step L E l sys sys' -> gate_invariant sys -> gate_invariant sys'.
Proof.
  unfold gate_invariant, rotating.
  intros Hstep. destruct Hstep as
    [ w ts i me won w' Hi Hc
    | w ts i me w' Hi Hc
    | w ts i w' Hi Hc
    | w ts i started w' Hi Hc
    | w ts i started w' Hi Hc
    | w ts me data n w' Hc
    | w ts w' Hc
    | w ts api_key lang started w' Hc
    | w ts w' Hlive Hc ];
    cbn [shared pool]; intros Hinv.
  - pose proof (in_flight_set_thread i
                  (Requesting me (if won then AtSpawn else Left false)) _ ts Hi) as Hn.
    rewrite swap_spec in Hc.
    destruct (rotating_ (self w)) eqn:Hg; injection Hc as <- <-; cbn in *.
    + rewrite Hg. unfold gate_count in *. lia.
    + destruct w; unfold gate_count in *; cbn in *. lia.
  - pose proof (in_flight_set_thread i (Requesting me (Left true)) _ ts Hi) as Hn.
    pose proof (keeps_gate_respawn me w) as Hk. rewrite Hc in Hk. cbn in Hk, Hn.
    rewrite in_flight_app, Hk. unfold gate_count in *. cbn. lia.
  - pose proof (in_flight_set_thread i (Rotation ToStart) _ ts Hi) as Hn.
    pose proof (keeps_gate_stop E w) as Hk. rewrite Hc in Hk. cbn in Hk, Hn.
    rewrite Hk. unfold gate_count in *. lia.
  - pose proof (in_flight_set_thread i (Rotation (ToClear started)) _ ts Hi) as Hn.
    pose proof (keeps_gate_start E (api_key_ (self w)) (language_code_ (self w)) w) as Hk.
    rewrite Hc in Hk. cbn in Hk, Hn. rewrite Hk. unfold gate_count in *. lia.
  - pose proof (in_flight_set_thread i (Rotation Finished) _ ts Hi) as Hn.
    injection Hc as <-. cbn in Hn.
    destruct (rotating_ (self w)); destruct w; unfold gate_count in *; cbn in *; lia.
  - destruct (push_gate L E me data n w) as (w1 & Hp & Hg).
    rewrite Hp in Hc. injection Hc as <-.
    rewrite in_flight_app. unfold started_by_push.
    destruct (rotating_ (self w)) eqn:Hw.
    + rewrite (Hg eq_refl). unfold gate_count in *. cbn. lia.
    + destruct (rotating_ (self w1)); unfold gate_count in *; cbn; lia.
  - pose proof (keeps_gate_stop E w) as Hk. rewrite Hc in Hk. cbn in Hk.
    now rewrite Hk.
  - pose proof (keeps_gate_start E api_key lang w) as Hk. rewrite Hc in Hk. cbn in Hk.
    now rewrite Hk.
  - pose proof (keeps_gate_resultsThread E (set_reader_live false w)) as Hk.
    rewrite Hc in Hk. cbn in Hk. rewrite Hk. destruct w; exact Hinv.
Qed.

Lemma run_keeps_invariant (sys0 sys : system) (ls : list label) :
  run L E sys0 ls sys -> gate_invariant sys0 -> gate_invariant sys.
Proof.
  induction 1 as [sys|sys0 ls sys l sys' Hrun IH Hstep]; intros H0.
  - exact H0.
  - eapply step_keeps_invariant; [exact Hstep | exact (IH H0)].
Qed.

Lemma initial_invariant (sys : system) : initial sys -> gate_invariant sys.
Proof.
  intros (Hg & Hc). unfold gate_invariant.
  rewrite (in_flight_only_callers _ Hc), Hg. reflexivity.
Qed.

(** A step that clears the flag is the last assignment of a rotation
    task; a swap that fails leaves the world as it was. *)
Lemma step_on_flag (l : label) (sys sys' : system) :
  step L E l sys sys' ->
  (rotating sys = true -> rotating sys' = false ->
     exists i started,
       l = DoClear i /\
       nth_error (pool sys) i = Some (Rotation (ToClear started)) /\
       pool sys' = set_thread i (Rotation Finished) (pool sys)) /\
  (forall i, l = DoSwap i false ->
     rotating sys = true /\ shared sys' = shared sys /\
     exists me, nth_error (pool sys) i = Some (Requesting me AtSwap) /\
                pool sys' = set_thread i (Requesting me (Left false)) (pool sys)) /\
  (forall i, l = DoSwap i true ->
     rotating sys = false /\ rotating sys' = true).
Proof.
  unfold rotating.
  intros Hstep. destruct Hstep as
    [ w ts i me won w' Hi Hc
    | w ts i me w' Hi Hc
    | w ts i w' Hi Hc
    | w ts i started w' Hi Hc
    | w ts i started w' Hi Hc
    | w ts me data n w' Hc
    | w ts w' Hc
    | w ts api_key lang started w' Hc
    | w ts w' Hlive Hc ];
    cbn [shared pool];
    (split; [intros Hon Hoff | split; intros j Hl; try discriminate Hl]).
  - rewrite swap_spec, Hon in Hc. injection Hc as <- <-. congruence.
  - injection Hl as -> ->. rewrite swap_spec in Hc.
    destruct (rotating_ (self w)) eqn:Hg; [|discriminate].
    injection Hc as <-. repeat split. exists me. split; [exact Hi | reflexivity].
  - injection Hl as -> ->. rewrite swap_spec in Hc.
    destruct (rotating_ (self w)) eqn:Hg; [discriminate|].
    injection Hc as <-. split; [reflexivity | destruct w; reflexivity].
  - pose proof (keeps_gate_respawn me w) as Hk. rewrite Hc in Hk. cbn in Hk. congruence.
  - pose proof (keeps_gate_stop E w) as Hk. rewrite Hc in Hk. cbn in Hk. congruence.
  - pose proof (keeps_gate_start E (api_key_ (self w)) (language_code_ (self w)) w) as Hk.
    rewrite Hc in Hk. cbn in Hk. congruence.
  - exists i, started. repeat split. exact Hi.
  - destruct (push_gate L E me data n w) as (w1 & Hp & Hg).
    rewrite Hp in Hc. injection Hc as <-. rewrite (Hg Hon) in Hoff. discriminate.
  - pose proof (keeps_gate_stop E w) as Hk. rewrite Hc in Hk. cbn in Hk. congruence.
  - pose proof (keeps_gate_start E api_key lang w) as Hk. rewrite Hc in Hk. cbn in Hk.
    congruence.
  - pose proof (keeps_gate_resultsThread E (set_reader_live false w)) as Hk.
    rewrite Hc in Hk. cbn in Hk. destruct w; cbn in *. congruence.
Qed.

Lemma nth_error_set_thread (ts : list thread) (j k : nat) (t u : thread) :
  nth_error (set_thread j t ts) k = Some u ->
  (j = k /\ t = u) \/ nth_error ts k = Some u.
Proof.
  revert j k. induction ts as [|v ts IH]; intros [|j] [|k] H; cbn in *;
    try discriminate; auto.
  - left. injection H as ->. auto.
  - destruct (IH j k H) as [(-> & ->) | Hk]; auto.
Qed.

Lemma nth_error_snoc (ts : list thread) (k : nat) (t u : thread) :
  nth_error (ts ++ [t]) k = Some u -> nth_error ts k = Some u \/ t = u.
Proof.
  intros H. destruct (Nat.lt_ge_cases k (List.length ts)) as [Hlt|Hge].
  - left. now rewrite nth_error_app1 in H.
  - right. rewrite nth_error_app2 in H by exact Hge.
    destruct (k - List.length ts)%nat as [|[|m]]; cbn in H; congruence.
Qed.

Lemma step_thread (l : label) (sys sys' : system) (i : nat) (u : thread) :
  step L E l sys sys' ->
  nth_error (pool sys') i = Some u ->
  nth_error (pool sys) i = Some u \/ moved_by l i u.
Proof.
  intros Hstep. destruct Hstep as
    [ w ts j me won w' Hi Hc
    | w ts j me w' Hi Hc
    | w ts j w' Hi Hc
    | w ts j started' w' Hi Hc
    | w ts j started' w' Hi Hc
    | w ts me data n w' Hc
    | w ts w' Hc
    | w ts api_key lang started' w' Hc
    | w ts w' Hlive Hc ];
    cbn [shared pool moved_by]; intros Hn; auto.
  - apply nth_error_set_thread in Hn. destruct Hn as [(-> & <-) | Hn]; eauto.
  - apply nth_error_snoc in Hn. destruct Hn as [Hn | <-]; [|auto].
    apply nth_error_set_thread in Hn. destruct Hn as [(-> & <-) | Hn]; eauto.
  - apply nth_error_set_thread in Hn. destruct Hn as [(-> & <-) | Hn]; eauto.
  - apply nth_error_set_thread in Hn. destruct Hn as [(-> & <-) | Hn]; eauto.
  - apply nth_error_set_thread in Hn. destruct Hn as [(-> & <-) | Hn]; eauto.
  - unfold started_by_push in Hn.
    destruct (negb (rotating_ (self w)) && rotating_ (self w')).
    + apply nth_error_snoc in Hn. destruct Hn as [Hn | <-]; auto.
    + rewrite app_nil_r in Hn. auto.
Qed.

Lemma only_callers_nth (ts : list thread) (i : nat) (u : thread) :
  only_callers ts = true -> nth_error ts i = Some u ->
  exists me, u = Requesting me AtSwap.
Proof.
  unfold only_callers. intros Hc Hn.
  apply nth_error_In in Hn.
  rewrite forallb_forall in Hc. specialize (Hc u Hn).
  destruct u as [me [| |p]|p]; try discriminate. eauto.
Qed.

(** A rotation task stands before its last assignment only after its
    [stop()] and then its [start()] have run, and [started] is what that
    [start()] returned. *)
Lemma rotation_history (sys0 sys : system) (ls : list label) :
  only_callers (pool sys0) = true ->
  run L E sys0 ls sys ->
  forall i,
    (nth_error (pool sys) i = Some (Rotation ToStart) -> In (DoStop i) ls) /\
    (forall started,
       nth_error (pool sys) i = Some (Rotation (ToClear started)) ->
       exists later earlier,
         ls = later ++ DoStart i started :: earlier /\ In (DoStop i) earlier).
Proof.
  intros H0 Hrun. induction Hrun as [sys|sys0 ls sys l sys' Hrun IH Hstep]; intros i.
  - split; [intros Hn | intros started Hn];
      destruct (only_callers_nth _ _ _ H0 Hn) as (me & Hme); discriminate.
  - specialize (IH H0). split.
    + intros Hn. destruct (step_thread _ _ _ _ _ Hstep Hn) as [Hold | Hmv].
      * right. apply (IH i). exact Hold.
      * destruct l; cbn in Hmv;
          try (destruct Hmv as (_ & me & Hmv); discriminate);
          try (destruct Hmv as (_ & Hmv); discriminate);
          try discriminate; try contradiction.
        -- destruct Hmv as [(_ & me & Hmv) | Hmv]; discriminate.
        -- destruct Hmv as (-> & _). left. reflexivity.
    + intros started Hn. destruct (step_thread _ _ _ _ _ Hstep Hn) as [Hold | Hmv].
      * destruct (proj2 (IH i) started Hold) as (later & earlier & -> & Hin).
        exists (l :: later), earlier. split; [reflexivity | exact Hin].
      * destruct l; cbn in Hmv;
          try (destruct Hmv as (_ & me & Hmv); discriminate);
          try (destruct Hmv as (_ & Hmv); discriminate);
          try discriminate; try contradiction.
        -- destruct Hmv as [(_ & me & Hmv) | Hmv]; discriminate.
        -- destruct Hmv as (-> & Hmv). injection Hmv as <-.
           exists [], ls. split; [reflexivity|].
           inversion Hstep; subst. cbn [pool] in *.
           apply (IH i). assumption.
Qed.

(** The last assignment of a rotation task can always be taken, and it
    clears the flag. *)
Lemma rotation_clears (sys : system) (i : nat) (started : bool) :
  nth_error (pool sys) i = Some (Rotation (ToClear started)) ->
  exists sys', step L E (DoClear i) sys sys' /\ rotating sys' = false.
Proof.
  intros Hn. destruct sys as [w ts]. cbn [pool] in Hn.
  eexists. split.
  - eapply step_rotation_clear; [exact Hn | reflexivity].
  - destruct w; reflexivity.
Qed.

End GateInvariant.

(** ** Races of [requestRotate] alone *)

Lemma swaps_elect_one (L : libm) (E : environment) (sys0 sys : system) (ls : list label) :
  rotating sys0 = false ->
  run L E sys0 ls sys ->
  forallb is_swap ls = true ->
  winners ls = gate_count (rotating sys) /\ (ls <> [] -> rotating sys = true).
Proof.
  intros H0 Hrun. induction Hrun as [sys|sys0 ls sys l sys' Hrun IH Hstep]; intros Hall.
  - rewrite H0. split; [reflexivity | congruence].
  - cbn [forallb] in Hall. apply andb_prop in Hall. destruct Hall as (Hl & Hall).
    destruct (IH H0 Hall) as (IH1 & IH2). clear IH.
    unfold winners in *. cbn [filter].
    destruct (step_on_flag L E l sys sys' Hstep) as (_ & Hlost & Hwon).
    destruct l as [i [|]| | | | | | | |]; try discriminate Hl; cbn [is_won_swap].
    + destruct (Hwon i eq_refl) as (Hoff & Hon).
      rewrite Hon. rewrite Hoff in IH1. cbn [List.length]. rewrite IH1.
      split; [reflexivity | intros _; reflexivity].
    + destruct (Hlost i eq_refl) as (Hon & Hsame & _).
      unfold rotating in *. rewrite Hsame, Hon. rewrite Hon in IH1.
      split; [exact IH1 | intros _; reflexivity].
Qed.

(** [doRotate] is the three steps of a rotation task one after the
    other, and [requestRotate] the swap followed, when it is won, by the
    start of the rotation thread. *)
Lemma doRotate_in_steps (E : environment) (w w1 w2 : world) (started : bool) :
  stop E w = Returned tt w1 ->
  start E (api_key_ (self w1)) (language_code_ (self w1)) w1 = Returned started w2 ->
  doRotate E w = modify (set_rotating_ false) w2.
Proof.
  intros H1 H2. unfold doRotate. unfold bind at 1. rewrite H1.
  unfold bind at 1. unfold get at 1. unfold bind at 1. unfold get at 1.
  unfold bind at 1. rewrite H2. reflexivity.
Qed.

Lemma requestRotate_in_steps (me : thread_id) (w : world) :
  requestRotate me w =
    match compare_exchange_rotating w with
    | Returned true w1 => respawn_rotator me w1
    | Returned false w1 => Returned tt w1
    | Terminated w1 => Terminated w1
    end.
Proof.
  unfold requestRotate, bind. destruct (compare_exchange_rotating w) as [[|] w1|w1];
    reflexivity.
Qed.

(** ** The threads of the pool and the member functions *)

Lemma nth_error_set_thread_same (ts : list thread) (i : nat) (t u : thread) :
  nth_error ts i = Some u -> nth_error (set_thread i t ts) i = Some t.
Proof.
  revert i. induction ts as [|v ts IH]; intros [|i] H; cbn in *; try discriminate; auto.
Qed.

Lemma set_thread_twice (ts : list thread) (i : nat) (t u : thread) :
  set_thread i t (set_thread i u ts) = set_thread i t ts.
Proof.
  revert i. induction ts as [|v ts IH]; intros [|i]; cbn; try reflexivity.
  now rewrite IH.
Qed.

Lemma respawn_returns (me : thread_id) (w : world) :
  respawn_rotator me w = Returned tt (world_of (respawn_rotator me w)).
Proof.
  unfold respawn_rotator. open_world w. unfold_monad.
  destruct rotator0, me; reflexivity.
Qed.

Section RotationTasks.

Variable L : libm.
Variable E : environment.

(** Without a reader thread left to join, [start] returns. *)
Lemma start_returns (api_key lang : string) (w : world) :
  reader_ (self w) = false ->
  exists started w', start E api_key lang w = Returned started w'.
Proof.
  intros Hj.
  destruct (running_ (self w)) eqn:Hr.
  { eexists _, _. apply start_running_noop. exact Hr. }
  destruct (stream_created E (streams_opened w)) eqn:Hs.
  2:{ eexists _, _. apply start_no_stream; assumption. }
  destruct (write_ok E (writes_issued w)) eqn:Hw.
  - eexists _, _. apply start_streaming; assumption.
  - eexists _, _. apply start_config_refused; assumption.
Qed.

(** A call of [requestRotate] that no other thread interrupts is the
    steps of its thread: the swap and, when it is won, the start of the
    rotation thread. *)
Lemma call_in_the_pool (sys : system) (i : nat) (me : thread_id) :
  nth_error (pool sys) i = Some (Requesting me AtSwap) ->
  exists sys',
    run L E sys (if rotating sys then [DoSwap i false] else [DoSpawn i; DoSwap i true]) sys' /\
    requestRotate me (shared sys) = Returned tt (shared sys') /\
    pool sys' =
      (if rotating sys then set_thread i (Requesting me (Left false)) (pool sys)
       else set_thread i (Requesting me (Left true)) (pool sys) ++ [Rotation ToStop]).
Proof.
  destruct sys as [w ts]. unfold rotating. cbn [shared pool]. intros Hn.
  rewrite requestRotate_in_steps, swap_spec.
  destruct (rotating_ (self w)) eqn:Hg.
  - eexists {| shared := w; pool := _ |}. split; [|split; reflexivity].
    eapply run_snoc; [apply run_nil|].
    apply (step_swap L E w ts i me false w Hn). rewrite swap_spec, Hg. reflexivity.
  - set (w1 := set_self (set_rotating_ true (self w)) w).
    eexists {| shared := world_of (respawn_rotator me w1); pool := _ |}.
    split; [|split; [apply respawn_returns|]].
    + eapply run_snoc; [eapply run_snoc; [apply run_nil|]|].
      * apply (step_swap L E w ts i me true w1 Hn). rewrite swap_spec, Hg. reflexivity.
      * cbn [shared pool].
        pose proof (step_spawn L E w1 (set_thread i (Requesting me AtSpawn) ts) i me
                      (world_of (respawn_rotator me w1))
                      (nth_error_set_thread_same ts i _ _ Hn) (respawn_returns me w1)) as Hs.
        rewrite set_thread_twice in Hs. exact Hs.
    + reflexivity.
Qed.

(** A rotation task that no other thread interrupts is [doRotate]: its
    three steps can always be taken, and they end with the flag clear. *)
Lemma task_in_the_pool (sys : system) (i : nat) :
  nth_error (pool sys) i = Some (Rotation ToStop) ->
  exists started sys',
    run L E sys [DoClear i; DoStart i started; DoStop i] sys' /\
    doRotate E (shared sys) = Returned tt (shared sys') /\
    rotating sys' = false /\
    pool sys' = set_thread i (Rotation Finished) (pool sys).
Proof.
  destruct sys as [w ts]. unfold rotating. cbn [shared pool]. intros Hn.
  pose proof (stop_spec E w) as H1.
  set (w1 := stopped E w) in *.
  assert (Hj : reader_ (self w1) = false) by (unfold w1, stopped; open_world w; reflexivity).
  destruct (start_returns (api_key_ (self w1)) (language_code_ (self w1)) w1 Hj)
    as (started & w2 & H2).
  exists started,
    {| shared := set_self (set_rotating_ false (self w2)) w2;
       pool := set_thread i (Rotation Finished) ts |}.
  cbn [shared pool]. split; [|split; [|split]].
  - eapply run_snoc; [eapply run_snoc; [eapply run_snoc; [apply run_nil|]|]|].
    + apply (step_rotation_stop L E w ts i w1 Hn H1).
    + apply (step_rotation_start L E w1 _ i started w2
               (nth_error_set_thread_same ts i _ _ Hn) H2).
    + pose proof (step_rotation_clear L E w2
                    (set_thread i (Rotation (ToClear started))
                       (set_thread i (Rotation ToStart) ts)) i started
                    (set_self (set_rotating_ false (self w2)) w2)) as Hs.
      rewrite !set_thread_twice in Hs. rewrite set_thread_twice. apply Hs; [|reflexivity].
      rewrite <- (set_thread_twice ts i (Rotation (ToClear started)) (Rotation ToStart)).
      apply (nth_error_set_thread_same _ i _ (Rotation ToStart)).
      apply (nth_error_set_thread_same ts i _ _ Hn).
  - rewrite (doRotate_in_steps E w w1 w2 started H1 H2). reflexivity.
  - open_world w2. reflexivity.
  - reflexivity.
Qed.

End RotationTasks.

(* ===================================================================== *)
(** * Part VI. Properties of the sample encoder                           *)
(* ===================================================================== *)

(** ** The shifts and the rounding of the Standard Library's binary
    floats, as divisions *)

Lemma digits_bounds (p : positive) :
  2 ^ (Zpos (digits2_pos p) - 1) <= Zpos p < 2 ^ Zpos (digits2_pos p).
Proof.
  induction p as [p IH|p IH|]; cbn [digits2_pos].
  - rewrite Pos2Z.inj_succ. replace (Z.succ (Zpos (digits2_pos p)) - 1) with (Zpos (digits2_pos p) - 1 + 1) by lia.
    rewrite Z.pow_succ_r by lia. rewrite Z.pow_add_r by lia. lia.
  - rewrite Pos2Z.inj_succ. replace (Z.succ (Zpos (digits2_pos p)) - 1) with (Zpos (digits2_pos p) - 1 + 1) by lia.
    rewrite Z.pow_succ_r by lia. rewrite Z.pow_add_r by lia. lia.
  - cbn. lia.
Qed.

Lemma digits_log2 (p : positive) : Zpos (digits2_pos p) = Z.log2 (Zpos p) + 1.
Proof.
  pose proof (digits_bounds p) as H.
  assert (Hl : Z.log2 (Zpos p) = Zpos (digits2_pos p) - 1).
  { apply Z.log2_unique; [lia|].
    replace (Z.succ (Zpos (digits2_pos p) - 1)) with (Zpos (digits2_pos p)) by lia.
    exact H. }
  lia.
Qed.

Lemma iter_pos_nat {A} (f : A -> A) (p : positive) (x : A) :
  iter_pos f p x = Nat.iter (Pos.to_nat p) f x.
Proof.
  revert x. induction p as [p IH|p IH|]; intros x; cbn [iter_pos].
  - rewrite !IH. rewrite Pos2Nat.inj_xI. cbn [Nat.iter nat_rect Nat.mul].
    rewrite Nat.add_0_r. rewrite <- Nat.iter_add. rewrite <- Nat.iter_succ_r. reflexivity.
  - rewrite !IH. rewrite Pos2Nat.inj_xO. cbn [Nat.mul]. rewrite Nat.add_0_r.
    rewrite <- Nat.iter_add. reflexivity.
  - reflexivity.
Qed.

Lemma div2_xI (p : positive) : Zpos p~1 / 2 = Zpos p.
Proof. symmetry. apply Z.div_unique with 1; lia. Qed.

Lemma div2_xO (p : positive) : Zpos p~0 / 2 = Zpos p.
Proof. symmetry. apply Z.div_unique with 0; lia. Qed.

Lemma shr_1_spec (m : Z) (r s : bool) :
  0 <= m ->
  shr_1 {| shr_m := m; shr_r := r; shr_s := s |} =
  {| shr_m := m / 2; shr_r := Z.odd m; shr_s := r || s |}.
Proof.
  intros Hm. destruct m as [|p|p]; [reflexivity| |lia].
  destruct p as [p|p|]; cbn [shr_1 Z.odd].
  - now rewrite div2_xI.
  - now rewrite div2_xO.
  - reflexivity.
Qed.

(* After k+1 steps from (m, false, false) *)
Lemma shr_iter_spec (k : nat) (m : Z) :
  0 <= m ->
  Nat.iter (S k) shr_1 {| shr_m := m; shr_r := false; shr_s := false |} =
  {| shr_m := m / 2 ^ (Z.of_nat (S k));
     shr_r := Z.odd (m / 2 ^ Z.of_nat k);
     shr_s := negb (m mod 2 ^ Z.of_nat k =? 0) |}.
Proof.
  intros Hm. induction k as [|k IH].
  - cbn [Nat.iter nat_rect]. rewrite shr_1_spec by exact Hm. cbn. 
    rewrite Z.div_1_r, Z.mod_1_r. f_equal. 
  - rewrite Nat.iter_succ. rewrite IH. rewrite shr_1_spec by (apply Z.div_pos; lia).
    f_equal.
    + rewrite Z.div_div by lia. f_equal. rewrite (Nat2Z.inj_succ (S k)). rewrite (Z.pow_succ_r _ (Z.of_nat (S k))) by lia. lia.
    + rewrite (Nat2Z.inj_succ k). rewrite Z.pow_succ_r by lia.
      set (A := 2 ^ Z.of_nat k). assert (HA : 0 < A) by (apply Z.pow_pos_nonneg; lia).
      pose proof (Z.div_mod m A ltac:(lia)) as H1.
      pose proof (Z.mod_pos_bound m A HA) as H2.
      pose proof (Z.div_mod (m / A) 2 ltac:(lia)) as H3.
      pose proof (Z.mod_pos_bound (m / A) 2 ltac:(lia)) as H4.
      assert (Hmod : m mod (2 * A) = (m / A) mod 2 * A + m mod A).
      { symmetry. apply Z.mod_unique_pos with (m / A / 2); nia. }
      rewrite Hmod, Zmod_odd.
      destruct (Z.odd (m / A)); destruct (Z.eqb_spec (m mod A) 0) as [e0|n0]; cbn [orb negb].
      * destruct (Z.eqb_spec (1 * A + m mod A) 0); [lia | reflexivity].
      * destruct (Z.eqb_spec (1 * A + m mod A) 0); [lia | reflexivity].
      * destruct (Z.eqb_spec (0 * A + m mod A) 0); [reflexivity | lia].
      * destruct (Z.eqb_spec (0 * A + m mod A) 0); [lia | reflexivity].
Qed.

Lemma mod_double (m A : Z) :
  0 < A -> m mod (2 * A) = (if Z.odd (m / A) then A else 0) + m mod A.
Proof.
  intros HA.
  pose proof (Z.div_mod m A ltac:(lia)) as H1.
  pose proof (Z.mod_pos_bound m A HA) as H2.
  pose proof (Z.div_mod (m / A) 2 ltac:(lia)) as H3.
  pose proof (Z.mod_pos_bound (m / A) 2 ltac:(lia)) as H4.
  rewrite Zmod_odd in H3, H4.
  symmetry. apply Z.mod_unique_pos with (m / A / 2); destruct (Z.odd (m / A)); nia.
Qed.

Lemma round_shr_spec (m n : Z) :
  0 <= m -> 0 < n ->
  let mrs := {| shr_m := m / 2 ^ n;
                shr_r := Z.odd (m / 2 ^ (n - 1));
                shr_s := negb (m mod 2 ^ (n - 1) =? 0) |} in
  round_nearest_even (shr_m mrs) (loc_of_shr_record mrs) = rne m n.
Proof.
  intros Hm Hn. cbv zeta. cbn [shr_m]. unfold rne.
  set (A := 2 ^ (n - 1)).
  assert (HA : 0 < A) by (apply Z.pow_pos_nonneg; lia).
  assert (H2A : 2 ^ n = 2 * A).
  { unfold A. replace n with (Z.succ (n - 1)) at 1 by lia. apply Z.pow_succ_r. lia. }
  rewrite H2A. rewrite (mod_double m A HA).
  assert (Hq : m / (2 * A) = m / A / 2) by (rewrite Z.div_div by lia; f_equal; lia).
  pose proof (Z.mod_pos_bound m A HA) as Hr.
  unfold loc_of_shr_record.
  destruct (Z.odd (m / A)) eqn:Hodd; destruct (Z.eqb_spec (m mod A) 0) as [e0|n0]; cbn [negb];
    unfold round_nearest_even.
  - (* tie *) rewrite e0.
    replace (2 * A <? 2 * (A + 0)) with false by (symmetry; apply Z.ltb_ge; lia).
    replace (2 * (A + 0) =? 2 * A) with true by (symmetry; apply Z.eqb_eq; lia).
    cbn [orb andb]. rewrite <- Z.negb_odd. destruct (Z.odd (m / (2 * A))); reflexivity.
  - replace (2 * A <? 2 * (A + m mod A)) with true by (symmetry; apply Z.ltb_lt; lia).
    reflexivity.
  - rewrite e0.
    replace (2 * A <? 2 * (0 + 0)) with false by (symmetry; apply Z.ltb_ge; lia).
    replace (2 * (0 + 0) =? 2 * A) with false by (symmetry; apply Z.eqb_neq; lia).
    reflexivity.
  - replace (2 * A <? 2 * (0 + m mod A)) with false by (symmetry; apply Z.ltb_ge; lia).
    replace (2 * (0 + m mod A) =? 2 * A) with false by (symmetry; apply Z.eqb_neq; lia).
    reflexivity.
Qed.

Lemma shr_spec (m : Z) (e : Z) (n : Z) :
  0 <= m -> 0 < n ->
  shr {| shr_m := m; shr_r := false; shr_s := false |} e n =
  ({| shr_m := m / 2 ^ n;
      shr_r := Z.odd (m / 2 ^ (n - 1));
      shr_s := negb (m mod 2 ^ (n - 1) =? 0) |}, e + n).
Proof.
  intros Hm Hn. destruct n as [|p|p]; try lia. unfold shr.
  rewrite iter_pos_nat.
  destruct (Pos.to_nat p) as [|k] eqn:Hk; [lia|].
  rewrite shr_iter_spec by exact Hm.
  replace (Z.of_nat (S k)) with (Zpos p) by lia.
  replace (Z.of_nat k) with (Zpos p - 1) by lia. reflexivity.
Qed.

Lemma shr_none (mrs : shr_record) (e n : Z) : n <= 0 -> shr mrs e n = (mrs, e).
Proof. intros Hn. destruct n as [|p|p]; try lia; reflexivity. Qed.

Lemma rne_range (m n : Z) : 0 <= m -> m / 2 ^ n <= rne m n <= m / 2 ^ n + 1.
Proof.
  intros Hm. unfold rne.
  destruct ((2 ^ n <? 2 * (m mod 2 ^ n)) || ((2 * (m mod 2 ^ n) =? 2 ^ n) && Z.odd (m / 2 ^ n))); lia.
Qed.

Lemma fexp_spec (z : Z) : fexp prec emax z = Z.max (z - 24) (-149).
Proof. reflexivity. Qed.

Lemma valid_finite_inv (s : bool) (m : positive) (e : Z) :
  valid (S754_finite s m e) = true ->
  -149 <= e <= 104 /\ Zpos m < 2 ^ 24 /\ (e = -149 \/ 2 ^ 23 <= Zpos m).
Proof.
  unfold valid, valid_binary, bounded, canonical_mantissa. intros H.
  apply andb_prop in H. destruct H as (Hc & He).
  apply Z.eqb_eq in Hc. apply Z.leb_le in He. rewrite fexp_spec in Hc.
  change (emax - prec) with 104 in He.
  pose proof (digits_bounds m) as Hd.
  set (d := Zpos (digits2_pos m)) in *.
  assert (Hd1 : 1 <= d) by (unfold d; lia).
  assert (Hcases : (d = 24 /\ -149 <= e) \/ (e = -149 /\ d <= 24)) by lia.
  destruct Hcases as [(Hd24 & Hlo) | (He149 & Hd24)].
  - rewrite Hd24 in Hd. repeat split; lia.
  - assert (2 ^ d <= 2 ^ 24) by (apply Z.pow_le_mono_r; lia).
    repeat split; try lia.
Qed.

Lemma log2_bounds (v : Z) : 0 < v -> 2 ^ Z.log2 v <= v < 2 ^ (Z.log2 v + 1).
Proof. intros H. pose proof (Z.log2_spec v H). replace (Z.log2 v + 1) with (Z.succ (Z.log2 v)) by lia. exact H0. Qed.

Lemma Zdigits2_log2 (v : Z) : 0 < v -> Zdigits2 v = Z.log2 v + 1.
Proof. destruct v as [|p|p]; try lia. intros _. apply digits_log2. Qed.

Lemma Zdigits2_small (v : Z) : 0 < v < 2 ^ 24 -> Zdigits2 v <= 24.
Proof.
  intros H. rewrite Zdigits2_log2 by lia.
  pose proof (log2_bounds v ltac:(lia)) as Hb.
  pose proof (Z.log2_nonneg v).
  destruct (Z_le_gt_dec (Z.log2 v + 1) 24) as [Hle|Hgt]; [exact Hle|].
  assert (2 ^ 24 <= 2 ^ Z.log2 v) by (apply Z.pow_le_mono_r; lia). lia.
Qed.

(** The product with 32767.0f of a valid value of magnitude at most 1. *)
Lemma mul_f32767_spec (s : bool) (m : positive) (e : Z) :
  valid (S754_finite s m e) = true -> e <= -23 ->
  let mx := Zpos m * 16776704 in
  let n := Z.max (Z.log2 mx - 23) (-140 - e) in
  let m1 := rne mx n in
  let e1 := e - 9 + n in
  9 <= n /\ 0 <= m1 <= 2 ^ 24 /\ -149 <= e1 <= 104 /\
  mul (S754_finite s m e) f32767 =
    if m1 =? 0 then S754_zero s
    else if m1 =? 2 ^ 24 then S754_finite s 8388608 (e1 + 1)
         else S754_finite s (Z.to_pos m1) e1.
Proof.
  intros Hv He. cbv zeta.
  destruct (valid_finite_inv s m e Hv) as (Hrange & Hm & Hnorm).
  set (mx := Zpos m * 16776704).
  assert (Hmx : 0 < mx) by (unfold mx; lia).
  pose proof (log2_bounds mx Hmx) as Hlog.
  pose proof (Z.log2_nonneg mx) as Hlog0.
  set (lg := Z.log2 mx) in *.
  set (n := Z.max (lg - 23) (-140 - e)).
  (* the shift is at least 9 *)
  assert (Hn9 : 9 <= n).
  { destruct Hnorm as [-> | Hbig]; [unfold n; lia|].
    assert (2 ^ 46 <= mx) by (unfold mx; lia).
    destruct (Z_lt_ge_dec lg 46) as [Hlt|Hge]; [|unfold n; lia].
    assert (2 ^ (lg + 1) <= 2 ^ 46) by (apply Z.pow_le_mono_r; lia). lia. }
  assert (Hlg47 : lg <= 47).
  { assert (mx < 2 ^ 48) by (unfold mx; lia).
    destruct (Z_le_gt_dec lg 47) as [Hle|Hgt]; [exact Hle|].
    assert (2 ^ 48 <= 2 ^ lg) by (apply Z.pow_le_mono_r; lia). lia. }
  (* the quotient has at most 24 bits *)
  assert (Hq : 0 <= mx / 2 ^ n < 2 ^ 24).
  { split; [apply Z.div_pos; [lia | apply Z.pow_pos_nonneg; lia]|].
    apply Z.div_lt_upper_bound; [apply Z.pow_pos_nonneg; lia|].
    rewrite <- Z.pow_add_r by lia.
    assert (2 ^ (lg + 1) <= 2 ^ (n + 24)) by (apply Z.pow_le_mono_r; unfold n; lia). lia. }
  pose proof (rne_range mx n ltac:(lia)) as Hrne.
  set (m1 := rne mx n) in *.
  set (e1 := e - 9 + n).
  assert (He1 : -149 <= e1 <= 104) by (unfold e1, n; lia).
  split; [exact Hn9|]. split; [lia|]. split; [exact He1|].
  (* the first shift *)
  unfold mul, f32767, SFmul, binary_round_aux. rewrite xorb_false_r.
  change (Z.pos (m * 16776704)) with mx.
  unfold shr_fexp at 1. cbn [shr_record_of_loc].
  rewrite (Zdigits2_log2 mx Hmx), fexp_spec. fold lg.
  replace (Z.max (lg + 1 + (e + -9) - 24) (-149) - (e + -9)) with n by (unfold n; lia).
  rewrite (shr_spec mx (e + -9) n) by lia.
  rewrite (round_shr_spec mx n) by lia. fold m1.
  replace (e + -9 + n) with e1 by (unfold e1; lia).
  (* the second shift *)
  unfold shr_fexp. cbn [shr_record_of_loc]. rewrite fexp_spec.
  destruct (Z.eqb_spec m1 0) as [Hz|Hnz].
  - rewrite Hz. cbn [Zdigits2]. rewrite shr_none by lia. reflexivity.
  - destruct (Z.eqb_spec m1 (2 ^ 24)) as [Hov|Hnov].
    + rewrite Hov. change (Zdigits2 (2 ^ 24)) with 25.
      replace (Z.max (25 + e1 - 24) (-149) - e1) with 1 by lia.
      cbn [shr iter_pos shr_1 shr_m Z.pow Z.pow_pos Pos.iter Z.mul Pos.mul].
      replace (e1 + 1 <=? emax - prec) with true; [reflexivity|].
      symmetry. apply Z.leb_le. change (emax - prec) with 104. unfold e1, n. lia.
    + assert (Hm1 : 0 < m1 < 2 ^ 24) by lia.
      pose proof (Zdigits2_small m1 Hm1) as Hd.
      rewrite shr_none by lia. cbn [shr_m].
      destruct m1 as [|p1|p1] eqn:Hp; try lia.
      replace (e1 <=? emax - prec) with true; [reflexivity|].
      symmetry. apply Z.leb_le. change (emax - prec) with 104. lia.
Qed.

Lemma round_half_away_scaled (m : positive) (e : Z) :
  -158 <= e ->
  round_half_away m e = to_nearest_integer (Zpos m * 2 ^ (e + 158)).
Proof.
  intros He. unfold round_half_away, to_nearest_integer.
  destruct (Z.leb_spec 0 e) as [Hpos|Hneg].
  - rewrite Z.shiftl_mul_pow2 by lia.
    rewrite Z.pow_add_r by lia. rewrite Z.mul_assoc.
    rewrite Z.div_add_l by lia.
    rewrite Z.div_small; [lia|]. split; [lia|]. 
    apply Z.pow_lt_mono_r; lia.
  - rewrite Z.shiftr_div_pow2 by lia. rewrite Z.shiftl_mul_pow2 by lia.
    rewrite Z.mul_1_l.
    set (B := 2 ^ (e + 158)).
    assert (HB : 0 < B) by (apply Z.pow_pos_nonneg; lia).
    assert (H158 : 2 ^ 158 = 2 ^ (- e) * B).
    { unfold B. rewrite <- Z.pow_add_r by lia. f_equal. lia. }
    assert (H157 : 2 ^ 157 = 2 ^ (- e - 1) * B).
    { unfold B. rewrite <- Z.pow_add_r by lia. f_equal. lia. }
    rewrite H158, H157.
    replace (Z.pos m * B + 2 ^ (- e - 1) * B) with ((Z.pos m + 2 ^ (- e - 1)) * B) by ring.
    rewrite Z.div_mul_cancel_r; [reflexivity | | lia].
    apply Z.pow_nonzero; lia.
Qed.

Lemma rne_scale (v n k : Z) :
  0 <= n -> 0 <= k -> rne (v * 2 ^ k) (n + k) = rne v n.
Proof.
  intros Hn Hk. unfold rne.
  set (A := 2 ^ n). set (B := 2 ^ k).
  assert (HA : 0 < A) by (apply Z.pow_pos_nonneg; lia).
  assert (HB : 0 < B) by (apply Z.pow_pos_nonneg; lia).
  rewrite Z.pow_add_r by lia. fold A B.
  rewrite Z.div_mul_cancel_r by lia.
  rewrite Z.mul_mod_distr_r by lia.
  set (r := v mod A).
  replace (A * B <? 2 * (r * B)) with (A <? 2 * r).
  2:{ destruct (Z.ltb_spec A (2 * r)); symmetry; [apply Z.ltb_lt | apply Z.ltb_ge]; nia. }
  replace (2 * (r * B) =? A * B) with (2 * r =? A).
  2:{ destruct (Z.eqb_spec (2 * r) A); symmetry; [apply Z.eqb_eq | apply Z.eqb_neq]; nia. }
  reflexivity.
Qed.

Lemma scaled_product_spec (s : bool) (m : positive) (e : Z) :
  valid (S754_finite s m e) = true -> e <= -23 ->
  exists r,
    mul (S754_finite s m e) f32767 = r /\
    (r = S754_zero s \/ exists m' e', r = S754_finite s m' e' /\ -149 <= e' <= 105) /\
    lround_magnitude r = quantize (Zpos m * 2 ^ (e + 158)).
Proof.
  intros Hv He.
  destruct (mul_f32767_spec s m e Hv He) as (Hn & Hm1 & He1 & Hmul).
  destruct (valid_finite_inv s m e Hv) as (Hrange & _).
  cbv zeta in *.
  set (mx := Zpos m * 16776704) in *.
  set (n := Z.max (Z.log2 mx - 23) (-140 - e)) in *.
  set (m1 := rne mx n) in *.
  set (e1 := e - 9 + n) in *.
  (* the product as a scaled integer *)
  set (k := e + 149).
  assert (Hk : 0 <= k) by (unfold k; lia).
  assert (HP : 32767 * (Zpos m * 2 ^ (e + 158)) = mx * 2 ^ k).
  { unfold mx, k. replace (e + 158) with (9 + (e + 149)) by lia.
    rewrite Z.pow_add_r by lia. change (2 ^ 9) with 512. ring. }
  assert (Hmx : 0 < mx) by (unfold mx; lia).
  assert (Hlog : Z.log2 (mx * 2 ^ k) = k + Z.log2 mx) by (apply Z.log2_mul_pow2; lia).
  assert (Ht : Z.max (Z.log2 (mx * 2 ^ k) - 23) 9 = n + k).
  { rewrite Hlog. unfold n, k. lia. }
  assert (HQ : quantize (Zpos m * 2 ^ (e + 158)) = to_nearest_integer (m1 * 2 ^ (e1 + 158))).
  { unfold quantize, round24. rewrite HP. cbv zeta. rewrite Ht.
    rewrite rne_scale by lia. fold m1.
    replace (e1 + 158) with (n + k) by (unfold e1, k; lia). reflexivity. }
  eexists. split; [exact Hmul|].
  destruct (Z.eqb_spec m1 0) as [Hz|Hnz].
  - split; [left; reflexivity|]. rewrite HQ, Hz. reflexivity.
  - destruct (Z.eqb_spec m1 (2 ^ 24)) as [Hov|Hnov].
    + split; [right; exists 8388608%positive, (e1 + 1); split; [reflexivity | lia]|].
      cbn [lround_magnitude]. rewrite round_half_away_scaled by lia.
      rewrite HQ, Hov. f_equal.
      replace (e1 + 1 + 158) with (1 + (e1 + 158)) by lia.
      rewrite (Z.pow_add_r 2 1) by lia. change (2 ^ 24) with 16777216. lia.
    + split; [right; exists (Z.to_pos m1), e1; split; [reflexivity | lia]|].
      cbn [lround_magnitude]. rewrite round_half_away_scaled by lia.
      rewrite HQ, Z2Pos.id by lia. reflexivity.
Qed.

Lemma rne_mono (v1 v2 t : Z) :
  0 <= v1 <= v2 -> 0 <= t -> rne v1 t <= rne v2 t.
Proof.
  intros Hv Ht.
  set (A := 2 ^ t). assert (HA : 0 < A) by (apply Z.pow_pos_nonneg; lia).
  pose proof (Z.div_le_mono v1 v2 A HA ltac:(lia)) as Hq.
  pose proof (rne_range v1 t ltac:(lia)) as H1.
  pose proof (rne_range v2 t ltac:(lia)) as H2.
  fold A in H1, H2.
  destruct (Z.eq_dec (v1 / A) (v2 / A)) as [Heq|Hne]; [|lia].
  pose proof (Z.div_mod v1 A ltac:(lia)) as D1.
  pose proof (Z.div_mod v2 A ltac:(lia)) as D2.
  assert (Hr : v1 mod A <= v2 mod A) by nia.
  unfold rne. fold A. rewrite Heq.
  destruct (Z.ltb_spec A (2 * (v1 mod A))) as [Ha|Ha];
    destruct (Z.ltb_spec A (2 * (v2 mod A))) as [Hb|Hb];
    destruct (Z.eqb_spec (2 * (v1 mod A)) A) as [Hc|Hc];
    destruct (Z.eqb_spec (2 * (v2 mod A)) A) as [Hd|Hd];
    destruct (Z.odd (v2 / A)); cbn [orb andb]; lia.
Qed.

Lemma round24_mono (v1 v2 : Z) : 0 <= v1 <= v2 -> round24 v1 <= round24 v2.
Proof.
  intros Hv. unfold round24.
  set (t1 := Z.max (Z.log2 v1 - 23) 9). set (t2 := Z.max (Z.log2 v2 - 23) 9).
  pose proof (Z.log2_le_mono v1 v2 ltac:(lia)) as Hlog.
  assert (Ht : 9 <= t1 <= t2) by (unfold t1, t2; lia).
  destruct (Z.eq_dec t1 t2) as [Heq|Hne].
  - rewrite <- Heq. apply Z.mul_le_mono_nonneg_r; [apply Z.pow_nonneg; lia|].
    apply rne_mono; lia.
  - assert (Hlt : t1 < t2) by lia.
    assert (Ht2 : t2 = Z.log2 v2 - 23) by (unfold t2 in *; lia).
    assert (Hv2 : 0 < v2).
    { destruct (Z.eq_dec v2 0) as [->|]; [|lia]. cbn in Ht2. lia. }
    pose proof (log2_bounds v2 Hv2) as Hb2.
    set (A1 := 2 ^ t1). set (A2 := 2 ^ t2).
    assert (HA1 : 0 < A1) by (apply Z.pow_pos_nonneg; lia).
    assert (HA2 : 0 < A2) by (apply Z.pow_pos_nonneg; lia).
    (* the larger value rounds to at least 2^(t2+23) *)
    assert (Hlow : 2 ^ 23 * A2 <= rne v2 t2 * A2).
    { apply Z.mul_le_mono_nonneg_r; [lia|].
      pose proof (rne_range v2 t2 ltac:(lia)) as Hr. fold A2 in Hr.
      assert (2 ^ 23 <= v2 / A2); [|lia].
      apply Z.div_le_lower_bound; [lia|].
      unfold A2. rewrite Z.mul_comm, <- Z.pow_add_r by lia.
      replace (23 + t2) with (Z.log2 v2) by lia. lia. }
    (* the smaller one to at most 2^(t1+24) *)
    assert (Hhigh : rne v1 t1 * A1 <= 2 ^ 24 * A1).
    { apply Z.mul_le_mono_nonneg_r; [lia|].
      pose proof (rne_range v1 t1 ltac:(lia)) as Hr. fold A1 in Hr.
      assert (v1 / A1 < 2 ^ 24); [|lia].
      apply Z.div_lt_upper_bound; [lia|].
      destruct (Z.eq_dec v1 0) as [->|Hnz]; [lia|].
      pose proof (log2_bounds v1 ltac:(lia)) as Hb1.
      assert (2 ^ (Z.log2 v1 + 1) <= 2 ^ (t1 + 24))
        by (apply Z.pow_le_mono_r; unfold t1; lia).
      unfold A1. rewrite <- Z.pow_add_r by lia. lia. }
    assert (2 ^ 24 * A1 <= 2 ^ 23 * A2); [|lia].
    unfold A1, A2. rewrite <- !Z.pow_add_r by lia.
    apply Z.pow_le_mono_r; lia.
Qed.

Lemma to_nearest_integer_mono (v1 v2 : Z) :
  v1 <= v2 -> to_nearest_integer v1 <= to_nearest_integer v2.
Proof. intros H. unfold to_nearest_integer. apply Z.div_le_mono; lia. Qed.

Lemma quantize_mono (v1 v2 : Z) : 0 <= v1 <= v2 -> quantize v1 <= quantize v2.
Proof.
  intros H. unfold quantize. apply to_nearest_integer_mono, round24_mono. lia.
Qed.

Lemma quantize_zero : quantize 0 = 0.
Proof. reflexivity. Qed.

Lemma quantize_one : quantize (2 ^ 158) = 32767.
Proof. vm_compute. reflexivity. Qed.

Lemma quantize_range (v : Z) : 0 <= v <= 2 ^ 158 -> 0 <= quantize v <= 32767.
Proof.
  intros H. rewrite <- quantize_zero at 1. rewrite <- quantize_one.
  split; apply quantize_mono; lia.
Qed.

Lemma encode_value_range (v : Z) : -32767 <= encode_value v <= 32767.
Proof.
  unfold encode_value. cbv zeta.
  set (c := Z.max (- 2 ^ 158) (Z.min (2 ^ 158) v)).
  assert (Hc : - 2 ^ 158 <= c <= 2 ^ 158) by (unfold c; lia).
  destruct (Z.ltb_spec c 0).
  - pose proof (quantize_range (- c) ltac:(lia)). lia.
  - pose proof (quantize_range c ltac:(lia)). lia.
Qed.

Lemma encode_value_mono (v1 v2 : Z) : v1 <= v2 -> encode_value v1 <= encode_value v2.
Proof.
  intros H. unfold encode_value. cbv zeta.
  set (c1 := Z.max (- 2 ^ 158) (Z.min (2 ^ 158) v1)).
  set (c2 := Z.max (- 2 ^ 158) (Z.min (2 ^ 158) v2)).
  assert (Hc : - 2 ^ 158 <= c1 <= c2 /\ c2 <= 2 ^ 158) by (unfold c1, c2; lia).
  destruct (Z.ltb_spec c1 0); destruct (Z.ltb_spec c2 0).
  - pose proof (quantize_mono (- c2) (- c1) ltac:(lia)). lia.
  - pose proof (quantize_range (- c1) ltac:(lia)).
    pose proof (quantize_range c2 ltac:(lia)). lia.
  - lia.
  - apply quantize_mono. lia.
Qed.

Lemma magnitude_range (s : bool) (m : positive) (e : Z) :
  valid (S754_finite s m e) = true ->
  0 < Zpos m * 2 ^ (e + 158) < 2 ^ 300.
Proof.
  intros Hv. destruct (valid_finite_inv s m e Hv) as (He & Hm & _).
  assert (0 < 2 ^ (e + 158)) by (apply Z.pow_pos_nonneg; lia).
  assert (2 ^ (e + 158) <= 2 ^ 262) by (apply Z.pow_le_mono_r; lia).
  split; [lia|].
  apply Z.lt_le_trans with (2 ^ 24 * 2 ^ 262); [nia|].
  rewrite <- Z.pow_add_r by lia. apply Z.pow_le_mono_r; lia.
Qed.

Lemma magnitude_compare (s1 s2 : bool) (m1 m2 : positive) (e1 e2 : Z) :
  valid (S754_finite s1 m1 e1) = true ->
  valid (S754_finite s2 m2 e2) = true ->
  match e1 ?= e2 with
  | Lt => Lt
  | Gt => Gt
  | Eq => Pos.compare_cont Eq m1 m2
  end = (Zpos m1 * 2 ^ (e1 + 158) ?= Zpos m2 * 2 ^ (e2 + 158)).
Proof.
  intros H1 H2.
  destruct (valid_finite_inv s1 m1 e1 H1) as (He1 & Hm1 & Hn1).
  destruct (valid_finite_inv s2 m2 e2 H2) as (He2 & Hm2 & Hn2).
  assert (Hstep : forall ma mb ea eb : Z,
            -149 <= ea -> ea < eb -> 0 < ma < 2 ^ 24 -> 2 ^ 23 <= mb ->
            ma * 2 ^ (ea + 158) < mb * 2 ^ (eb + 158)).
  { intros ma mb ea eb Ha Hab Hma Hmb.
    replace (eb + 158) with ((eb - ea) + (ea + 158)) by lia.
    rewrite (Z.pow_add_r 2 (eb - ea) (ea + 158)) by lia.
    set (B := 2 ^ (ea + 158)). assert (0 < B) by (apply Z.pow_pos_nonneg; lia).
    assert (2 ^ 1 <= 2 ^ (eb - ea)) by (apply Z.pow_le_mono_r; lia).
    set (K := 2 ^ (eb - ea)) in *. change (2 ^ 1) with 2 in *.
    assert (Hl : ma * B < 2 ^ 24 * B) by (apply Z.mul_lt_mono_pos_r; lia).
    assert (Hmk : 2 ^ 24 <= mb * K).
    { change (2 ^ 24) with (2 ^ 23 * 2). apply Z.mul_le_mono_nonneg; lia. }
    assert (Hr : 2 ^ 24 * B <= mb * K * B) by (apply Z.mul_le_mono_nonneg_r; lia).
    rewrite Z.mul_assoc. lia. }
  destruct (Z.compare_spec e1 e2) as [Heq|Hlt|Hgt].
  - subst e2. change (Pos.compare_cont Eq m1 m2) with (Pos.compare m1 m2).
    rewrite Pos2Z.inj_compare.
    apply Zmult_compare_compat_r. 
    assert (0 < 2 ^ (e1 + 158)) by (apply Z.pow_pos_nonneg; lia). lia.
  - symmetry. apply Z.compare_lt_iff. apply Hstep; lia.
  - symmetry. apply Z.compare_gt_iff. apply Hstep; lia.
Qed.

Lemma compare_sval (x y : float32) :
  valid x = true -> valid y = true -> is_nan x = false -> is_nan y = false ->
  SFcompare x y = Some (sval x ?= sval y).
Proof.
  intros Hx Hy Nx Ny.
  destruct x as [sx|sx| |sx mx ex]; try discriminate;
  destruct y as [sy|sy| |sy my ey]; try discriminate;
    cbn [SFcompare sval];
    try pose proof (magnitude_range sx mx ex Hx) as Rx;
    try pose proof (magnitude_range sy my ey Hy) as Ry.
  - reflexivity.
  - destruct sy; reflexivity.
  - destruct sy; f_equal; symmetry; [apply Z.compare_gt_iff | apply Z.compare_lt_iff]; lia.
  - destruct sx; reflexivity.
  - destruct sx, sy; reflexivity.
  - destruct sx, sy; f_equal; symmetry;
      try (apply Z.compare_gt_iff; lia); apply Z.compare_lt_iff; lia.
  - destruct sx; f_equal; symmetry; [apply Z.compare_lt_iff | apply Z.compare_gt_iff]; lia.
  - destruct sx, sy; f_equal; symmetry;
      try (apply Z.compare_gt_iff; lia); apply Z.compare_lt_iff; lia.
  - f_equal. destruct sx, sy.
    + rewrite Z.compare_opp.
      rewrite (Z.compare_antisym (Zpos mx * 2 ^ (ex + 158)) (Zpos my * 2 ^ (ey + 158))).
      rewrite <- (magnitude_compare _ _ _ _ _ _ Hx Hy).
      destruct (ex ?= ey); reflexivity.
    + symmetry. apply Z.compare_lt_iff. lia.
    + symmetry. apply Z.compare_gt_iff. lia.
    + apply (magnitude_compare _ _ _ _ _ _ Hx Hy).
Qed.

Lemma sval_one : sval one = 2 ^ 158.
Proof. reflexivity. Qed.

Lemma sval_minus_one : sval minus_one = - 2 ^ 158.
Proof. reflexivity. Qed.

Lemma ltb_sval (x y : float32) :
  valid x = true -> valid y = true -> is_nan x = false -> is_nan y = false ->
  SFltb x y = (sval x <? sval y).
Proof.
  intros Hx Hy Nx Ny. unfold SFltb. rewrite (compare_sval x y Hx Hy Nx Ny).
  unfold Z.ltb. destruct (sval x ?= sval y); reflexivity.
Qed.

Lemma leb_sval (x y : float32) :
  valid x = true -> valid y = true -> is_nan x = false -> is_nan y = false ->
  SFleb x y = (sval x <=? sval y).
Proof.
  intros Hx Hy Nx Ny. unfold SFleb. rewrite (compare_sval x y Hx Hy Nx Ny).
  unfold Z.leb. destruct (sval x ?= sval y); reflexivity.
Qed.

Lemma le_not_nan (x y : float32) : le x y = true -> is_nan x = false /\ is_nan y = false.
Proof.
  unfold le, SFleb. destruct x, y; cbn; intros H; try discriminate; auto.
Qed.

Lemma clamp_spec (x : float32) :
  valid x = true -> is_nan x = false ->
  valid (clamp x) = true /\ is_nan (clamp x) = false /\
  sval (clamp x) = Z.max (- 2 ^ 158) (Z.min (2 ^ 158) (sval x)).
Proof.
  intros Hx Nx. unfold clamp, gt, lt.
  rewrite (ltb_sval one x) by (reflexivity || assumption). rewrite sval_one.
  destruct (Z.ltb_spec (2 ^ 158) (sval x)) as [Hhi|Hhi].
  - change (SFltb one minus_one) with false. cbv iota.
    repeat split. rewrite sval_one. lia.
  - rewrite (ltb_sval x minus_one) by (reflexivity || assumption). rewrite sval_minus_one.
    destruct (Z.ltb_spec (sval x) (- 2 ^ 158)) as [Hlo|Hlo].
    + repeat split. rewrite sval_minus_one. lia.
    + repeat split; try assumption. lia.
Qed.

Lemma clamp_idempotent (x : float32) : clamp (clamp x) = clamp x.
Proof.
  assert (H1 : clamp one = one) by reflexivity.
  assert (H2 : clamp minus_one = minus_one) by reflexivity.
  unfold clamp at 2 3.
  destruct (gt x one) eqn:Hg.
  - change (lt one minus_one) with false. cbv iota. exact H1.
  - destruct (lt x minus_one) eqn:Hl; [exact H2|].
    unfold clamp. rewrite Hg, Hl. reflexivity.
Qed.

Lemma to_int16_small (v : Z) : -32768 <= v <= 32767 -> to_int16 v = v.
Proof. intros H. unfold to_int16. rewrite Z.mod_small; lia. Qed.

Lemma small_exponent (s : bool) (m : positive) (e : Z) :
  valid (S754_finite s m e) = true ->
  Zpos m * 2 ^ (e + 158) <= 2 ^ 158 -> e <= -23.
Proof.
  intros Hv Hle. destruct (valid_finite_inv s m e Hv) as (He & Hm & Hn).
  destruct (Z_le_gt_dec e (-23)) as [H|H]; [exact H|].
  destruct Hn as [Hn|Hn]; [lia|].
  assert (2 ^ 136 <= 2 ^ (e + 158)) by (apply Z.pow_le_mono_r; lia).
  assert (2 ^ 23 * 2 ^ 136 <= Zpos m * 2 ^ (e + 158))
    by (apply Z.mul_le_mono_nonneg; lia).
  change (2 ^ 23 * 2 ^ 136) with (2 ^ 159) in *.
  assert (2 ^ 158 < 2 ^ 159) by (apply Z.pow_lt_mono_r; lia). lia.
Qed.

Section Encoder.

Variable L : libm.
Hypothesis long_is_wide : 32 <= long_bits L.

Lemma fits_long_s16 (v : Z) : -32767 <= v <= 32767 -> fits_long L v = true.
Proof.
  intros H. unfold fits_long.
  assert (2 ^ 31 <= 2 ^ (long_bits L - 1)) by (apply Z.pow_le_mono_r; lia).
  change (2 ^ 31) with 2147483648 in *.
  apply andb_true_intro. split; [apply Z.leb_le | apply Z.ltb_lt]; lia.
Qed.

Lemma encode_clamped (c : float32) :
  valid c = true -> is_nan c = false ->
  - 2 ^ 158 <= sval c <= 2 ^ 158 ->
  to_int16 (lroundf L (mul c f32767)) = encode_value (sval c).
Proof.
  intros Hv Hn Hr.
  destruct c as [s|s| |s m e]; try discriminate.
  - reflexivity.
  - cbn [sval] in Hr. destruct s; change (2 ^ 300) with (2 ^ 158 * 2 ^ 142) in Hr;
      assert (0 < 2 ^ 158) by (apply Z.pow_pos_nonneg; lia);
      assert (2 <= 2 ^ 142) by (change 2 with (2 ^ 1) at 1; apply Z.pow_le_mono_r; lia);
      nia.
  - pose proof (magnitude_range s m e Hv) as HM.
    set (M := Zpos m * 2 ^ (e + 158)) in *.
    assert (HMle : M <= 2 ^ 158) by (cbn [sval] in Hr; fold M in Hr; destruct s; lia).
    pose proof (small_exponent s m e Hv HMle) as He.
    destruct (scaled_product_spec s m e Hv He) as (r & Hmul & Hshape & Hval).
    fold M in Hval.
    pose proof (quantize_range M ltac:(lia)) as Hq.
    assert (Henc : encode_value (sval (S754_finite s m e))
                   = if s then - quantize M else quantize M).
    { unfold encode_value. cbn [sval]. fold M. cbv zeta.
      destruct s.
      - replace (Z.max (- 2 ^ 158) (Z.min (2 ^ 158) (- M))) with (- M) by lia.
        replace (- M <? 0) with true by (symmetry; apply Z.ltb_lt; lia).
        rewrite Z.opp_involutive. reflexivity.
      - replace (Z.max (- 2 ^ 158) (Z.min (2 ^ 158) M)) with M by lia.
        replace (M <? 0) with false by (symmetry; apply Z.ltb_ge; lia).
        reflexivity. }
    rewrite Henc, Hmul.
    destruct Hshape as [-> | (m' & e' & -> & He')].
    + cbn [lround_magnitude] in Hval. rewrite <- Hval. destruct s; reflexivity.
    + cbn [lround_magnitude] in Hval. cbn [lroundf]. cbv zeta. rewrite Hval.
      rewrite fits_long_s16 by (destruct s; lia).
      apply to_int16_small. destruct s; lia.
Qed.

Lemma f32_to_s16_value (x : float32) :
  valid x = true -> is_nan x = false ->
  f32_to_s16 L x = encode_value (sval x).
Proof.
  intros Hv Hn.
  destruct (clamp_spec x Hv Hn) as (Hcv & Hcn & Hcs).
  change (f32_to_s16 L x) with (to_int16 (lroundf L (mul (clamp x) f32767))).
  rewrite encode_clamped by (assumption || lia).
  rewrite Hcs. unfold encode_value. cbv zeta.
  replace (Z.max (- 2 ^ 158)
             (Z.min (2 ^ 158) (Z.max (- 2 ^ 158) (Z.min (2 ^ 158) (sval x)))))
    with (Z.max (- 2 ^ 158) (Z.min (2 ^ 158) (sval x))) by lia.
  reflexivity.
Qed.

End Encoder.

Lemma f32_to_s16_nan (L : libm) :
  f32_to_s16 L S754_nan = to_int16 (lround_unspecified L S754_nan).
Proof. reflexivity. Qed.

Example f32_to_s16_half : f32_to_s16 linux64 half = 16384.
Proof. reflexivity. Qed.

Example f32_to_s16_below_one :
  f32_to_s16 linux64 (S754_finite false 16777215 (-24)) = 32767.
Proof. reflexivity. Qed.

Example f32_to_s16_minus_infinity : f32_to_s16 linux64 (S754_infinity true) = -32767.
Proof. reflexivity. Qed.

(* ===================================================================== *)
(** * Part VII. The statements of the specification                      *)
(* ===================================================================== *)

(** C1 as it is stated fails in its example: ten pushes of 200 samples
    into a running client with an empty queue yield one frame, and leave
    400 samples in the queue, not 200. *)
Lemma ten_pushes_of_200_leave_400 :
  let w := push_all linux64 env_quiet (repeat (repeat half 200) 10) world_running in
  pending_ (self world_running) = [] /\
  List.length (frames_written (events_since world_running w)) = 1%nat /\
  List.length (pending_ (self w)) = 400%nat /\
  List.length (pending_ (self w)) <> 200%nat.
Proof. vm_compute. repeat split; try reflexivity. discriminate. Qed.

(** C1, amended.  For every sequence of pushes into a client that is
    running with an open stream, with no rotation in flight or due and a
    remote side that accepts the writes: the frames written are the
    frames of the whole of what was buffered and pushed, taken from its
    front in chunks of 1600 and in order; their number is the total
    length divided by 1600, rounded down; what stays in the queue is the
    rest, of length the total modulo 1600; and the counter has advanced
    by 1600 for each frame.  (Ten pushes of 200 samples: one frame, 400
    samples left.) *)
Theorem pushes_drain_in_fifo_chunks
    (L : libm) (E : environment) (pushes : list (list float32)) (w : world) :
  running_ (self w) = true ->
  rotating_ (self w) = false ->
  stream_of (self w) <> None ->
  (List.length (pending_ (self w)) < CHUNK)%nat ->
  (forall i, (writes_issued w <= i)%nat -> write_ok E i = true) ->
  (forall i, (clock_reads w <= i)%nat ->
     (now_ms_at E i mod uint64_max - start_ms_ (self w)) mod uint64_max
       <= rotate_interval_ms_ (self w)) ->
  let total := pending_ (self w) ++ List.concat pushes in
  let w' := push_all L E pushes w in
  let frames := frames_written (events_since w w') in
  frames = frames_of L total /\
  List.length frames = (List.length total / CHUNK)%nat /\
  Forall (fun f => List.length f = CHUNK) frames /\
  pending_ (self w') = skipn (List.length total / CHUNK * CHUNK) total /\
  List.length (pending_ (self w')) = (List.length total mod CHUNK)%nat /\
  List.concat frames ++ map (f32_to_s16 L) (pending_ (self w')) = map (f32_to_s16 L) total /\
  sent_samples_ (self w') = bump (List.length total / CHUNK) (sent_samples_ (self w)) /\
  running_ (self w') = true.
Proof.
  intros Hr Hg Hs Hp Hw Hc. cbv zeta.
  assert (Hst : steady E w) by (unfold steady; auto 10).
  destruct (push_all_steady L E pushes w Hst) as (Hst' & H1 & H2 & H3).
  rewrite (events_since_app _ _ _ H3), frames_written_audio.
  rewrite H1, H2.
  repeat split.
  - apply length_frames_of.
  - apply frames_full.
  - apply length_remainder_of.
  - apply frames_in_order.
  - apply Hst'.
Qed.

Lemma pushes_drain_in_fifo_chunks_witness :
  let pushes := repeat (repeat half 200) 10 in
  let w := world_running in
  let w' := push_all linux64 env_quiet pushes w in
  List.length (frames_written (events_since w w')) = 1%nat /\
  List.length (pending_ (self w')) = 400%nat.
Proof.
  cbv zeta.
  assert (H1 : running_ (self world_running) = true) by reflexivity.
  assert (H2 : rotating_ (self world_running) = false) by reflexivity.
  assert (H3 : stream_of (self world_running) <> None) by discriminate.
  assert (H4 : (List.length (pending_ (self world_running)) < CHUNK)%nat)
    by (unfold CHUNK; cbn; lia).
  assert (H5 : forall i, (writes_issued world_running <= i)%nat ->
                         write_ok env_quiet i = true) by reflexivity.
  assert (H6 : forall i, (clock_reads world_running <= i)%nat ->
             (now_ms_at env_quiet i mod uint64_max - start_ms_ (self world_running))
               mod uint64_max <= rotate_interval_ms_ (self world_running))
    by (intros i _; vm_compute; discriminate).
  destruct (pushes_drain_in_fifo_chunks linux64 env_quiet (repeat (repeat half 200) 10)
              world_running H1 H2 H3 H4 H5 H6) as (_ & Hn & _ & _ & Hl & _).
  split; [rewrite Hn | rewrite Hl]; reflexivity.
Defined.

(** C2 as it is stated fails in two ways.  On a client built without a
    host, the configuration write is refused, [start] returns failure,
    and no Detection Result is delivered at all, line 85 guarding the
    callback on [gf_].  And on a client whose session has ended by a
    refused audio write (3200 samples pushed, the second frame refused:
    line 190 clears [running_] and no thread is joined), a [start] that
    fails at the configuration returns failure and leaves the reader
    thread of that session where it was, joinable and its body still to
    run: nothing between line 51 and line 95 joins it. *)
Lemma config_failure_is_silent_or_leaves_a_reader :
  (let w := world_new None in
   let o := start env_refusing "key" "en" w in
   running_ (self w) = false /\
   stream_created env_refusing (streams_opened w) = true /\
   write_ok env_refusing (writes_issued w) = false /\
   value_of o = Some false /\
   callbacks (events_since w (world_of o)) = [] /\
   List.length (callbacks (events_since w (world_of o))) <> 1%nat) /\
  (let w0 := world_of (start env_failing "key" "en" (world_new (Some host_en))) in
   let w := world_of (pushFloat16k linux64 env_failing HostThread
                        (Some (repeat half 3200)) 3200 w0) in
   let o := start env_failing "key" "en" w in
   running_ (self w0) = true /\
   List.length (frames_written (events_since w0 w)) = 2%nat /\
   writes_issued w = 3%nat /\
   running_ (self w) = false /\
   stream_created env_failing (streams_opened w) = true /\
   write_ok env_failing (writes_issued w) = false /\
   value_of o = Some false /\
   threads_started (events_since w (world_of o)) = [] /\
   reader_ (self (world_of o)) = true /\
   reader_live (world_of o) = true).
Proof.
  split.
  - vm_compute. repeat split; try reflexivity. discriminate.
  - vm_compute. repeat split; reflexivity.
Qed.

(** C2, amended.  When the stream is created and the configuration write
    is refused, [start] returns failure; the host, when there is one,
    receives exactly one Detection Result, a PARTIAL one carrying the
    diagnostic text, and without a host none is delivered; no thread is
    started and the reader is as before, so that on a client without a
    reader thread before the call (as the constructor and [stop()] leave
    it) no reader thread is left: [reader_] is not joinable and no body
    of a reader thread is still to run; the handle is released and the
    client is not running. *)
Theorem start_config_write_failure
    (E : environment) (api_key lang : string) (w : world) :
  running_ (self w) = false ->
  stream_created E (streams_opened w) = true ->
  write_ok E (writes_issued w) = false ->
  let o := start E api_key lang w in
  let t := now_ms_at E (S (clock_reads w)) mod uint64_max in
  value_of o = Some false /\
  callbacks (events_since w (world_of o)) =
    match gf_ (self w) with
    | Some _ => [ {| result := DETECTION_RESULT_PARTIAL;
                     text := config_error_text;
                     start_timestamp_ms := t;
                     end_timestamp_ms := t;
                     language := "en" |} ]
    | None => []
    end /\
  threads_started (events_since w (world_of o)) = [] /\
  reader_ (self (world_of o)) = reader_ (self w) /\
  reader_live (world_of o) = reader_live w /\
  (reader_ (self w) = false -> reader_live w = false ->
   reader_ (self (world_of o)) = false /\ reader_live (world_of o) = false) /\
  running_ (self (world_of o)) = false /\
  impl_ (self (world_of o)) = None /\
  In ImplReleased (events_since w (world_of o)).
Proof.
  intros Hr Hs Hw. cbv zeta.
  rewrite (start_config_refused E api_key lang w Hr Hs Hw). cbn [value_of world_of].
  rewrite (events_since_app w _
             (released w ++ [NetOpen api_key true] ++ [NetWrite (cfgReq lang) false]
                ++ config_diagnostic E w ++ [ImplReleased]))
    by (cbn [trace]; rewrite <- !app_assoc; reflexivity).
  unfold released, config_diagnostic, config_error.
  open_world w. subst.
  destruct impl0, gf0; cbn; repeat split; auto 10.
Qed.

(** A fresh client with a host, facing a remote side that refuses the
    configuration: one diagnostic, and no reader thread. *)
Lemma start_config_write_failure_witness :
  let w := world_new (Some host_en) in
  running_ (self w) = false /\
  stream_created env_refusing (streams_opened w) = true /\
  write_ok env_refusing (writes_issued w) = false /\
  reader_ (self w) = false /\
  reader_live w = false /\
  let o := start env_refusing "key" "en" w in
  value_of o = Some false /\
  callbacks (events_since w (world_of o)) =
    [ {| result := DETECTION_RESULT_PARTIAL;
         text := config_error_text;
         start_timestamp_ms := 1001;
         end_timestamp_ms := 1001;
         language := "en" |} ] /\
  threads_started (events_since w (world_of o)) = [] /\
  reader_ (self (world_of o)) = false /\
  reader_live (world_of o) = false /\
  running_ (self (world_of o)) = false /\
  impl_ (self (world_of o)) = None /\
  In ImplReleased (events_since w (world_of o)).
Proof.
  cbv zeta.
  destruct (start_config_write_failure env_refusing "key" "en" (world_new (Some host_en))
              eq_refl eq_refl eq_refl)
    as (H1 & H2 & H3 & _ & _ & H4 & H5 & H6 & H7).
  destruct (H4 eq_refl eq_refl) as (H8 & H9).
  do 5 (split; [reflexivity|]).
  split; [exact H1|]. split; [exact H2|]. split; [exact H3|].
  split; [exact H8|]. split; [exact H9|]. split; [exact H5|]. split; [exact H6 | exact H7].
Defined.

(** C3.  In every state that the calls of [requestRotate], the rotation
    tasks and the other member functions reach from a state with the flag
    clear: at most one thread holds the rotation gate, and one does
    exactly when the flag is set; a compare-and-swap succeeds only when
    none holds it, and of the swaps of a race exactly one succeeds; one
    that fails changes nothing in the shared state; a step that clears
    the flag is the last assignment of a rotation task; and a rotation
    task comes to that assignment only after its [stop()] and then its
    [start()], whatever [start()] returned, and can then always take it.
    The threads are the member functions: a call that stands before its
    swap, taken to its end with no other thread in between, is
    [requestRotate] on the shared state; it returns and leaves the flag
    set, it changes nothing when it finds the flag set, and otherwise it
    starts the rotation task.  A rotation task that stands before its
    [stop()], taken to its end with no other thread in between, is
    [doRotate] on the shared state; it returns, whatever its [start()]
    gave, and leaves the flag clear and the gate without a holder. *)
Theorem one_rotation_at_a_time
    (L : libm) (E : environment) (sys0 sys : system) (ls : list label) :
  initial sys0 ->
  run L E sys0 ls sys ->
  (in_flight (pool sys) <= 1)%nat /\
  (rotating sys = true <-> in_flight (pool sys) = 1%nat) /\
  (forallb is_swap ls = true -> ls <> [] -> winners ls = 1%nat) /\
  (forall l sys',
     step L E l sys sys' ->
     (forall i, l = DoSwap i true ->
        in_flight (pool sys) = 0%nat /\ in_flight (pool sys') = 1%nat) /\
     (forall i, l = DoSwap i false ->
        in_flight (pool sys) = 1%nat /\ shared sys' = shared sys) /\
     (rotating sys = true -> rotating sys' = false ->
        exists i started,
          l = DoClear i /\
          nth_error (pool sys) i = Some (Rotation (ToClear started)))) /\
  (forall i started,
     nth_error (pool sys) i = Some (Rotation (ToClear started)) ->
     (exists later earlier,
        ls = later ++ DoStart i started :: earlier /\ In (DoStop i) earlier) /\
     (exists sys', step L E (DoClear i) sys sys' /\ rotating sys' = false)) /\
  (forall i me,
     nth_error (pool sys) i = Some (Requesting me AtSwap) ->
     exists sys',
       run L E sys
         (if rotating sys then [DoSwap i false] else [DoSpawn i; DoSwap i true]) sys' /\
       requestRotate me (shared sys) = Returned tt (shared sys') /\
       pool sys' =
         (if rotating sys then set_thread i (Requesting me (Left false)) (pool sys)
          else set_thread i (Requesting me (Left true)) (pool sys) ++ [Rotation ToStop]) /\
       (rotating sys = true -> shared sys' = shared sys) /\
       rotating sys' = true) /\
  (forall i,
     nth_error (pool sys) i = Some (Rotation ToStop) ->
     exists started sys',
       run L E sys [DoClear i; DoStart i started; DoStop i] sys' /\
       doRotate E (shared sys) = Returned tt (shared sys') /\
       pool sys' = set_thread i (Rotation Finished) (pool sys) /\
       rotating sys' = false /\
       in_flight (pool sys') = 0%nat).
Proof.
  intros Hinit Hrun.
  pose proof (run_keeps_invariant L E sys0 sys ls Hrun (initial_invariant sys0 Hinit)) as Hinv.
  assert (Hreach : forall ls' sys', run L E sys ls' sys' -> gate_invariant sys').
  { intros ls' sys' Hr. apply (run_keeps_invariant L E sys sys' ls' Hr Hinv). }
  unfold gate_invariant in Hinv.
  split; [rewrite Hinv; destruct (rotating sys); cbn; lia|].
  split; [rewrite Hinv; destruct (rotating sys); cbn; split; congruence|].
  split.
  { intros Hall Hne. destruct Hinit as (H0 & _).
    destruct (swaps_elect_one L E sys0 sys ls H0 Hrun Hall) as (Hw & Hon).
    rewrite Hw, (Hon Hne). reflexivity. }
  split.
  { intros l sys' Hstep.
    pose proof (step_keeps_invariant L E l sys sys' Hstep Hinv) as Hinv'.
    unfold gate_invariant in Hinv'.
    destruct (step_on_flag L E l sys sys' Hstep) as (Hclear & Hlost & Hwon).
    split; [|split].
    + intros i Hl. destruct (Hwon i Hl) as (Hoff & Hon).
      rewrite Hinv, Hinv', Hoff, Hon. split; reflexivity.
    + intros i Hl. destruct (Hlost i Hl) as (Hon & Hsame & _).
      rewrite Hinv, Hon. split; [reflexivity | exact Hsame].
    + intros Hon Hoff. destruct (Hclear Hon Hoff) as (i & started & Hl & Hn & _).
      exists i, started. split; assumption. }
  split.
  { intros i started Hn. split.
    + destruct Hinit as (_ & Hc).
      apply (rotation_history L E sys0 sys ls Hc Hrun i). exact Hn.
    + apply (rotation_clears L E sys i started Hn). }
  split.
  - intros i me Hn.
    destruct (call_in_the_pool L E sys i me Hn) as (sys' & Hr & Hq & Hp).
    exists sys'. split; [exact Hr|]. split; [exact Hq|]. split; [exact Hp|].
    assert (Hw : shared sys' = world_of (requestRotate me (shared sys)))
      by (rewrite Hq; reflexivity).
    rewrite requestRotate_in_steps, swap_spec in Hw. unfold rotating in *.
    destruct (rotating_ (self (shared sys))) eqn:Hg.
    + cbn [world_of] in Hw. rewrite Hw. auto.
    + split; [discriminate|]. rewrite Hw, keeps_gate_respawn.
      destruct (shared sys) as [[]]; reflexivity.
  - intros i Hn.
    destruct (task_in_the_pool L E sys i Hn) as (started & sys' & Hr & Hq & Hoff & Hp).
    exists started, sys'. repeat (split; [assumption|]).
    pose proof (Hreach _ _ Hr) as Hinv'. unfold gate_invariant in Hinv'.
    rewrite Hinv', Hoff. reflexivity.
Qed.

(** Two calls race on a running client: the first wins the swap, the
    second loses it and changes nothing, the winner starts the rotation
    task, and the task stops the session, starts the next one and clears
    the flag. *)
Lemma one_rotation_at_a_time_witness :
  initial race_start /\
  run linux64 env_quiet race_start [DoSwap 1 false; DoSwap 0 true] race_end /\
  run linux64 env_quiet race_start
    [DoClear 2; DoStart 2 true; DoStop 2; DoSpawn 0; DoSwap 1 false; DoSwap 0 true]
    race_rotated /\
  (in_flight (pool race_end) <= 1)%nat /\
  winners [DoSwap 1 false; DoSwap 0 true] = 1%nat /\
  (exists sys',
     run linux64 env_quiet race_start [DoSpawn 0; DoSwap 0 true] sys' /\
     requestRotate HostThread (shared race_start) = Returned tt (shared sys') /\
     rotating sys' = true) /\
  requestRotate HostThread (shared race_start) = Returned tt (shared race_spawned) /\
  requestRotate ReaderThread (shared race_end) = Returned tt (shared race_end) /\
  in_flight (pool race_spawned) = 1%nat /\
  (exists started sys',
     run linux64 env_quiet race_spawned [DoClear 2; DoStart 2 started; DoStop 2] sys' /\
     doRotate env_quiet (shared race_spawned) = Returned tt (shared sys') /\
     rotating sys' = false) /\
  doRotate env_quiet (shared race_spawned) = Returned tt (shared race_rotated) /\
  rotating race_rotated = false /\
  in_flight (pool race_rotated) = 0%nat.
Proof.
  assert (Hinit : initial race_start) by (split; reflexivity).
  pose (w1 := set_self (set_rotating_ true (self world_running)) world_running).
  pose (ts1 := [Requesting HostThread AtSpawn; Requesting ReaderThread AtSwap]).
  assert (Hrun : run linux64 env_quiet race_start [DoSwap 1 false; DoSwap 0 true] race_end).
  { apply (run_snoc linux64 env_quiet race_start [DoSwap 0 true]
             {| shared := w1; pool := ts1 |} (DoSwap 1 false) race_end).
    - apply (run_snoc linux64 env_quiet race_start [] race_start (DoSwap 0 true)
               {| shared := w1; pool := ts1 |} (run_nil linux64 env_quiet race_start)).
      exact (step_swap linux64 env_quiet world_running (pool race_start) 0 HostThread
               true w1 eq_refl eq_refl).
    - exact (step_swap linux64 env_quiet w1 ts1 1 ReaderThread false w1 eq_refl eq_refl). }
  pose (t2 := [Requesting HostThread AtSpawn; Requesting ReaderThread (Left false)]).
  pose (t3 := [Requesting HostThread (Left true); Requesting ReaderThread (Left false);
               Rotation ToStop]).
  pose (ta := [Requesting HostThread (Left true); Requesting ReaderThread (Left false);
               Rotation ToStart]).
  pose (tb := [Requesting HostThread (Left true); Requesting ReaderThread (Left false);
               Rotation (ToClear true)]).
  pose (tc := [Requesting HostThread (Left true); Requesting ReaderThread (Left false);
               Rotation Finished]).
  pose (w3 := world_of (respawn_rotator HostThread (shared race_end))).
  pose (wa := world_of (stop env_quiet w3)).
  pose (wb := world_of (start env_quiet (api_key_ (self wa)) (language_code_ (self wa)) wa)).
  pose (wc := world_of (doRotate env_quiet (shared race_spawned))).
  assert (Hspawn : step linux64 env_quiet (DoSpawn 0) race_end
                     {| shared := w3; pool := t3 |}).
  { apply (step_spawn linux64 env_quiet w1 t2 0 HostThread w3 eq_refl).
    vm_compute. reflexivity. }
  assert (Hstop : step linux64 env_quiet (DoStop 2) {| shared := w3; pool := t3 |}
                    {| shared := wa; pool := ta |}).
  { apply (step_rotation_stop linux64 env_quiet w3 t3 2 wa eq_refl).
    vm_compute. reflexivity. }
  assert (Hstart : step linux64 env_quiet (DoStart 2 true) {| shared := wa; pool := ta |}
                     {| shared := wb; pool := tb |}).
  { apply (step_rotation_start linux64 env_quiet wa ta 2 true wb eq_refl).
    vm_compute. reflexivity. }
  assert (Hclear : step linux64 env_quiet (DoClear 2) {| shared := wb; pool := tb |}
                     {| shared := wc; pool := tc |}).
  { apply (step_rotation_clear linux64 env_quiet wb tb 2 true wc eq_refl).
    vm_compute. reflexivity. }
  assert (Hspawned : run linux64 env_quiet race_start
                       [DoSpawn 0; DoSwap 1 false; DoSwap 0 true] race_spawned).
  { exact (run_snoc _ _ _ _ _ _ _ Hrun Hspawn). }
  assert (Hrot : run linux64 env_quiet race_start
                   [DoClear 2; DoStart 2 true; DoStop 2; DoSpawn 0; DoSwap 1 false;
                    DoSwap 0 true] race_rotated).
  { exact (run_snoc _ _ _ _ _ _ _
             (run_snoc _ _ _ _ _ _ _ (run_snoc _ _ _ _ _ _ _ Hspawned Hstop) Hstart) Hclear). }
  split; [exact Hinit|]. split; [exact Hrun|]. split; [exact Hrot|].
  destruct (one_rotation_at_a_time linux64 env_quiet race_start race_end
              [DoSwap 1 false; DoSwap 0 true] Hinit Hrun) as (H1 & _ & H3 & _).
  split; [exact H1|].
  split; [apply H3; [reflexivity | discriminate]|].
  split.
  { destruct (one_rotation_at_a_time linux64 env_quiet race_start race_start []
                Hinit (run_nil linux64 env_quiet race_start))
      as (_ & _ & _ & _ & _ & H6 & _).
    destruct (H6 0%nat HostThread eq_refl) as (sys' & Hr & Hq & _ & _ & Hon).
    assert (Hoff : rotating race_start = false) by (vm_compute; reflexivity).
    rewrite Hoff in Hr.
    exists sys'. split; [exact Hr|]. split; [exact Hq | exact Hon]. }
  split; [vm_compute; reflexivity|].
  split; [vm_compute; reflexivity|].
  destruct (one_rotation_at_a_time linux64 env_quiet race_start race_spawned
              [DoSpawn 0; DoSwap 1 false; DoSwap 0 true] Hinit Hspawned)
    as (_ & H2 & _ & _ & _ & _ & H7).
  split; [apply H2; vm_compute; reflexivity|].
  split.
  { destruct (H7 2%nat eq_refl) as (started & sys' & Hr & Hq & _ & Hoff & _).
    exists started, sys'. split; [exact Hr|]. split; [exact Hq | exact Hoff]. }
  split; [vm_compute; reflexivity|].
  split; vm_compute; reflexivity.
Defined.

(** C4.  The read loop of a running Result Consumer, over the responses
    the stream delivers: the only events are callbacks, one for each
    response whose text is not empty and none without a host, in the
    order of the responses; the text delivered is the concatenation of
    the top alternatives' transcripts over the entries of the response;
    the result is final (DETECTION_RESULT_SPEECH) if an entry was marked
    final and partial otherwise; the language is the configured
    transcription language, else the base recognition language, else
    "en"; the start timestamp is 0 and the end timestamp is the clock
    reading taken for that callback. *)
Theorem read_loop_delivers
    (E : environment) (resps : list StreamingRecognizeResponse) (w : world) :
  running_ (self w) = true ->
  let o := read_loop E resps w in
  let ds := deliveries E (gf_ (self w)) (clock_reads w) resps in
  value_of o = Some tt /\
  events_since w (world_of o) = map (fun d => HostCallback (fst d) (snd d)) ds /\
  callbacks (events_since w (world_of o)) = map snd ds /\
  Forall (fun d =>
            exists g resp,
              gf_ (self w) = Some g /\ In resp resps /\
              text (snd d) = response_text resp /\
              is_empty (response_text resp) = false /\
              result (snd d) = (if response_final resp then DETECTION_RESULT_SPEECH
                                else DETECTION_RESULT_PARTIAL) /\
              language (snd d) = fallback_language g /\
              start_timestamp_ms (snd d) = 0 /\
              end_timestamp_ms (snd d) = fst d) ds /\
  (forall g, gf_ (self w) = Some g ->
     List.length ds =
       List.length (filter (fun r => negb (is_empty (response_text r))) resps)).
Proof.
  intros Hr. cbv zeta. rewrite (read_loop_spec E resps w Hr). cbn [value_of world_of].
  split; [reflexivity|].
  rewrite (events_since_app w _
             (map (callback_event) (deliveries E (gf_ (self w)) (clock_reads w) resps)))
    by reflexivity.
  split; [reflexivity|]. split.
  - induction (deliveries E (gf_ (self w)) (clock_reads w) resps) as [|d ds IH];
      [reflexivity|]. cbn. unfold callbacks in IH. now rewrite IH.
  - split; [apply deliveries_sound|].
    intros g Hg. rewrite Hg. generalize (clock_reads w). clear.
    induction resps as [|r rest IH]; intros c; [reflexivity|].
    cbn [deliveries filter].
    destruct (is_empty (response_text r)); cbn [negb List.length]; now rewrite IH.
Qed.

Lemma read_loop_delivers_witness :
  running_ (self world_running) = true /\
  callbacks (events_since world_running
               (world_of (read_loop env_quiet [response_hel; response_blank; response_hello]
                            world_running)))
  = [ {| result := DETECTION_RESULT_PARTIAL; text := "hel";
         start_timestamp_ms := 0; end_timestamp_ms := 1000; language := "uk" |};
      {| result := DETECTION_RESULT_SPEECH; text := "hello";
         start_timestamp_ms := 0; end_timestamp_ms := 1000; language := "uk" |} ].
Proof.
  split; [reflexivity|].
  assert (Hrun : running_ (self world_running) = true) by reflexivity.
  destruct (read_loop_delivers env_quiet [response_hel; response_blank; response_hello]
              world_running Hrun) as (_ & _ & H & _).
  rewrite H. reflexivity.
Defined.

(** C5.  On a platform whose [long] has at least 32 bits and whose
    [lroundf] turns a NaN into a value that [int16_t] does not read as
    -32768: for every binary32 input the encoder is the clamp to
    [-1.0, 1.0] followed by the product with 32767 and [lroundf]; on
    every input that is not a NaN its result is the value clamped,
    scaled and rounded to the nearest integer; the result lies in
    [-32767, 32767]; the encoder is monotonic; and clamping the input
    beforehand changes nothing. *)
Theorem encoder_is_clamped_bounded_monotone (L : libm) :
  32 <= long_bits L ->
  -32767 <= to_int16 (lround_unspecified L S754_nan) <= 32767 ->
  (forall x, f32_to_s16 L x = to_int16 (lroundf L (mul (clamp x) f32767))) /\
  (forall x, valid x = true -> is_nan x = false ->
             f32_to_s16 L x = encode_value (sval x)) /\
  (forall x, valid x = true -> -32767 <= f32_to_s16 L x <= 32767) /\
  (forall x y, valid x = true -> valid y = true -> le x y = true ->
               f32_to_s16 L x <= f32_to_s16 L y) /\
  (forall x, f32_to_s16 L (clamp x) = f32_to_s16 L x).
Proof.
  intros Hlong Hnan.
  split; [reflexivity|].
  split; [intros x Hv Hn; apply f32_to_s16_value; assumption|].
  split; [|split].
  - intros x Hv. destruct (is_nan x) eqn:Hn.
    + destruct x; try discriminate. rewrite f32_to_s16_nan. exact Hnan.
    + rewrite (f32_to_s16_value L Hlong x Hv Hn). apply encode_value_range.
  - intros x y Hx Hy Hle.
    destruct (le_not_nan x y Hle) as (Nx & Ny).
    rewrite (f32_to_s16_value L Hlong x Hx Nx), (f32_to_s16_value L Hlong y Hy Ny).
    apply encode_value_mono.
    unfold le in Hle. rewrite (leb_sval x y Hx Hy Nx Ny) in Hle.
    apply Z.leb_le. exact Hle.
  - intros x.
    change (f32_to_s16 L (clamp x))
      with (to_int16 (lroundf L (mul (clamp (clamp x)) f32767))).
    rewrite clamp_idempotent. reflexivity.
Qed.

Lemma encoder_is_clamped_bounded_monotone_witness :
  32 <= long_bits linux64 /\
  -32767 <= to_int16 (lround_unspecified linux64 S754_nan) <= 32767 /\
  (forall x, f32_to_s16 linux64 x = to_int16 (lroundf linux64 (mul (clamp x) f32767))) /\
  (forall x, valid x = true -> is_nan x = false ->
             f32_to_s16 linux64 x = encode_value (sval x)) /\
  (forall x, valid x = true -> -32767 <= f32_to_s16 linux64 x <= 32767) /\
  (forall x y, valid x = true -> valid y = true -> le x y = true ->
               f32_to_s16 linux64 x <= f32_to_s16 linux64 y) /\
  (forall x, f32_to_s16 linux64 (clamp x) = f32_to_s16 linux64 x).
Proof.
  assert (H1 : 32 <= long_bits linux64) by (cbn; lia).
  assert (H2 : -32767 <= to_int16 (lround_unspecified linux64 S754_nan) <= 32767)
    by (vm_compute; split; discriminate).
  split; [exact H1|]. split; [exact H2|].
  exact (encoder_is_clamped_bounded_monotone linux64 H1 H2).
Defined.

(** C6.  When the [j]-th audio write of a call of [pushFloat16k] is
    refused: the call returns with the client marked not running; the
    frames handed to [Write] in that call are the first [j] and the
    refused one, each once, and none after it; every later call of
    [pushFloat16k], whatever its arguments, leaves the world as it is;
    and no member function but [start], which a restart calls and which
    the rotation task calls, marks the client running again. *)
Theorem push_write_failure_is_fatal
    (L : libm) (E : environment) (me : thread_id)
    (d : list float32) (n : nat) (w : world) (j : nat) :
  running_ (self w) = true ->
  n <> 0%nat ->
  rotating_ (self w) = false ->
  rotation_due E w = false ->
  stream_of (self w) <> None ->
  let frames := frames_of L (pending_ (self w) ++ firstn n d) in
  first_refusal E (writes_issued w) (List.length frames) = Some j ->
  let o := pushFloat16k L E me (Some d) n w in
  value_of o = Some tt /\
  running_ (self (world_of o)) = false /\
  frames_written (events_since w (world_of o)) = firstn (S j) frames /\
  writes_issued (world_of o) = (writes_issued w + S j)%nat /\
  (forall me' data' n',
     pushFloat16k L E me' data' n' (world_of o) = Returned tt (world_of o)) /\
  (forall pushes, push_all L E pushes (world_of o) = world_of o) /\
  (forall w', running_ (self w') = false ->
     running_ (self (world_of (stop E w'))) = false /\
     running_ (self (world_of (resultsThread E w'))) = false /\
     (forall me', running_ (self (world_of (requestRotate me' w'))) = false) /\
     (forall me' data' n', pushFloat16k L E me' data' n' w' = Returned tt w')).
Proof.
  intros Hr Hn Hg Hd Hs frames Hj. cbv zeta.
  rewrite (push_steady L E me d n w Hr Hn Hg Hd). cbn [value_of world_of].
  fold frames.
  set (wd := drained (queued (firstn n d) w)).
  assert (Hwd : stream_of (self wd) = stream_of (self w) /\
                writes_issued wd = writes_issued w /\ trace wd = trace w)
    by (subst wd; destruct_world w; repeat split; reflexivity).
  destruct Hwd as (Hs' & Hw' & Ht').
  destruct (after_sending_frames E frames wd) as (_ & _ & _ & Hf & Hwi & Hrun).
  rewrite Hs', Hw', Hj in Hf, Hwi, Hrun.
  destruct (stream_of (self w)) as [k|] eqn:Hk; [|congruence].
  assert (Hev : events_since w (after_sending E frames wd)
                = events_since wd (after_sending E frames wd))
    by (unfold events_since; now rewrite Ht').
  assert (Hnoop : forall me' data' n',
             pushFloat16k L E me' data' n' (after_sending E frames wd)
             = Returned tt (after_sending E frames wd))
    by (intros; apply push_idle; auto).
  repeat split.
  - exact Hrun.
  - rewrite Hev. exact Hf.
  - exact Hwi.
  - exact Hnoop.
  - intros pushes. induction pushes as [|p ps IH]; [reflexivity|].
    cbn [push_all]. rewrite Hnoop. exact IH.
  - apply (only_start_recovers L E w' H).
  - apply (only_start_recovers L E w' H).
  - apply (only_start_recovers L E w' H).
  - apply (only_start_recovers L E w' H).
Qed.

Lemma push_write_failure_is_fatal_witness :
  let d := repeat half 4800 in
  let w := world_running in
  let o := pushFloat16k linux64 env_failing HostThread (Some d) 4800 w in
  first_refusal env_failing (writes_issued w)
    (List.length (frames_of linux64 (pending_ (self w) ++ firstn 4800 d))) = Some 1%nat /\
  running_ (self (world_of o)) = false /\
  writes_issued (world_of o) = (writes_issued w + 2)%nat.
Proof.
  cbv zeta.
  assert (Hj : first_refusal env_failing (writes_issued world_running)
                 (List.length (frames_of linux64
                    (pending_ (self world_running) ++ firstn 4800 (repeat half 4800))))
               = Some 1%nat) by (vm_compute; reflexivity).
  split; [exact Hj|].
  assert (H1 : running_ (self world_running) = true) by reflexivity.
  assert (H2 : 4800%nat <> 0%nat) by discriminate.
  assert (H3 : rotating_ (self world_running) = false) by reflexivity.
  assert (H4 : rotation_due env_failing world_running = false) by reflexivity.
  assert (H5 : stream_of (self world_running) <> None) by discriminate.
  destruct (push_write_failure_is_fatal linux64 env_failing HostThread
              (repeat half 4800) 4800 world_running 1 H1 H2 H3 H4 H5 Hj)
    as (_ & Hr & _ & Hw & _).
  split; [exact Hr | exact Hw].
Defined.

(** C7 as it is stated fails on a fresh client facing a remote side that
    yields no stream: [start] returns failure and starts no thread, but
    the object is not as it was.  The credential, the language and the
    creation timestamp of the failed call are stored, and so is the
    handle made at line 58, line 68 returning without the [impl_.reset()]
    that the neighbouring failure path of lines 94-95 performs. *)
Lemma failed_start_retains_session_state :
  let w := world_new (Some host_en) in
  let o := start env_unreachable "key" "en" w in
  running_ (self w) = false /\
  stream_created env_unreachable (streams_opened w) = false /\
  value_of o = Some false /\
  api_key_ (self w) = EmptyString /\
  api_key_ (self (world_of o)) = "key"%string /\
  language_code_ (self (world_of o)) = "en"%string /\
  start_ms_ (self w) = 0 /\
  start_ms_ (self (world_of o)) = 1000 /\
  impl_ (self w) = None /\
  impl_ (self (world_of o)) = Some {| stream := None |} /\
  self (world_of o) <> self w /\
  impl_ (self (world_of (start env_refusing "key" "en" w))) = None.
Proof. vm_compute. repeat split; try reflexivity. discriminate. Qed.

(** C7, amended.  When no stream can be created, [start] returns failure;
    the client is left not running, with no stream; no thread is started,
    the reader is as before, nothing is written and no callback is made;
    the credential, the language and the creation timestamp of the failed
    call stay stored in the client. *)
Theorem start_without_stream
    (E : environment) (api_key lang : string) (w : world) :
  running_ (self w) = false ->
  stream_created E (streams_opened w) = false ->
  let o := start E api_key lang w in
  value_of o = Some false /\
  running_ (self (world_of o)) = false /\
  stream_of (self (world_of o)) = None /\
  threads_started (events_since w (world_of o)) = [] /\
  reader_ (self (world_of o)) = reader_ (self w) /\
  reader_live (world_of o) = reader_live w /\
  writes_issued (world_of o) = writes_issued w /\
  callbacks (events_since w (world_of o)) = [] /\
  api_key_ (self (world_of o)) = api_key /\
  language_code_ (self (world_of o)) = lang /\
  start_ms_ (self (world_of o)) = now_ms_at E (clock_reads w) mod uint64_max.
Proof.
  intros Hr Hs. cbv zeta.
  rewrite (start_no_stream E api_key lang w Hr Hs). cbn [value_of world_of].
  rewrite (events_since_app w _ (released w ++ [NetOpen api_key false]))
    by (cbn [trace]; rewrite <- app_assoc; reflexivity).
  unfold released, opening.
  destruct_world w. subst.
  destruct impl_0; cbn; repeat split; reflexivity.
Qed.

Lemma start_without_stream_witness :
  let w := world_new (Some host_en) in
  running_ (self w) = false /\
  stream_created env_unreachable (streams_opened w) = false /\
  let o := start env_unreachable "key" "en" w in
  value_of o = Some false /\
  running_ (self (world_of o)) = false /\
  stream_of (self (world_of o)) = None /\
  threads_started (events_since w (world_of o)) = [] /\
  reader_ (self (world_of o)) = reader_ (self w) /\
  reader_live (world_of o) = reader_live w /\
  writes_issued (world_of o) = writes_issued w /\
  callbacks (events_since w (world_of o)) = [] /\
  api_key_ (self (world_of o)) = "key"%string /\
  language_code_ (self (world_of o)) = "en"%string /\
  start_ms_ (self (world_of o))
    = now_ms_at env_unreachable (clock_reads w) mod uint64_max.
Proof.
  cbv zeta. split; [reflexivity|]. split; [reflexivity|].
  apply (start_without_stream env_unreachable "key" "en" (world_new (Some host_en)));
    reflexivity.
Defined.

(** C8.  [pushFloat16k] does nothing when the client is not running, when
    the pointer is null or when the count is zero; and when a rotation is
    in flight at line 159, because the gate was closed on entry or
    because this call closes it, the samples are dropped: the call
    returns, the queue and the counter are as before, nothing is written
    to the network and no callback is made. *)
Theorem push_is_noop_or_dropped
    (L : libm) (E : environment) (me : thread_id)
    (data : option (list float32)) (n : nat) (w : world) :
  running_ (self w) = false \/ data = None \/ n = 0%nat \/
  rotating_ (self w) = true \/ rotation_due E w = true ->
  let o := pushFloat16k L E me data n w in
  value_of o = Some tt /\
  pending_ (self (world_of o)) = pending_ (self w) /\
  sent_samples_ (self (world_of o)) = sent_samples_ (self w) /\
  writes_issued (world_of o) = writes_issued w /\
  frames_written (events_since w (world_of o)) = [] /\
  callbacks (events_since w (world_of o)) = [] /\
  (running_ (self w) = false \/ data = None \/ n = 0%nat -> world_of o = w) /\
  (rotating_ (self w) = true ->
     self (world_of o) = self w /\ events_since w (world_of o) = []).
Proof.
  intros H. cbv zeta.
  assert (Hidle : running_ (self w) = false \/ data = None \/ n = 0%nat ->
                  pushFloat16k L E me data n w = Returned tt w)
    by apply push_idle.
  destruct (running_ (self w)) eqn:Hr.
  2:{ rewrite Hidle by auto. cbn [value_of world_of]. rewrite events_since_same.
      repeat split; reflexivity. }
  destruct data as [d|].
  2:{ rewrite Hidle by auto. cbn [value_of world_of]. rewrite events_since_same.
      repeat split; reflexivity. }
  destruct (Nat.eq_dec n 0) as [Hn|Hn].
  { rewrite Hidle by auto. cbn [value_of world_of]. rewrite events_since_same.
    repeat split; reflexivity. }
  assert (Hrot : rotating_ (self w) = true \/ rotation_due E w = true).
  { destruct H as [H | [H | [H | H]]]; [discriminate | discriminate | contradiction | exact H]. }
  rewrite (push_rotating L E me d n w Hr Hn Hrot). cbn [value_of world_of]. cbv zeta.
  destruct (rotating_ (self w)) eqn:Hg.
  - rewrite andb_false_r.
    rewrite (events_since_app w _ []) by (destruct_world w; now rewrite app_nil_r).
    destruct_world w. repeat split; intros; try reflexivity.
    destruct H0 as [H0 | [H0 | H0]]; congruence.
  - destruct (rotation_due E w) eqn:Hd; cbn [andb negb].
    + unfold gate_taken.
      rewrite (events_since_app w _
                 ((if rotator_ (self w)
                   then [if is_rotator me then RotatorDetached else RotatorJoined]
                   else []) ++ [RotatorSpawned]))
        by (destruct_world w; reflexivity).
      destruct_world w. destruct rotator_0, me; repeat split; intros;
        try reflexivity; try discriminate;
        destruct H0 as [H0 | [H0 | H0]]; congruence.
    + destruct Hrot; discriminate.
Qed.

Lemma push_is_noop_or_dropped_witness :
  (running_ (self world_rotating) = false \/ Some [half; half] = None \/ 2%nat = 0%nat \/
   rotating_ (self world_rotating) = true \/ rotation_due env_quiet world_rotating = true) /\
  let o := pushFloat16k linux64 env_quiet HostThread (Some [half; half]) 2 world_rotating in
  value_of o = Some tt /\
  pending_ (self (world_of o)) = pending_ (self world_rotating) /\
  sent_samples_ (self (world_of o)) = sent_samples_ (self world_rotating) /\
  writes_issued (world_of o) = writes_issued world_rotating /\
  frames_written (events_since world_rotating (world_of o)) = [] /\
  callbacks (events_since world_rotating (world_of o)) = [] /\
  (running_ (self world_rotating) = false \/ Some [half; half] = None \/ 2%nat = 0%nat ->
   world_of o = world_rotating) /\
  (rotating_ (self world_rotating) = true ->
     self (world_of o) = self world_rotating /\
     events_since world_rotating (world_of o) = []).
Proof.
  split.
  - right. right. right. left. reflexivity.
  - apply (push_is_noop_or_dropped linux64 env_quiet HostThread (Some [half; half]) 2
             world_rotating).
    right. right. right. left. reflexivity.
Defined.

(** C9.  Within one call of [pushFloat16k] the queue is drained first:
    the call is the loop of writes run on a world in which every complete
    chunk has already left the queue and has been counted, and in which
    nothing has been written yet.  The writes change neither the queue
    nor the counter.  So when there is no stream, or when the [j]-th
    write is refused, the frames handed to [Write] are none, or the first
    [j + 1] only, while the queue holds the remainder alone and the
    counter has advanced by all the chunks drained. *)
Theorem drained_chunks_are_not_restored
    (L : libm) (E : environment) (me : thread_id)
    (d : list float32) (n : nat) (w : world) :
  running_ (self w) = true ->
  n <> 0%nat ->
  rotating_ (self w) = false ->
  rotation_due E w = false ->
  let total := pending_ (self w) ++ firstn n d in
  let frames := frames_of L total in
  let o := pushFloat16k L E me (Some d) n w in
  (exists wd,
     o = send_chunks E frames wd /\
     events_since w wd = [] /\
     writes_issued wd = writes_issued w /\
     pending_ (self wd) = skipn (List.length total / CHUNK * CHUNK) total /\
     sent_samples_ (self wd) = bump (List.length frames) (sent_samples_ (self w))) /\
  value_of o = Some tt /\
  pending_ (self (world_of o)) = skipn (List.length total / CHUNK * CHUNK) total /\
  sent_samples_ (self (world_of o)) = bump (List.length frames) (sent_samples_ (self w)) /\
  List.length frames = (List.length total / CHUNK)%nat /\
  frames_written (events_since w (world_of o)) =
    match stream_of (self w), first_refusal E (writes_issued w) (List.length frames) with
    | None, _ => []
    | Some _, None => frames
    | Some _, Some j => firstn (S j) frames
    end.
Proof.
  intros Hr Hn Hg Hd. cbv zeta.
  rewrite (push_steady L E me d n w Hr Hn Hg Hd). cbn [value_of world_of].
  set (total := pending_ (self w) ++ firstn n d).
  set (frames := frames_of L total).
  set (wd := drained (queued (firstn n d) w)).
  assert (Hwd : stream_of (self wd) = stream_of (self w) /\
                writes_issued wd = writes_issued w /\ trace wd = trace w /\
                pending_ (self wd) = remainder_of total /\
                sent_samples_ (self wd)
                = bump (List.length total / CHUNK) (sent_samples_ (self w)))
    by (subst wd total; destruct_world w; repeat split; reflexivity).
  destruct Hwd as (Hs' & Hw' & Ht' & Hp' & Hc').
  assert (Hlen : List.length frames = (List.length total / CHUNK)%nat)
    by apply length_frames_of.
  destruct (after_sending_frames E frames wd) as (Hp & Hc & _ & Hf & _ & _).
  rewrite Hs', Hw' in Hf.
  assert (Hev : events_since w (after_sending E frames wd)
                = events_since wd (after_sending E frames wd))
    by (unfold events_since; now rewrite Ht').
  split.
  { exists wd.
    split; [symmetry; apply send_chunks_spec|].
    split; [unfold events_since; rewrite Ht'; apply skipn_all|].
    split; [exact Hw'|]. split; [exact Hp'|].
    rewrite Hlen. exact Hc'. }
  split; [reflexivity|].
  split; [rewrite Hp; exact Hp'|].
  split; [rewrite Hc, Hlen; exact Hc'|].
  split; [exact Hlen|].
  rewrite Hev. exact Hf.
Qed.

Lemma drained_chunks_are_not_restored_witness :
  let d := repeat half 4800 in
  let w := world_running in
  let o := pushFloat16k linux64 env_failing HostThread (Some d) 4800 w in
  List.length (frames_written (events_since w (world_of o))) = 2%nat /\
  pending_ (self (world_of o)) = [] /\
  sent_samples_ (self (world_of o)) = 4800.
Proof.
  cbv zeta.
  assert (H1 : running_ (self world_running) = true) by reflexivity.
  assert (H2 : 4800%nat <> 0%nat) by discriminate.
  assert (H3 : rotating_ (self world_running) = false) by reflexivity.
  assert (H4 : rotation_due env_failing world_running = false) by reflexivity.
  destruct (drained_chunks_are_not_restored linux64 env_failing HostThread
              (repeat half 4800) 4800 world_running H1 H2 H3 H4)
    as (_ & _ & Hp & Hc & _ & Hf).
  rewrite Hf, Hp, Hc. vm_compute. repeat split; reflexivity.
Defined.

(** C10.  [start] on a client that is already running returns success at
    once and changes nothing: the world after the call is the world
    before it, so no session is created, the credential, the language and
    the creation timestamp keep their values, no stream is opened and no
    thread is started. *)
Theorem start_while_running_changes_nothing
    (E : environment) (api_key lang : string) (w : world) :
  running_ (self w) = true ->
  let o := start E api_key lang w in
  value_of o = Some true /\
  world_of o = w /\
  api_key_ (self (world_of o)) = api_key_ (self w) /\
  language_code_ (self (world_of o)) = language_code_ (self w) /\
  start_ms_ (self (world_of o)) = start_ms_ (self w) /\
  impl_ (self (world_of o)) = impl_ (self w) /\
  streams_opened (world_of o) = streams_opened w /\
  events_since w (world_of o) = [].
Proof.
  intros H. cbv zeta. rewrite (start_running_noop E api_key lang w H).
  cbn [value_of world_of]. rewrite events_since_same.
  repeat split; reflexivity.
Qed.

Lemma start_while_running_changes_nothing_witness :
  running_ (self world_running) = true /\
  let o := start env_quiet "other key" "fr" world_running in
  value_of o = Some true /\
  world_of o = world_running /\
  api_key_ (self (world_of o)) = api_key_ (self world_running) /\
  language_code_ (self (world_of o)) = language_code_ (self world_running) /\
  start_ms_ (self (world_of o)) = start_ms_ (self world_running) /\
  impl_ (self (world_of o)) = impl_ (self world_running) /\
  streams_opened (world_of o) = streams_opened world_running /\
  events_since world_running (world_of o) = [].
Proof.
  split; [reflexivity|].
  apply (start_while_running_changes_nothing env_quiet "other key" "fr" world_running).
  reflexivity.
Defined.

(* ===================================================================== *)
(** * Part VIII. Properties of the text utilities                         *)
(* ===================================================================== *)

Section TextFacts.
Local Open Scope nat_scope.

Variable C : locale.

Lemma find_if_le {A : Type} (p : A -> bool) (l : list A) :
  find_if p l <= List.length l.
Proof. induction l as [|a l IH]; simpl; [lia|]. destruct (p a); lia. Qed.

(** Skipping up to the position found leaves a sequence that starts with
    an element satisfying the predicate. *)
Lemma find_if_split {A : Type} (p : A -> bool) (l : list A) :
  forallb (fun a => negb (p a)) (firstn (find_if p l) l) = true /\
  match skipn (find_if p l) l with
  | [] => True
  | a :: _ => p a = true
  end.
Proof.
  induction l as [|a l IH]; simpl; [auto|].
  destruct (p a) eqn:Hp; simpl; [auto|].
  rewrite Hp. simpl. exact IH.
Qed.

Lemma erase_front {A : Type} (k : nat) (l : list A) : erase 0 k l = skipn k l.
Proof. reflexivity. Qed.

Lemma erase_back {A : Type} (k : nat) (l : list A) :
  erase k (List.length l) l = firstn k l.
Proof. unfold erase. rewrite skipn_all. apply app_nil_r. Qed.

Lemma skip_space_find (l : list ascii) :
  skipn (find_if (fun ch => negb (isspace C ch)) l) l = skip_space C l.
Proof.
  induction l as [|a l IH]; simpl; [reflexivity|].
  destruct (isspace C a); simpl; [exact IH | reflexivity].
Qed.

Lemma firstn_rev_base {A : Type} (p : A -> bool) (l : list A) :
  firstn (find_if_reverse_base p l) l = rev (skipn (find_if p (rev l)) (rev l)).
Proof.
  unfold find_if_reverse_base.
  rewrite skipn_rev, rev_involutive. reflexivity.
Qed.

(** [trim] drops the white space in front, then the white space at the
    end. *)
Lemma trim_spec (s : list ascii) :
  trim C s = rev (skip_space C (rev (skip_space C s))).
Proof.
  unfold trim. rewrite erase_front, erase_back, firstn_rev_base.
  rewrite !skip_space_find. reflexivity.
Qed.

Lemma skip_space_split (l : list ascii) :
  exists pre, l = pre ++ skip_space C l /\ all_space C pre = true.
Proof.
  induction l as [|a l [pre [H1 H2]]]; simpl.
  - exists []. auto.
  - destruct (isspace C a) eqn:Ha.
    + exists (a :: pre). simpl. rewrite Ha, H2. split; [congruence | reflexivity].
    + exists []. auto.
Qed.

Lemma skip_space_head (l : list ascii) :
  match skip_space C l with [] => True | c :: _ => isspace C c = false end.
Proof.
  induction l as [|a l IH]; simpl; [exact I|].
  destruct (isspace C a) eqn:Ha; [exact IH | exact Ha].
Qed.

Lemma skip_space_fixed (l : list ascii) :
  match l with [] => True | c :: _ => isspace C c = false end ->
  skip_space C l = l.
Proof. destruct l as [|c l]; simpl; [reflexivity|]. intros ->. reflexivity. Qed.

Lemma skip_space_idem (l : list ascii) : skip_space C (skip_space C l) = skip_space C l.
Proof. apply skip_space_fixed, skip_space_head. Qed.

(** What is left of a sequence that does not start with white space, when
    the white space at its end is dropped, does not start with white space
    either. *)
Lemma all_space_rev (l : list ascii) : all_space C (rev l) = all_space C l.
Proof.
  unfold all_space. induction l as [|a l IH]; simpl; [reflexivity|].
  rewrite forallb_app, IH. simpl. rewrite andb_true_r. apply andb_comm.
Qed.

Lemma all_space_app (a b : list ascii) : all_space C (a ++ b) = all_space C a && all_space C b.
Proof. apply forallb_app. Qed.

Lemma skip_space_all (l : list ascii) : all_space C l = true -> skip_space C l = [].
Proof.
  induction l as [|a l IH]; simpl; [reflexivity|].
  destruct (isspace C a); simpl; [exact IH | discriminate].
Qed.

Lemma skip_space_app (a b : list ascii) :
  skip_space C (a ++ b) = if all_space C a then skip_space C b else skip_space C a ++ b.
Proof.
  induction a as [|c a IH]; simpl; [reflexivity|].
  destruct (isspace C c); simpl; [exact IH | reflexivity].
Qed.

Lemma head_of_rev_trailing (l : list ascii) :
  match l with [] => True | c :: _ => isspace C c = false end ->
  match rev (skip_space C (rev l)) with [] => True | c :: _ => isspace C c = false end.
Proof.
  destruct l as [|c l]; [simpl; auto|]. intros Hc.
  destruct (skip_space_split (rev (c :: l))) as [pre [H1 H2]].
  apply (f_equal (@rev ascii)) in H1. rewrite rev_involutive, rev_app_distr in H1.
  destruct (rev (skip_space C (rev (c :: l)))) as [|d m] eqn:Hm.
  - exact I.
  - simpl in H1. injection H1 as <- _. exact Hc.
Qed.

(** What [trim] leaves neither starts nor ends with white space. *)
Lemma trim_ends (s : list ascii) :
  (forall c, hd_error (trim C s) = Some c -> isspace C c = false) /\
  (forall c, hd_error (rev (trim C s)) = Some c -> isspace C c = false).
Proof.
  rewrite trim_spec. split.
  - intros c Hc.
    pose proof (head_of_rev_trailing (skip_space C s) (skip_space_head s)) as H.
    destruct (rev (skip_space C (rev (skip_space C s)))); [discriminate|].
    injection Hc as <-. exact H.
  - intros c Hc. rewrite rev_involutive in Hc.
    pose proof (skip_space_head (rev (skip_space C s))) as H.
    destruct (skip_space C (rev (skip_space C s))); [discriminate|].
    injection Hc as <-. exact H.
Qed.

Lemma trim_fixed (s : list ascii) :
  (forall c, hd_error s = Some c -> isspace C c = false) ->
  (forall c, hd_error (rev s) = Some c -> isspace C c = false) ->
  trim C s = s.
Proof.
  intros Hh Hl. rewrite trim_spec.
  rewrite (skip_space_fixed s).
  - rewrite (skip_space_fixed (rev s)); [apply rev_involutive|].
    destruct (rev s); [exact I | apply Hl; reflexivity].
  - destruct s; [exact I | apply Hh; reflexivity].
Qed.

Lemma trim_parts (s : list ascii) :
  exists pre suf,
    s = pre ++ trim C s ++ suf /\ all_space C pre = true /\ all_space C suf = true.
Proof.
  rewrite trim_spec.
  destruct (skip_space_split s) as [pre [H1 H2]].
  destruct (skip_space_split (rev (skip_space C s))) as [suf [H3 H4]].
  exists pre, (rev suf). split; [|split].
  - rewrite <- rev_app_distr, <- H3, rev_involutive. exact H1.
  - exact H2.
  - rewrite all_space_rev. exact H4.
Qed.

End TextFacts.

Section SplitFacts.
Local Open Scope nat_scope.

Variable d : ascii.

Lemma getline_from_shorter (s : list ascii) :
  List.length (snd (getline_from d s)) <= Nat.pred (List.length s).
Proof.
  induction s as [|c s IH]; simpl; [lia|].
  destruct (Ascii.eqb c d); simpl; [lia|].
  destruct (getline_from d s) as [t r]. simpl in *. lia.
Qed.

Lemma split_loop_acc (fuel : nat) (s : list ascii) (tokens : list (list ascii)) :
  split_loop fuel d s tokens = tokens ++ split_loop fuel d s [].
Proof.
  revert s tokens. induction fuel as [|fuel IH]; intros s tokens; simpl.
  - symmetry. apply app_nil_r.
  - destruct (getline d s) as [[t r]|]; [|symmetry; apply app_nil_r].
    rewrite (IH r (if negb (is_nil t) then tokens ++ [t] else tokens)).
    rewrite (IH r (if negb (is_nil t) then [t] else [])). 
    destruct (is_nil t); simpl; [reflexivity|]. rewrite <- app_assoc. reflexivity.
Qed.

Lemma split_loop_enough (fuel fuel' : nat) (s : list ascii) :
  List.length s < fuel -> List.length s < fuel' ->
  split_loop fuel d s [] = split_loop fuel' d s [].
Proof.
  revert fuel' s. induction fuel as [|fuel IH]; intros fuel' s H H'; [lia|].
  destruct fuel' as [|fuel']; [lia|]. simpl.
  destruct s as [|c s]; [reflexivity|].
  unfold getline. 
  pose proof (getline_from_shorter (c :: s)) as Hs.
  destruct (getline_from d (c :: s)) as [t r]. simpl in Hs, H, H'.
  rewrite (split_loop_acc fuel), (split_loop_acc fuel').
  f_equal. apply IH; lia.
Qed.

Lemma split_nil : split [] d = [].
Proof. reflexivity. Qed.

(** One turn of the loop of [split]. *)
Lemma split_step (s : list ascii) :
  s <> [] ->
  split s d =
    (if is_nil (fst (getline_from d s)) then [] else [fst (getline_from d s)])
      ++ split (snd (getline_from d s)) d.
Proof.
  intros Hs. unfold split at 1. simpl.
  destruct s as [|c s]; [contradiction|]. unfold getline.
  pose proof (getline_from_shorter (c :: s)) as Hl.
  destruct (getline_from d (c :: s)) as [t r]. simpl fst. simpl snd in *.
  rewrite split_loop_acc. unfold split.
  rewrite (split_loop_enough (List.length (c :: s)) (S (List.length r))).
  - destruct (is_nil t); reflexivity.
  - simpl in *. lia.
  - lia.
Qed.

Lemma split_ind (P : list ascii -> Prop) :
  P [] ->
  (forall s, s <> [] -> P (snd (getline_from d s)) -> P s) ->
  forall s, P s.
Proof.
  intros H0 Hstep s.
  remember (List.length s) as n eqn:Hn. revert s Hn.
  induction n as [n IH] using lt_wf_ind. intros s Hn.
  destruct s as [|c s]; [exact H0|].
  apply Hstep; [discriminate|].
  apply (IH (List.length (snd (getline_from d (c :: s))))); [|reflexivity].
  pose proof (getline_from_shorter (c :: s)). simpl in *. lia.
Qed.

Lemma getline_from_parts (s : list ascii) :
  has d (fst (getline_from d s)) = false /\
  (if has d s then s = fst (getline_from d s) ++ d :: snd (getline_from d s)
   else getline_from d s = (s, [])).
Proof.
  unfold has. induction s as [|c s [IH1 IH2]]; simpl; [auto|].
  destruct (Ascii.eqb c d) eqn:Hc.
  - apply Ascii.eqb_eq in Hc. subst c. rewrite Ascii.eqb_refl. simpl. auto.
  - rewrite Ascii.eqb_sym, Hc. simpl.
    destruct (getline_from d s) as [t r]. simpl in *.
    rewrite Ascii.eqb_sym, Hc. simpl. split; [exact IH1|].
    destruct (existsb (Ascii.eqb d) s).
    + rewrite IH2 at 1. reflexivity.
    + injection IH2 as -> ->. reflexivity.
Qed.

Lemma getline_from_app (a b : list ascii) :
  has d a = false -> getline_from d (a ++ d :: b) = (a, b).
Proof.
  unfold has. induction a as [|c a IH]; simpl.
  - rewrite Ascii.eqb_refl. reflexivity.
  - intros H. apply orb_false_iff in H. destruct H as [H1 H2].
    rewrite Ascii.eqb_sym, H1, (IH H2). reflexivity.
Qed.

Lemma has_app (a b : list ascii) : has d (a ++ b) = has d a || has d b.
Proof. apply existsb_app. Qed.

(** A string without delimiter is one token, or none when it is empty. *)
Lemma split_token (t : list ascii) :
  has d t = false -> split t d = if is_nil t then [] else [t].
Proof.
  intros H. destruct t as [|c t]; [reflexivity|].
  rewrite split_step by discriminate.
  pose proof (getline_from_parts (c :: t)) as [_ Hp]. rewrite H in Hp. rewrite Hp.
  simpl. reflexivity.
Qed.

Lemma split_app (a b : list ascii) :
  split (a ++ d :: b) d = split a d ++ split b d.
Proof.
  revert b. induction a as [|a Ha IH] using split_ind; intros b.
  - simpl. rewrite split_step by discriminate. simpl. rewrite Ascii.eqb_refl. reflexivity.
  - pose proof (getline_from_parts a) as [Ht Hp].
    destruct (has d a) eqn:Hd.
    + rewrite (split_step a Ha).
      set (t := fst (getline_from d a)) in *. set (r := snd (getline_from d a)) in *.
      rewrite Hp at 1. rewrite <- app_assoc. simpl.
      rewrite split_step by (destruct t; discriminate).
      rewrite (getline_from_app t (r ++ d :: b) Ht). simpl.
      rewrite IH, app_assoc. reflexivity.
    + rewrite split_step by (destruct a; [contradiction | discriminate]).
      rewrite (getline_from_app a b Hd). simpl.
      rewrite (split_token a Hd). destruct a; [contradiction|]. reflexivity.
Qed.

Lemma split_tokens (s : list ascii) :
  forallb (is_token d) (split s d) = true /\
  List.concat (split s d) = filter (fun c => negb (Ascii.eqb d c)) s.
Proof.
  induction s as [|s Hs [IH1 IH2]] using split_ind; [auto|].
  rewrite (split_step s Hs).
  pose proof (getline_from_parts s) as [Ht Hp].
  set (t := fst (getline_from d s)) in *. set (r := snd (getline_from d s)) in *.
  assert (Hf : filter (fun c => negb (Ascii.eqb d c)) t = t).
  { clear -Ht. unfold has in Ht. induction t as [|c t IH]; simpl in *; [reflexivity|].
    apply orb_false_iff in Ht. destruct Ht as [H1 H2]. rewrite H1. simpl.
    rewrite (IH H2). reflexivity. }
  assert (Hs' : filter (fun c => negb (Ascii.eqb d c)) s
                = t ++ filter (fun c => negb (Ascii.eqb d c)) r).
  { destruct (has d s).
    - rewrite Hp at 1. rewrite filter_app. simpl. rewrite Ascii.eqb_refl. simpl.
      rewrite Hf. reflexivity.
    - assert (Hr : r = []) by (unfold r; rewrite Hp; reflexivity).
      assert (Hts : t = s) by (unfold t; rewrite Hp; reflexivity).
      rewrite Hr, <- Hts. simpl. rewrite Hf. symmetry. apply app_nil_r. }
  split.
  - rewrite forallb_app, IH1, andb_true_r.
    destruct t as [|c t]; [reflexivity|].
    change (is_token d (c :: t) && true = true).
    unfold is_token. rewrite Ht. reflexivity.
  - rewrite concat_app, IH2, Hs'. destruct t; simpl; [reflexivity|].
    rewrite app_nil_r. reflexivity.
Qed.

Lemma split_join (tokens : list (list ascii)) :
  forallb (is_token d) tokens = true -> split (join d tokens) d = tokens.
Proof.
  induction tokens as [|t ts IH]; [reflexivity|].
  intros H. simpl in H. apply andb_true_iff in H. destruct H as [Ht Hts].
  unfold is_token in Ht. apply andb_true_iff in Ht. destruct Ht as [Hn Hd].
  apply negb_true_iff in Hd.
  destruct ts as [|u ts].
  - simpl. rewrite (split_token t Hd). destruct t; [discriminate|reflexivity].
  - change (join d (t :: u :: ts)) with (t ++ d :: join d (u :: ts)).
    rewrite split_app, (IH Hts), (split_token t Hd).
    destruct t; [discriminate|reflexivity].
Qed.

End SplitFacts.

Section WordFacts.
Local Open Scope nat_scope.

Variable C : locale.

Lemma split_words_acc (l : list ascii) (ws : list (list ascii)) (w : list ascii) :
  finish_words (fold_left (split_words_step C) l (ws, w))
  = ws ++ finish_words (fold_left (split_words_step C) l ([], w)).
Proof.
  revert ws w. induction l as [|c l IH]; intros ws w; simpl.
  - destruct (is_nil w); simpl; [symmetry; apply app_nil_r | reflexivity].
  - destruct (isspace C c).
    + destruct (is_nil w); simpl.
      * apply IH.
      * rewrite (IH (ws ++ [w])), (IH [w]). rewrite <- app_assoc. reflexivity.
    + apply IH.
Qed.

Lemma split_words_fold (l : list ascii) :
  split_words C l = finish_words (fold_left (split_words_step C) l ([], [])).
Proof.
  unfold split_words, finish_words.
  destruct (fold_left (split_words_step C) l ([], [])). reflexivity.
Qed.

Lemma split_words_nil : split_words C [] = [].
Proof. reflexivity. Qed.

Lemma split_words_space (c : ascii) (l : list ascii) :
  isspace C c = true -> split_words C (c :: l) = split_words C l.
Proof. intros H. rewrite !split_words_fold. simpl. rewrite H. reflexivity. Qed.

Lemma take_word_parts (l : list ascii) :
  l = fst (take_word C l) ++ snd (take_word C l) /\
  forallb (fun c => negb (isspace C c)) (fst (take_word C l)) = true /\
  skip_space C (snd (take_word C l)) = skip_space C (snd (take_word C l)) /\
  match snd (take_word C l) with [] => True | c :: _ => isspace C c = true end.
Proof.
  induction l as [|c l [IH1 [IH2 [_ IH3]]]]; simpl; [auto|].
  destruct (isspace C c) eqn:Hc; simpl; [auto|].
  destruct (take_word C l) as [t r]. simpl in *. rewrite Hc. simpl.
  repeat split; [congruence | assumption | assumption].
Qed.

Lemma take_word_shorter (l : list ascii) :
  List.length (snd (take_word C l)) <= List.length l.
Proof.
  induction l as [|c l IH]; simpl; [lia|].
  destruct (isspace C c); simpl; [lia|].
  destruct (take_word C l). simpl in *. lia.
Qed.

(** The state of the loop when a word has been begun. *)
Lemma split_words_begun (l : list ascii) (w : list ascii) :
  finish_words (fold_left (split_words_step C) l ([], w))
  = (if is_nil (w ++ fst (take_word C l)) then [] else [w ++ fst (take_word C l)])
      ++ split_words C (snd (take_word C l)).
Proof.
  revert w. induction l as [|c l IH]; intros w.
  - cbn [fold_left take_word fst snd]. rewrite (app_nil_r w).
    destruct w; reflexivity.
  - simpl. destruct (isspace C c) eqn:Hc.
    + simpl. rewrite app_nil_r. rewrite (split_words_space c l Hc).
      destruct w as [|a w]; simpl.
      * symmetry. apply split_words_fold.
      * rewrite split_words_acc, <- split_words_fold. reflexivity.
    + rewrite IH. destruct (take_word C l) as [t r]. simpl.
      rewrite <- app_assoc. reflexivity.
Qed.

Lemma split_words_char (c : ascii) (l : list ascii) :
  isspace C c = false ->
  split_words C (c :: l)
  = (c :: fst (take_word C l)) :: split_words C (snd (take_word C l)).
Proof.
  intros Hc. rewrite split_words_fold. simpl. rewrite Hc.
  rewrite split_words_begun. reflexivity.
Qed.

(** [split_words] in terms of the extraction of the streams: the words
    are those that [>>] yields one after the other. *)
Lemma split_words_extract (s : list ascii) :
  split_words C s =
    match extract_word C s with
    | None => []
    | Some (w, rest) => w :: split_words C rest
    end.
Proof.
  unfold extract_word. induction s as [|c s IH].
  - reflexivity.
  - simpl skip_space. destruct (isspace C c) eqn:Hc.
    + rewrite (split_words_space c s Hc). exact IH.
    + rewrite (split_words_char c s Hc). simpl. rewrite Hc.
      destruct (take_word C s). reflexivity.
Qed.

Lemma skip_space_shorter (l : list ascii) :
  List.length (skip_space C l) <= List.length l.
Proof.
  induction l as [|c l IH]; simpl; [lia|].
  destruct (isspace C c); simpl; lia.
Qed.

Lemma extract_word_shorter (s w rest : list ascii) :
  extract_word C s = Some (w, rest) ->
  List.length rest < List.length s /\ is_word C w = true.
Proof.
  unfold extract_word. intros H.
  pose proof (skip_space_shorter s) as Hs.
  pose proof (skip_space_head C s) as Hh.
  destruct (skip_space C s) as [|c l]; [discriminate|].
  simpl in H. rewrite Hh in H.
  pose proof (take_word_shorter l) as Hl.
  pose proof (take_word_parts l) as [_ [Hw _]].
  destruct (take_word C l) as [t r]. injection H as <- <-.
  simpl in *. split; [lia|].
  unfold is_word. simpl. rewrite Hh, Hw. reflexivity.
Qed.

Lemma words_ind (P : list ascii -> Prop) :
  (forall s, extract_word C s = None -> P s) ->
  (forall s w rest, extract_word C s = Some (w, rest) -> P rest -> P s) ->
  forall s, P s.
Proof.
  intros H0 Hstep s.
  remember (List.length s) as n eqn:Hn. revert s Hn.
  induction n as [n IH] using lt_wf_ind. intros s Hn.
  destruct (extract_word C s) as [[w rest]|] eqn:He.
  - apply (Hstep s w rest He).
    apply (IH (List.length rest)); [|reflexivity].
    apply extract_word_shorter in He. lia.
  - apply H0. exact He.
Qed.

Lemma split_words_all_space (l : list ascii) :
  all_space C l = true -> split_words C l = [].
Proof.
  induction l as [|c l IH]; [reflexivity|]. simpl.
  intros H. apply andb_true_iff in H. destruct H as [H1 H2].
  rewrite (split_words_space c l H1). apply IH, H2.
Qed.

Lemma split_words_skip (l : list ascii) :
  split_words C (skip_space C l) = split_words C l.
Proof.
  induction l as [|c l IH]; [reflexivity|]. simpl.
  destruct (isspace C c) eqn:Hc; [|reflexivity].
  rewrite (split_words_space c l Hc). exact IH.
Qed.

Lemma take_word_app (a b : list ascii) (sp : ascii) :
  isspace C sp = true ->
  take_word C (a ++ sp :: b)
  = (fst (take_word C a), snd (take_word C a) ++ sp :: b).
Proof.
  intros Hsp. induction a as [|c a IH]; simpl.
  - rewrite Hsp. reflexivity.
  - destruct (isspace C c); [reflexivity|].
    rewrite IH. destruct (take_word C a). reflexivity.
Qed.

(** A white-space character between two strings separates their words. *)
Lemma split_words_app (a b : list ascii) (sp : ascii) :
  isspace C sp = true ->
  split_words C (a ++ sp :: b) = split_words C a ++ split_words C b.
Proof.
  intros Hsp.
  remember (List.length a) as n eqn:Hn. revert a Hn.
  induction n as [n IH] using lt_wf_ind. intros a Hn.
  destruct a as [|c a].
  - simpl. apply split_words_space. exact Hsp.
  - simpl. destruct (isspace C c) eqn:Hc.
    + rewrite !(split_words_space c _ Hc). apply (IH (List.length a)); simpl in *; [lia|reflexivity].
    + rewrite !(split_words_char c _ Hc). rewrite (take_word_app a b sp Hsp). simpl.
      f_equal. apply (IH (List.length (snd (take_word C a)))); [|reflexivity].
      pose proof (take_word_shorter a). simpl in *. lia.
Qed.

Lemma split_words_prefix (pre x : list ascii) :
  all_space C pre = true -> split_words C (pre ++ x) = split_words C x.
Proof.
  induction pre as [|c pre IH]; [reflexivity|]. simpl.
  intros H. apply andb_true_iff in H. destruct H as [H1 H2].
  rewrite (split_words_space c _ H1). apply IH, H2.
Qed.

Lemma split_words_suffix (x suf : list ascii) :
  all_space C suf = true -> split_words C (x ++ suf) = split_words C x.
Proof.
  destruct suf as [|c suf]; [rewrite app_nil_r; reflexivity|]. simpl.
  intros H. apply andb_true_iff in H. destruct H as [H1 H2].
  rewrite (split_words_app x suf c H1), (split_words_all_space suf H2).
  apply app_nil_r.
Qed.

Lemma split_words_word (w : list ascii) :
  is_word C w = true -> split_words C w = [w].
Proof.
  unfold is_word. intros H. apply andb_true_iff in H. destruct H as [Hn Hw].
  destruct w as [|c w]; [discriminate|]. simpl in Hw.
  apply andb_true_iff in Hw. destruct Hw as [Hc Hw]. apply negb_true_iff in Hc.
  rewrite (split_words_char c w Hc).
  assert (Ht : take_word C w = (w, [])).
  { clear -Hw. induction w as [|a w IH]; simpl in *; [reflexivity|].
    apply andb_true_iff in Hw. destruct Hw as [Ha Hw]. apply negb_true_iff in Ha.
    rewrite Ha, (IH Hw). reflexivity. }
  rewrite Ht. reflexivity.
Qed.

Lemma extract_word_parts (s w rest : list ascii) :
  extract_word C s = Some (w, rest) ->
  exists pre,
    s = pre ++ w ++ rest /\ all_space C pre = true /\ is_word C w = true /\
    match rest with [] => True | c :: _ => isspace C c = true end.
Proof.
  intros H. pose proof (extract_word_shorter s w rest H) as [_ Hw].
  unfold extract_word in H.
  destruct (skip_space_split C s) as [pre [H1 H2]].
  destruct (skip_space C s) as [|c l]; [discriminate|].
  pose proof (take_word_parts (c :: l)) as [P1 [_ [_ P4]]].
  assert (H' : take_word C (c :: l) = (w, rest)) by congruence.
  rewrite H' in P1, P4. simpl in P1, P4.
  exists pre. rewrite <- P1. auto.
Qed.

Lemma extract_word_none (s : list ascii) :
  extract_word C s = None -> all_space C s = true.
Proof.
  unfold extract_word. intros H.
  destruct (skip_space_split C s) as [pre [H1 H2]].
  destruct (skip_space C s); [|discriminate].
  rewrite app_nil_r in H1. subst. exact H2.
Qed.

Lemma filter_all_space (l : list ascii) :
  all_space C l = true -> filter (fun c => negb (isspace C c)) l = [].
Proof.
  induction l as [|c l IH]; [reflexivity|]. simpl.
  intros H. apply andb_true_iff in H. destruct H as [H1 H2].
  rewrite H1. simpl. apply IH, H2.
Qed.

Lemma filter_word (w : list ascii) :
  is_word C w = true -> filter (fun c => negb (isspace C c)) w = w.
Proof.
  unfold is_word. intros H. apply andb_true_iff in H. destruct H as [_ H].
  induction w as [|c w IH]; [reflexivity|]. simpl in *.
  apply andb_true_iff in H. destruct H as [H1 H2]. rewrite H1, (IH H2). reflexivity.
Qed.

Lemma split_words_words (s : list ascii) :
  forallb (is_word C) (split_words C s) = true /\
  List.concat (split_words C s) = filter (fun c => negb (isspace C c)) s.
Proof.
  induction s as [s He|s w rest He [IH1 IH2]] using words_ind;
    rewrite split_words_extract, He.
  - rewrite (filter_all_space s (extract_word_none s He)). auto.
  - destruct (extract_word_parts s w rest He) as [pre [H1 [H2 [H3 _]]]].
    simpl. rewrite H3, IH1, IH2. split; [reflexivity|].
    rewrite H1, !filter_app, (filter_all_space pre H2), (filter_word w H3).
    reflexivity.
Qed.

(** When the white space of a string is its delimiter characters and
    nothing else, its words are its tokens. *)
Lemma take_word_getline (d : ascii) (s : list ascii) :
  (forall c, In c s -> isspace C c = Ascii.eqb c d) ->
  fst (take_word C s) = fst (getline_from d s) /\
  split_words C (snd (take_word C s)) = split_words C (snd (getline_from d s)).
Proof.
  induction s as [|c s IH]; intros H; [auto|]. simpl.
  rewrite <- (H c (or_introl eq_refl)).
  destruct (isspace C c) eqn:Hc; simpl.
  - split; [reflexivity|]. apply split_words_space. exact Hc.
  - destruct IH as [IH1 IH2]; [intros a Ha; apply H; right; exact Ha|].
    destruct (take_word C s), (getline_from d s). simpl in *.
    split; [congruence | exact IH2].
Qed.

Lemma split_words_split (d : ascii) (s : list ascii) :
  (forall c, In c s -> isspace C c = Ascii.eqb c d) ->
  split_words C s = split s d.
Proof.
  induction s as [|s Hs IH] using (split_ind d); intros H; [reflexivity|].
  rewrite (split_step d s Hs).
  destruct (take_word_getline d s H) as [T1 T2].
  assert (Hr : forall c, In c (snd (getline_from d s)) -> isspace C c = Ascii.eqb c d).
  { intros c Hc. apply H.
    pose proof (getline_from_parts d s) as [_ Hp].
    destruct (has d s).
    - rewrite Hp. apply in_or_app. right. right. exact Hc.
    - rewrite Hp in Hc. destruct Hc. }
  rewrite <- (IH Hr), <- T2, <- T1.
  destruct s as [|c s]; [contradiction|].
  destruct (isspace C c) eqn:Hc.
  - rewrite (split_words_space c s Hc). simpl. rewrite Hc. simpl.
    symmetry. apply split_words_space. exact Hc.
  - rewrite (split_words_char c s Hc). simpl. rewrite Hc.
    destruct (take_word C s). reflexivity.
Qed.

Lemma split_words_trim (s : list ascii) :
  split_words C (trim C s) = split_words C s.
Proof.
  destruct (trim_parts C s) as [pre [suf [H1 [H2 H3]]]].
  rewrite H1 at 2.
  rewrite (split_words_prefix pre _ H2), (split_words_suffix _ suf H3).
  reflexivity.
Qed.

End WordFacts.

Section NonAlpha.
Local Open Scope nat_scope.
Variable C : locale.

Lemma remove_short (s : list ascii) :
  List.length s <= 2 ->
  remove_leading_trailing_nonalpha C s = Some (filter (isalpha C) s).
Proof.
  intros H. unfold remove_leading_trailing_nonalpha, char_at.
  destruct s as [|a [|b [|c s]]]; simpl in *; try lia.
  - reflexivity.
  - destruct (isalpha C a); reflexivity.
  - destruct (isalpha C a), (isalpha C b); reflexivity.
Qed.

Lemma find_if_head {A : Type} (p : A -> bool) (l : list A) :
  (forall a, p a = true) -> find_if p l = 0.
Proof. intros H. destruct l as [|a l]; simpl; [reflexivity|]. rewrite H. reflexivity. Qed.

Lemma remove_long (s : list ascii) :
  (forall c, isspace C c = true -> ispunct C c = false) ->
  3 <= List.length s ->
  remove_leading_trailing_nonalpha C s = Some (tl s).
Proof.
  intros HC H. unfold remove_leading_trailing_nonalpha.
  destruct s as [|a [|b [|c s]]]; simpl in H; try lia.
  assert (K : forall ch, negb (isspace C ch) || negb (ispunct C ch) = true).
  { intros ch. destruct (isspace C ch) eqn:E; [|reflexivity]. rewrite (HC ch E). reflexivity. }
  cbv zeta.
  replace (List.length (a :: b :: c :: s) =? 0) with false by reflexivity.
  replace (List.length (a :: b :: c :: s) =? 1) with false by reflexivity.
  replace (List.length (a :: b :: c :: s) =? 2) with false by reflexivity.
  unfold find_if_reverse_base.
  rewrite (find_if_head _ (rev (a :: b :: c :: s)) K), Nat.sub_0_r.
  rewrite erase_back, firstn_all.
  rewrite (find_if_head _ (a :: b :: c :: s) K).
  reflexivity.
Qed.

End NonAlpha.

Section LastLine.

Lemma find_if_skipn {A : Type} (p : A -> bool) (l : list A) (k : nat) (d : A) :
  (k < List.length l)%nat ->
  find_if p (skipn k l) = if p (nth k l d) then 0%nat else S (find_if p (skipn (S k) l)).
Proof.
  revert k. induction l as [|a l IH]; intros k H; simpl in H; [lia|].
  destruct k as [|k]; [reflexivity|].
  simpl. apply IH. lia.
Qed.

Lemma char_from_end_rev (file : list ascii) (k : nat) :
  (k < List.length file)%nat ->
  char_from_end file (Z.of_nat k + 1) = nth k (rev file) zero.
Proof.
  intros H. unfold char_from_end. rewrite rev_nth by exact H.
  f_equal. lia.
Qed.

Lemma scan_back_spec (fuel : nat) (file : list ascii) (k : nat) :
  (k <= List.length file)%nat ->
  (List.length file - k < fuel)%nat ->
  scan_back fuel file (Z.of_nat (List.length file)) (Z.of_nat k + 1)
  = Z.of_nat (k + find_if is_newline (skipn k (rev file))) + 1.
Proof.
  revert k. induction fuel as [|fuel IH]; intros k Hk Hf; [lia|].
  simpl. destruct (Z.leb_spec (Z.of_nat k + 1) (Z.of_nat (List.length file))) as [Hle|Hgt].
  - assert (Hlt : (k < List.length file)%nat) by lia.
    rewrite (char_from_end_rev file k Hlt).
    rewrite (find_if_skipn is_newline (rev file) k zero) by (rewrite length_rev; exact Hlt).
    unfold is_newline at 1.
    destruct (Ascii.eqb (nth k (rev file) zero) "010") eqn:E.
    + f_equal. lia.
    + replace (Z.of_nat k + 1 + 1) with (Z.of_nat (S k) + 1) by lia.
      rewrite IH by lia. lia.
  - assert (k = List.length file) by lia. subst k.
    rewrite skipn_all2 by (rewrite length_rev; lia). simpl. lia.
Qed.

Lemma get_last_line_length_spec (fs : filesystem) (file_path : string) (file : list ascii) :
  ifstream fs file_path = Some file ->
  Z.of_nat (List.length file) < 2 ^ 64 ->
  get_last_line_length fs file_path = Z.of_nat (find_if is_newline (rev file)).
Proof.
  intros Ho Hs. unfold get_last_line_length. rewrite Ho.
  destruct (Z.leb_spec (Z.of_nat (List.length file)) 0) as [Hz|Hp].
  - destruct file; [reflexivity | simpl in Hz; lia].
  - rewrite (scan_back_spec _ file 0) by lia.
    simpl skipn. simpl Nat.add.
    pose proof (find_if_le is_newline (rev file)) as Hle. rewrite length_rev in Hle.
    rewrite Z.mod_small by lia. lia.
Qed.

End LastLine.

Section ClearFiles.

Variable P : path_library.

Lemma truncate_content (p q : string) (fs : filesystem) :
  content_of (truncate p fs) q =
    if String.eqb q p && writable fs p then Some [] else content_of fs q.
Proof.
  unfold truncate. destruct (writable fs p); simpl.
  - destruct (String.eqb q p); reflexivity.
  - rewrite andb_false_r. reflexivity.
Qed.

Lemma truncate_modes (p : string) (fs : filesystem) :
  readable (truncate p fs) = readable fs /\ writable (truncate p fs) = writable fs.
Proof. unfold truncate. destruct (writable fs p); auto. Qed.

Lemma clear_step_fold (output_file_path : string) (codes : list (string * string))
    (fs : filesystem) :
  output_file_path <> EmptyString ->
  clear_output_files_on_start P output_file_path codes fs
  = fold_left (clear_step P output_file_path) codes (truncate output_file_path fs).
Proof.
  intros H. unfold clear_output_files_on_start.
  destruct (String.eqb_spec output_file_path EmptyString); [contradiction|].
  reflexivity.
Qed.

Lemma exists_truncate (p q : string) (fs : filesystem) :
  exists_file fs p = true -> exists_file (truncate p fs) q = exists_file fs q.
Proof.
  unfold exists_file. rewrite truncate_content. intros H.
  destruct (String.eqb_spec q p) as [->|]; simpl; [|reflexivity].
  destruct (writable fs p); [|reflexivity].
  destruct (content_of fs p); [reflexivity | discriminate].
Qed.

Lemma clear_loop_spec (output_file_path : string) (codes : list (string * string))
    (fs : filesystem) (q : string) :
  let fs' := fold_left (clear_step P output_file_path) codes fs in
  content_of fs' q =
    (if existsb (String.eqb q) (translation_paths P output_file_path codes)
        && exists_file fs q && writable fs q
     then Some [] else content_of fs q) /\
  readable fs' = readable fs /\ writable fs' = writable fs.
Proof.
  revert fs. induction codes as [|e codes IH]; intros fs; [simpl; auto|].
  cbn [fold_left translation_paths map existsb].
  destruct (IH (clear_step P output_file_path fs e)) as [I1 [I2 I3]].
  fold (translation_paths P output_file_path codes) in *.
  cbv zeta. rewrite I1, I2, I3. clear I1 I2 I3 IH.
  unfold clear_step.
  set (t := path_append P (parent_path P output_file_path)
              (stem P output_file_path ++ "_" ++ fst e ++ extension P output_file_path)%string).
  destruct (exists_file fs t) eqn:Et.
  - rewrite (exists_truncate t q fs Et).
    destruct (truncate_modes t fs) as [-> ->].
    split; [|auto].
    rewrite truncate_content.
    destruct (String.eqb_spec q t) as [->|Hn]; simpl.
    + rewrite Et. simpl. destruct (writable fs t); simpl.
      * destruct (existsb _ _); reflexivity.
      * rewrite andb_false_r. reflexivity.
    + reflexivity.
  - split; [|auto].
    destruct (String.eqb_spec q t) as [->|Hn]; simpl; [|reflexivity].
    rewrite Et. simpl. rewrite andb_false_r. simpl. reflexivity.
Qed.

End ClearFiles.

Section LinesFacts.

Variable C : locale.
Hypothesis space_is_space : isspace C space = true.
Hypothesis newline_is_space : isspace C newline = true.

Variable text : list ascii.
Variables max_len c0 : Z.
Hypothesis c0_nonneg : 0 <= c0.
Hypothesis no_wrap : c0 + Z.of_nat (List.length text) + 1 < size_max.

Lemma lines_inv_initial :
  lines_inv C text max_len c0 text {| lines := []; segment := []; current_line_size := c0 |} [].
Proof.
  constructor; simpl; auto; try lia.
Qed.

Lemma word_no_newline (w : list ascii) : is_word C w = true -> no_newline w = true.
Proof.
  unfold is_word, no_newline. intros H. apply andb_true_iff in H. destruct H as [_ H].
  induction w as [|c w IH]; [reflexivity|]. simpl in *.
  apply andb_true_iff in H. destruct H as [H1 H2]. rewrite (IH H2), andb_true_r.
  unfold is_newline. destruct (Ascii.eqb_spec c "010"); [|reflexivity].
  subst c. change "010"%char with newline in H1. rewrite newline_is_space in H1. discriminate.
Qed.

Lemma no_newline_app (a b : list ascii) :
  no_newline (a ++ b) = no_newline a && no_newline b.
Proof. apply forallb_app. Qed.

Lemma word_length (w : list ascii) : is_word C w = true -> (0 < List.length w)%nat.
Proof. destruct w; [discriminate | simpl; lia]. Qed.

Lemma lines_fit_snoc (bodies : list (list ascii)) (seg w : list ascii) :
  lines_fit C max_len c0 (bodies ++ [seg]) ->
  is_word C w = true ->
  lines_fit C max_len c0 ((bodies ++ [seg]) ++ [w]).
Proof.
  intros H Hw. destruct bodies as [|b bs]; simpl in *.
  - destruct H as [H1 _]. split; [exact H1|]. constructor; [left; exact Hw | constructor].
  - destruct H as [H1 H2]. split; [exact H1|].
    rewrite <- app_assoc. apply Forall_app in H2. destruct H2 as [H2 H3].
    apply Forall_app. split; [exact H2|]. simpl.
    inversion H3; subst. constructor; [assumption|]. constructor; [left; exact Hw | constructor].
Qed.

Lemma lines_fit_grow (bodies : list (list ascii)) (seg seg' : list ascii) :
  lines_fit C max_len c0 (bodies ++ [seg]) ->
  (if is_nil bodies then c0 else 0) + Z.of_nat (List.length seg') <= max_len ->
  lines_fit C max_len c0 (bodies ++ [seg']).
Proof.
  intros H Hl. destruct bodies as [|b bs]; simpl in *.
  - split; [right; exact Hl | constructor].
  - destruct H as [H1 H2]. split; [exact H1|].
    apply Forall_app in H2. destruct H2 as [H2 _].
    apply Forall_app. split; [exact H2|]. constructor; [right; lia | constructor].
Qed.

Lemma size_of_small (w : list ascii) :
  Z.of_nat (List.length w) < size_max -> size_of w = Z.of_nat (List.length w).
Proof. intros H. unfold size_of. apply Z.mod_small. lia. Qed.

Lemma concat_snoc {A : Type} (ls : list (list A)) (l : list A) :
  List.concat (ls ++ [l]) = List.concat ls ++ l.
Proof. rewrite concat_app. simpl. rewrite app_nil_r. reflexivity. Qed.

(** One turn of the loop keeps what the loop maintains. *)
Lemma place_word_inv (iss : list ascii) (st : lines_state) (bodies : list (list ascii))
    (w rest : list ascii) :
  lines_inv C text max_len c0 iss st bodies ->
  extract_word C iss = Some (w, rest) ->
  exists bodies', lines_inv C text max_len c0 rest (place_word max_len st w) bodies'.
Proof.
  intros [I1 I2 I3 I4 I5 I6 I7 I8] He.
  destruct (extract_word_parts C iss w rest He) as [pre [P1 [P2 [P3 P4]]]].
  pose proof (word_length w P3) as Hwl.
  assert (Hlen : List.length iss = (List.length pre + List.length w + List.length rest)%nat).
  { rewrite P1, !length_app. lia. }
  assert (Hpre : is_nil (segment st) = false -> (0 < List.length pre)%nat).
  { intros Hs. specialize (I5 Hs). rewrite P1 in I5.
    destruct pre as [|p pre]; [|simpl; lia].
    simpl in I5. destruct w as [|a w]; [discriminate|]. simpl in I5.
    unfold is_word in P3. simpl in P3. rewrite I5 in P3. discriminate. }
  assert (Hcur : 0 <= current_line_size st) by (rewrite I3; destruct (is_nil bodies); lia).
  assert (Hcur0 : is_nil (segment st) = false -> 0 < current_line_size st).
  { intros Hs. rewrite I3. destruct (segment st); [discriminate|].
    simpl List.length. destruct (is_nil bodies); lia. }
  assert (Hw : size_of w = Z.of_nat (List.length w)).
  { apply size_of_small. destruct (is_nil (segment st)); lia. }
  assert (Hsw : split_words C iss = w :: split_words C rest).
  { rewrite split_words_extract, He. reflexivity. }
  unfold place_word. rewrite Hw.
  set (one := if 0 <? current_line_size st then 1 else 0).
  assert (Hone : 0 <= one <= 1) by (unfold one; destruct (0 <? current_line_size st); lia).
  assert (Hsum : current_line_size st + Z.of_nat (List.length w) + one
                 + Z.of_nat (List.length rest)
                 <= c0 + Z.of_nat (List.length text) + 1).
  { destruct (is_nil (segment st)) eqn:Hs.
    - lia.
    - specialize (Hpre eq_refl). lia. }
  rewrite (Z.mod_small (Z.of_nat (List.length w) + one)) by lia.
  rewrite (Z.mod_small (current_line_size st + (Z.of_nat (List.length w) + one))) by lia.
  destruct (Z.leb_spec (current_line_size st + (Z.of_nat (List.length w) + one)) max_len)
    as [Hfit|Hover].
  - (* the word goes on the current line *)
    exists bodies.
    assert (Hsep : List.length (if 0 <? current_line_size st then [space] else [])
                   = Z.to_nat one).
    { unfold one. destruct (0 <? current_line_size st); reflexivity. }
    assert (Hseg : Z.of_nat (List.length
                     (segment st ++ (if 0 <? current_line_size st then [space] else []) ++ w))
                   = Z.of_nat (List.length (segment st)) + one + Z.of_nat (List.length w)).
    { rewrite !length_app, Hsep. lia. }
    assert (Hnn : is_nil (segment st
                    ++ (if 0 <? current_line_size st then [space] else []) ++ w) = false).
    { destruct (segment st); simpl.
      - destruct (0 <? current_line_size st); simpl; [reflexivity|].
        destruct w; [discriminate | reflexivity].
      - reflexivity. }
    constructor; cbn [lines segment current_line_size].
    + exact I1.
    + rewrite <- I2, Hsw.
      destruct (is_nil (segment st)) eqn:Hs.
      * destruct (segment st); [|discriminate]. rewrite (I6 eq_refl) in I1. rewrite I1.
        simpl. destruct (0 <? current_line_size st).
        -- change ([space] ++ w) with ([] ++ space :: w).
           rewrite (split_words_app C [] w space space_is_space).
           rewrite (split_words_word C w P3). reflexivity.
        -- simpl. rewrite (split_words_word C w P3). reflexivity.
      * assert (H0 : (0 <? current_line_size st) = true)
          by (apply Z.ltb_lt; apply Hcur0; reflexivity).
        rewrite H0. rewrite app_assoc.
        change ([space] ++ w) with (space :: w).
        rewrite (split_words_app C _ w space space_is_space).
        rewrite (split_words_word C w P3), <- app_assoc. reflexivity.
    + rewrite Hseg, I3. lia.
    + rewrite Hnn. lia.
    + intros _. exact P4.
    + rewrite Hnn. discriminate.
    + apply (lines_fit_grow bodies (segment st)); [exact I7|].
      rewrite Hseg. rewrite I3 in Hfit. lia.
    + apply Forall_app in I8. destruct I8 as [I8 I9]. inversion I9; subst.
      apply Forall_app. split; [exact I8|]. constructor; [|constructor].
      rewrite !no_newline_app, (word_no_newline w P3), andb_true_r.
      match goal with H : no_newline (segment st) = true |- _ => rewrite H end.
      destruct (0 <? current_line_size st); reflexivity.
  - (* the word opens a new line *)
    exists (bodies ++ [segment st]).
    assert (Hnb : is_nil (bodies ++ [segment st]) = false) by (destruct bodies; reflexivity).
    constructor; cbn [lines segment current_line_size].
    + rewrite I1, map_app. reflexivity.
    + rewrite <- I2, Hsw. rewrite concat_snoc. unfold add_newline.
      rewrite <- !app_assoc. rewrite app_assoc. simpl.
      rewrite (split_words_app C _ w newline newline_is_space).
      rewrite (split_words_word C w P3), <- app_assoc. reflexivity.
    + rewrite Hnb. lia.
    + destruct w; [discriminate|]. cbn [is_nil]. simpl List.length in *. lia.
    + intros _. exact P4.
    + destruct w; discriminate.
    + apply lines_fit_snoc; assumption.
    + apply Forall_app. split; [exact I8|]. constructor; [|constructor].
      apply word_no_newline. exact P3.
Qed.

Lemma lines_loop_inv (fuel : nat) (iss : list ascii) (st : lines_state)
    (bodies : list (list ascii)) :
  lines_inv C text max_len c0 iss st bodies ->
  (List.length iss < fuel)%nat ->
  exists iss' bodies',
    lines_inv C text max_len c0 iss' (lines_loop C fuel max_len iss st) bodies' /\
    extract_word C iss' = None.
Proof.
  revert iss st bodies. induction fuel as [|fuel IH]; intros iss st bodies Hi Hf; [lia|].
  simpl. destruct (extract_word C iss) as [[w rest]|] eqn:He.
  - destruct (place_word_inv iss st bodies w rest Hi He) as [bodies' Hi'].
    apply (IH rest _ bodies' Hi').
    apply extract_word_shorter in He. lia.
  - exists iss, bodies. auto.
Qed.

(** The result of [split_into_lines] is the lines of the final state and
    its segment, when it is not empty. *)
Lemma split_into_lines_final :
  max_len <> 0 ->
  exists bodies seg,
    split_into_lines C text max_len c0
    = map add_newline bodies ++ (if is_nil seg then [] else [seg]) /\
    (is_nil seg = true -> bodies = []) /\
    split_words C (List.concat (map add_newline bodies) ++ seg) = split_words C text /\
    lines_fit C max_len c0 (bodies ++ [seg]) /\
    Forall (fun b => no_newline b = true) (bodies ++ [seg]).
Proof.
  intros Hm. unfold split_into_lines.
  destruct (Z.eqb_spec max_len 0); [contradiction|]. cbn [orb].
  destruct (is_nil text) eqn:Hn.
  - exists [], []. simpl.
    assert (Ht : split_words C text = []) by (destruct text; [reflexivity | discriminate]).
    rewrite Ht. repeat split; auto.
  - destruct (lines_loop_inv (S (List.length text)) text _ [] lines_inv_initial)
      as [iss' [bodies' [[I1 I2 I3 I4 I5 I6 I7 I8] He]]]; [lia|].
    set (st := lines_loop C (S (List.length text)) max_len text _) in *.
    exists bodies', (segment st).
    rewrite (split_words_extract C iss'), He, app_nil_r in I2.
    rewrite <- I1. split; [|split; [|split; [|split]]]; auto.
    destruct (is_nil (segment st)); cbn [negb]; [symmetry; apply app_nil_r | reflexivity].
Qed.

End LinesFacts.

Lemma byte_classes_table : forallb byte_classes (map Z.of_nat (seq 0 256)) = true.
Proof. vm_compute. reflexivity. Qed.

Lemma byte_classes_ok (c : Z) : is_byte c -> byte_classes c = true.
Proof.
  intros H. pose proof byte_classes_table as T.
  rewrite forallb_forall in T. apply T.
  apply in_map_iff. exists (Z.to_nat c). split; [unfold is_byte in H; lia|].
  apply in_seq. unfold is_byte in H. lia.
Qed.

Lemma lead_byte_range (c : Z) :
  is_byte c -> is_lead_byte c = between 192 247 c.
Proof.
  intros H. pose proof (byte_classes_ok c H) as T. unfold byte_classes in T.
  apply andb_true_iff in T. destruct T as [T _].
  apply andb_true_iff in T. destruct T as [_ T].
  apply Bool.eqb_prop in T. exact T.
Qed.

Lemma trail_byte_range (c : Z) :
  is_byte c -> is_trail_byte c = between 128 191 c.
Proof.
  intros H. pose proof (byte_classes_ok c H) as T. unfold byte_classes in T.
  apply andb_true_iff in T. destruct T as [_ T].
  apply Bool.eqb_prop in T. exact T.
Qed.

Lemma lead_length_range (c : Z) :
  is_byte c ->
  lead_byte_length c =
    if between 192 223 c then 2
    else if between 224 239 c then 3
    else if between 240 247 c then 4
    else 1.
Proof.
  intros H. pose proof (byte_classes_ok c H) as T. unfold byte_classes in T.
  apply andb_true_iff in T. destruct T as [T _].
  apply andb_true_iff in T. destruct T as [T _].
  apply Z.eqb_eq in T. exact T.
Qed.

Lemma between_spec (lo hi c : Z) : between lo hi c = true <-> lo <= c <= hi.
Proof. unfold between. rewrite andb_true_iff, Z.leb_le, Z.leb_le. reflexivity. Qed.

Lemma between_false (lo hi c : Z) : between lo hi c = false <-> ~ (lo <= c <= hi).
Proof. rewrite <- between_spec. destruct (between lo hi c); split; congruence. Qed.

Section Storage.

Lemma store_length (buf : list Z) (i : nat) (v : Z) :
  List.length (store buf i v) = List.length buf.
Proof.
  revert i. induction buf as [|b buf IH]; intros i; [destruct i; reflexivity|].
  destruct i; simpl; [reflexivity|]. rewrite IH. reflexivity.
Qed.

Lemma nth_store (buf : list Z) (i j : nat) (v : Z) :
  nth j (store buf i v) 0 =
    if (j =? i)%nat && (i <? List.length buf)%nat then v else nth j buf 0.
Proof.
  revert i j. induction buf as [|b buf IH]; intros i j.
  - destruct i, j; simpl; try reflexivity. rewrite andb_false_r. reflexivity.
  - destruct i, j; simpl; try reflexivity. rewrite IH. reflexivity.
Qed.

Lemma store_bytes (buf : list Z) (i : nat) (v : Z) :
  Forall is_byte buf -> is_byte v -> Forall is_byte (store buf i v).
Proof.
  intros H Hv. revert i. induction H as [|b buf Hb H IH]; intros i.
  - destruct i; constructor.
  - destruct i; simpl; constructor; auto.
Qed.

Lemma c_str_inside (buf : list Z) (i : nat) :
  (i < List.length buf)%nat -> c_str buf i = Some (nth i buf 0).
Proof.
  intros H. unfold c_str. destruct (Nat.ltb_spec i (List.length buf)); [|lia].
  apply nth_error_nth'. exact H.
Qed.

Lemma c_str_end (buf : list Z) : c_str buf (List.length buf) = Some 0.
Proof.
  unfold c_str. rewrite Nat.ltb_irrefl, Nat.eqb_refl. reflexivity.
Qed.

Lemma c_str_outside (buf : list Z) (i : nat) :
  (List.length buf < i)%nat -> c_str buf i = None.
Proof.
  intros H. unfold c_str.
  destruct (Nat.ltb_spec i (List.length buf)); [lia|].
  destruct (Nat.eqb_spec i (List.length buf)); [lia|]. reflexivity.
Qed.

Lemma nth_bytes (buf : list Z) (i : nat) :
  Forall is_byte buf -> is_byte (nth i buf 0).
Proof.
  intros H. destruct (Nat.ltb_spec i (List.length buf)) as [Hl|Hg].
  - rewrite Forall_forall in H. apply H. apply nth_In. exact Hl.
  - rewrite nth_overflow by lia. unfold is_byte. lia.
Qed.

End Storage.

Section FixFacts.

Lemma valid_lead_defined (buf : list Z) (i : nat) :
  (i < List.length buf)%nat -> Forall is_byte buf ->
  is_valid_lead_byte (offset (c_str buf) i) <> None.
Proof.
  intros Hi Hb. unfold is_valid_lead_byte, offset, trail_at.
  rewrite Nat.add_0_r, (c_str_inside buf i Hi).
  destruct (lead_byte_length (nth i buf 0) =? 1); [discriminate|].
  assert (R : forall k, (k <= List.length buf)%nat ->
            exists b, c_str buf k = Some b /\
                      (is_trail_byte b = true -> (k < List.length buf)%nat)).
  { intros k Hk. destruct (Nat.eq_dec k (List.length buf)) as [->|Hn].
    - exists 0. rewrite c_str_end. split; [reflexivity|]. discriminate.
    - exists (nth k buf 0). rewrite c_str_inside by lia. split; [reflexivity|]. lia. }
  destruct (R (i + 1)%nat) as [b1 [E1 T1]]; [lia|]. rewrite E1. simpl.
  destruct (is_trail_byte b1) eqn:B1.
  - specialize (T1 eq_refl).
    destruct (R (i + 2)%nat) as [b2 [E2 T2]]; [lia|]. rewrite E2. simpl.
    destruct (is_trail_byte b2) eqn:B2.
    + specialize (T2 eq_refl).
      destruct (R (i + 3)%nat) as [b3 [E3 T3]]; [lia|]. rewrite E3. simpl.
      destruct (lead_byte_length (nth i buf 0) =? 2),
               (lead_byte_length (nth i buf 0) =? 3),
               (lead_byte_length (nth i buf 0) =? 4),
               (is_trail_byte b3); simpl; discriminate.
    + destruct (lead_byte_length (nth i buf 0) =? 2),
               (lead_byte_length (nth i buf 0) =? 3),
               (lead_byte_length (nth i buf 0) =? 4); simpl; discriminate.
  - destruct (lead_byte_length (nth i buf 0) =? 2),
             (lead_byte_length (nth i buf 0) =? 3),
             (lead_byte_length (nth i buf 0) =? 4); simpl; discriminate.
Qed.

Lemma fix_at_cases (buf buf' : list Z) (i : nat) :
  (i < List.length buf)%nat -> Forall is_byte buf ->
  fix_at buf i = Some buf' ->
  let ci := nth i buf 0 in
  buf' = buf \/
  (192 <= ci /\ buf' = store buf i (ci - 32)) \/
  (192 <= ci <= 247 /\ (i + 1 < List.length buf)%nat /\ nth (i + 1)%nat buf 0 = 255 /\
   (buf' = store buf (i + 1)%nat 159 \/
    buf' = store (store buf (i + 1)%nat 159) i (ci - 32))).
Proof.
  intros Hi Hb. unfold fix_at. rewrite (c_str_inside buf i Hi).
  pose proof (nth_bytes buf i Hb) as Hci. cbv zeta.
  set (ci := nth i buf 0) in *.
  rewrite (lead_byte_range ci Hci).
  destruct (between 192 247 ci) eqn:Hl.
  - apply between_spec in Hl.
    assert (Hm : (ci - 32) mod 256 = ci - 32) by (apply Z.mod_small; unfold is_byte in Hci; lia).
    rewrite Hm.
    destruct (Nat.eq_dec (i + 1)%nat (List.length buf)) as [He|Hn].
    + rewrite He, c_str_end. simpl.
      destruct (is_valid_lead_byte (offset (c_str buf) i)) as [[|]|]; intros H;
        [injection H as <-; auto | injection H as <-; right; left; split; [lia|reflexivity]
        | discriminate].
    + rewrite (c_str_inside buf (i + 1)%nat) by lia.
      destruct (Z.eqb_spec (nth (i + 1)%nat buf 0) 255) as [E|E].
      * destruct (is_valid_lead_byte (offset (c_str (store buf (i + 1)%nat 159)) i)) as [[|]|];
          intros H; [| |discriminate]; injection H as <-;
          right; right; (split; [exact Hl|]); (split; [lia|]); (split; [exact E|]); auto.
      * destruct (is_valid_lead_byte (offset (c_str buf) i)) as [[|]|]; intros H;
          [injection H as <-; auto | injection H as <-; right; left; split; [lia|reflexivity]
          | discriminate].
  - destruct (Z.leb_spec 248 ci) as [Hge|Hlt].
    + assert (Hm : (ci - 32) mod 256 = ci - 32)
        by (apply Z.mod_small; unfold is_byte in Hci; lia).
      rewrite Hm.
      destruct (c_str buf (i + 1)%nat), (c_str buf (i + 2)%nat), (c_str buf (i + 3)%nat);
        try discriminate.
      destruct (is_valid_lead_byte _) as [[|]|]; intros H; [| |discriminate];
        injection H as <-; [right; left; split; [lia|reflexivity] | auto].
    + intros H. injection H as <-. auto.
Qed.

Lemma fixing_start (orig : list Z) : Forall is_byte orig -> fixing orig 0 orig.
Proof. intros H. split; [reflexivity|]. split; [exact H|]. intros j. auto. Qed.

Lemma fixing_step (orig buf buf' : list Z) (i : nat) :
  (i < List.length orig)%nat ->
  fixing orig i buf ->
  fix_at buf i = Some buf' ->
  fixing orig (S i) buf'.
Proof.
  intros Hi [Hlen [Hb Hj]] Hf.
  assert (Hi' : (i < List.length buf)%nat) by lia.
  pose proof (fix_at_cases buf buf' i Hi' Hb Hf) as Hc. cbv zeta in Hc.
  assert (Hweak : forall j,
            nth j buf 0 = nth j orig 0 \/
            (192 <= nth j orig 0 /\ nth j buf 0 = nth j orig 0 - 32 /\ (j < S i)%nat) \/
            (nth j orig 0 = 255 /\ nth j buf 0 = 159 /\ (j <= S i)%nat)).
  { intros j. destruct (Hj j) as [H|[[H1 [H2 H3]]|[H1 [H2 H3]]]]; auto.
    - right. left. repeat split; auto.
    - right. right. repeat split; auto. }
  assert (Hnext : nth (i + 1)%nat buf 0 = nth (i + 1)%nat orig 0).
  { destruct (Hj (i + 1)%nat) as [H|[[_ [_ H]]|[_ [_ H]]]]; [exact H | lia | lia]. }
  assert (Hhere : 192 <= nth i buf 0 -> nth i buf 0 = nth i orig 0).
  { intros Hge. destruct (Hj i) as [H|[[_ [_ H]]|[_ [H _]]]]; [exact H | lia | lia]. }
  assert (B159 : is_byte 159) by (unfold is_byte; lia).
  assert (B32 : 192 <= nth i buf 0 -> is_byte (nth i buf 0 - 32)).
  { intros Hge. pose proof (nth_bytes buf i Hb). unfold is_byte in *. lia. }
  destruct Hc as [->|[[Hge ->]|[Hl [Hn [E [->| ->]]]]]].
  - split; [exact Hlen|]. split; [exact Hb|]. exact Hweak.
  - split; [rewrite store_length; exact Hlen|].
    split; [apply store_bytes; auto|].
    intros j. rewrite nth_store.
    destruct (Nat.eqb_spec j i) as [->|Hne]; simpl; [|apply Hweak].
    destruct (Nat.ltb_spec i (List.length buf)); [|lia].
    right. left. rewrite <- (Hhere Hge). repeat split; auto.
  - split; [rewrite store_length; exact Hlen|].
    split; [apply store_bytes; auto|].
    intros j. rewrite nth_store.
    destruct (Nat.eqb_spec j (i + 1)%nat) as [->|Hne]; simpl; [|apply Hweak].
    destruct (Nat.ltb_spec (i + 1)%nat (List.length buf)); [|lia].
    right. right. rewrite <- Hnext. repeat split; auto. lia.
  - split; [rewrite !store_length; exact Hlen|].
    split; [apply store_bytes; [apply store_bytes; auto | apply B32; lia]|].
    intros j. rewrite !nth_store, store_length.
    destruct (Nat.eqb_spec j i) as [->|Hne]; simpl.
    + destruct (Nat.ltb_spec i (List.length buf)); [|lia].
      right. left. rewrite <- (Hhere (proj1 Hl)). repeat split; auto. lia.
    + destruct (Nat.eqb_spec j (i + 1)%nat) as [->|Hne']; simpl; [|apply Hweak].
      destruct (Nat.ltb_spec (i + 1)%nat (List.length buf)); [|lia].
      right. right. rewrite <- Hnext. repeat split; auto. lia.
Qed.

Lemma fix_loop_fixing (orig : list Z) (count i : nat) (buf final : list Z) :
  (i + count <= List.length orig)%nat ->
  fixing orig i buf ->
  fix_loop count i buf = Some final ->
  fixing orig (i + count) final.
Proof.
  revert i buf. induction count as [|count IH]; intros i buf Hn Hf Hl; simpl in Hl.
  - injection Hl as <-. rewrite Nat.add_0_r. exact Hf.
  - destruct (fix_at buf i) as [buf'|] eqn:Ha; [|discriminate].
    replace (i + S count)%nat with (S i + count)%nat by lia.
    apply (IH (S i) buf'); [lia | | exact Hl].
    apply (fixing_step orig buf buf' i); [lia | exact Hf | exact Ha].
Qed.

Lemma fix_loop_app (a b i : nat) (buf : list Z) :
  fix_loop (a + b) i buf =
    match fix_loop a i buf with
    | Some mid => fix_loop b (i + a) mid
    | None => None
    end.
Proof.
  revert i buf. induction a as [|a IH]; intros i buf; simpl.
  - rewrite Nat.add_0_r. reflexivity.
  - destruct (fix_at buf i) as [buf'|]; [|reflexivity].
    rewrite IH. replace (S i + a)%nat with (i + S a)%nat by lia. reflexivity.
Qed.

Lemma until_zero_spec (buf : list Z) :
  until_zero buf = firstn (List.length (until_zero buf)) buf /\
  ~ In 0 (until_zero buf) /\
  (~ In 0 buf -> until_zero buf = buf).
Proof.
  induction buf as [|b buf [IH1 [IH2 IH3]]]; simpl; [auto|].
  destruct (Z.eqb_spec b 0) as [->|Hb]; simpl.
  - split; [reflexivity|]. split; [auto|]. intros H. exfalso. apply H. auto.
  - split; [f_equal; exact IH1|]. split.
    + intros [H|H]; [congruence | exact (IH2 H)].
    + intros H. f_equal. apply IH3. intros H'. apply H. auto.
Qed.

Lemma valid_lead_ext (c c' : pointer) :
  (forall k, c k = c' k) -> is_valid_lead_byte c = is_valid_lead_byte c'.
Proof.
  intros H. unfold is_valid_lead_byte, trail_at. rewrite !H. reflexivity.
Qed.

Lemma valid_lead_local (b0 b1 b2 b3 : Z) :
  is_valid_lead_byte (nth_error [b0; b1; b2; b3]) <> None.
Proof.
  unfold is_valid_lead_byte, trail_at. simpl.
  destruct (lead_byte_length b0 =? 1), (lead_byte_length b0 =? 2),
           (lead_byte_length b0 =? 3), (lead_byte_length b0 =? 4),
           (is_trail_byte b1), (is_trail_byte b2), (is_trail_byte b3);
    simpl; discriminate.
Qed.

(** The body of the loop stays within the storage unless the byte at hand
    is 0xf8 or more and one of the last two of the string. *)
Lemma fix_at_defined (buf : list Z) (i : nat) :
  (i < List.length buf)%nat -> Forall is_byte buf ->
  (248 <= nth i buf 0 -> (i + 3 <= List.length buf)%nat) ->
  fix_at buf i <> None.
Proof.
  intros Hi Hb Hh. unfold fix_at. rewrite (c_str_inside buf i Hi).
  assert (R : forall k, (k <= List.length buf)%nat -> exists b, c_str buf k = Some b).
  { intros k Hk. destruct (Nat.eq_dec k (List.length buf)) as [->|Hn].
    - exists 0. apply c_str_end.
    - exists (nth k buf 0). apply c_str_inside. lia. }
  destruct (is_lead_byte (nth i buf 0)).
  - destruct (R (i + 1)%nat) as [b1 E1]; [lia|]. rewrite E1.
    pose proof (valid_lead_defined (if b1 =? 255 then store buf (i + 1)%nat 159 else buf) i) as V.
    destruct (is_valid_lead_byte _) as [[|]|]; try discriminate.
    exfalso. apply V; [| |reflexivity].
    + destruct (b1 =? 255); [rewrite store_length|]; exact Hi.
    + destruct (b1 =? 255); [apply store_bytes; [exact Hb | unfold is_byte; lia] | exact Hb].
  - destruct (Z.leb_spec 248 (nth i buf 0)) as [Hge|Hlt]; [|discriminate].
    specialize (Hh Hge).
    destruct (R (i + 1)%nat) as [b1 E1]; [lia|].
    destruct (R (i + 2)%nat) as [b2 E2]; [lia|].
    destruct (R (i + 3)%nat) as [b3 E3]; [lia|].
    rewrite E1, E2, E3.
    pose proof (valid_lead_local ((nth i buf 0 - 32) mod 256) b1 b2 b3) as V.
    destruct (is_valid_lead_byte _) as [[|]|]; try discriminate.
    exfalso. apply V. reflexivity.
Qed.

(** It leaves the storage when such a byte is one of the last two. *)
Lemma fix_at_overrun (buf : list Z) (i : nat) :
  (i < List.length buf)%nat -> Forall is_byte buf ->
  248 <= nth i buf 0 -> (List.length buf < i + 3)%nat ->
  fix_at buf i = None.
Proof.
  intros Hi Hb Hge Hn. unfold fix_at. rewrite (c_str_inside buf i Hi).
  rewrite (lead_byte_range _ (nth_bytes buf i Hb)).
  replace (between 192 247 (nth i buf 0)) with false
    by (symmetry; apply between_false; lia).
  destruct (Z.leb_spec 248 (nth i buf 0)); [|lia].
  rewrite (c_str_outside buf (i + 3)%nat) by lia.
  destruct (c_str buf (i + 1)%nat), (c_str buf (i + 2)%nat); reflexivity.
Qed.

Lemma fixing_high (orig buf : list Z) (i j : nat) :
  Forall is_byte orig -> fixing orig i buf -> 248 <= nth j buf 0 -> 248 <= nth j orig 0.
Proof.
  intros Ho [_ [_ H]] Hge. pose proof (nth_bytes orig j Ho) as Hb. unfold is_byte in Hb.
  destruct (H j) as [E|[[_ [E _]]|[_ [E _]]]]; lia.
Qed.

Lemma fix_loop_defined (orig : list Z) (count i : nat) (buf : list Z) :
  Forall is_byte orig ->
  (forall j, (j < List.length orig)%nat -> (List.length orig < j + 3)%nat ->
             nth j orig 0 < 248) ->
  (i + count <= List.length orig)%nat ->
  fixing orig i buf ->
  fix_loop count i buf <> None.
Proof.
  intros Ho Hlast. revert i buf. induction count as [|count IH]; intros i buf Hn Hf; simpl.
  - discriminate.
  - destruct Hf as [Hlen [Hb Hj]].
    assert (Hd : fix_at buf i <> None).
    { apply fix_at_defined; [lia | exact Hb |].
      intros Hge. rewrite Hlen.
      pose proof (fixing_high orig buf i i Ho (conj Hlen (conj Hb Hj)) Hge) as Hh.
      destruct (Nat.le_gt_cases (i + 3)%nat (List.length orig)) as [Hle|Hgt]; [exact Hle|].
      specialize (Hlast i). lia. }
    destruct (fix_at buf i) as [buf'|] eqn:Ha; [|contradiction].
    apply IH; [lia|].
    apply (fixing_step orig buf buf' i); [lia | split; auto | exact Ha].
Qed.

End FixFacts.

Section WellFormed.

Lemma c_str_skipn (buf : list Z) (i k : nat) :
  (i <= List.length buf)%nat -> c_str buf (i + k)%nat = c_str (skipn i buf) k.
Proof.
  intros Hi. unfold c_str. rewrite length_skipn, nth_error_skipn.
  destruct (Nat.ltb_spec (i + k) (List.length buf)),
           (Nat.ltb_spec k (List.length buf - i)); try lia; try reflexivity.
  destruct (Nat.eqb_spec (i + k) (List.length buf)),
           (Nat.eqb_spec k (List.length buf - i)); try lia; reflexivity.
Qed.

Lemma settled_fix_at (buf : list Z) (i : nat) :
  (i < List.length buf)%nat -> settled (skipn i buf) -> fix_at buf i = Some buf.
Proof.
  intros Hi Hs. unfold fix_at. rewrite (c_str_inside buf i Hi).
  assert (Hsk : skipn i buf = nth i buf 0 :: skipn (S i) buf).
  { clear Hs. revert i Hi. induction buf as [|b buf IH]; intros i Hi; simpl in Hi; [lia|].
    destruct i; [reflexivity|]. simpl. apply IH. lia. }
  rewrite Hsk in Hs. unfold settled in Hs. rewrite <- Hsk in Hs.
  destruct (is_lead_byte (nth i buf 0)).
  - destruct Hs as [Hn Hv].
    rewrite (c_str_skipn buf i 1%nat) by lia. rewrite Hsk.
    assert (Hnext : exists b, c_str (nth i buf 0 :: skipn (S i) buf) 1%nat = Some b /\ b <> 255).
    { clear Hsk Hv. set (r := skipn (S i) buf) in *. clearbody r.
      destruct r as [|b r]; simpl in Hn.
      - exists 0. split; [reflexivity | lia].
      - exists b. split; [reflexivity | exact Hn]. }
    destruct Hnext as [b [-> Hb]].
    destruct (Z.eqb_spec b 255); [contradiction|].
    rewrite (valid_lead_ext _ (c_str (skipn i buf))), Hv; [reflexivity|].
    intros k. unfold offset. apply c_str_skipn. lia.
  - destruct (Z.leb_spec 248 (nth i buf 0)); [lia | reflexivity].
Qed.

Lemma well_formed_trail (p : nat) (s : list Z) :
  well_formed (S p) s = true ->
  exists t rest, s = t :: rest /\ is_trail_byte t = true /\ well_formed p rest = true.
Proof.
  destruct s as [|t rest]; simpl; [discriminate|].
  intros H. apply andb_true_iff in H. destruct H as [H1 H2].
  exists t, rest. auto.
Qed.

Lemma trail_hd (t : Z) : is_byte t -> is_trail_byte t = true -> t <> 255 /\ t <> 0.
Proof.
  intros Hb H. rewrite (trail_byte_range t Hb) in H. apply between_spec in H. lia.
Qed.

Lemma well_formed_settled (p : nat) (s : list Z) :
  Forall is_byte s -> well_formed p s = true -> settled s /\ ~ In 0 s /\
  exists p', well_formed p' (tl s) = true.
Proof.
  intros Hb H. destruct s as [|c rest]; [simpl; auto; split; [exact I|]; split; [auto|]; exists p; exact H|].
  inversion Hb as [|? ? Hc Hr]; subst.
  assert (Hz : forall q, well_formed q rest = true -> ~ In 0 rest).
  { clear -Hr. induction rest as [|a rest IH]; intros q H; [auto|].
    inversion Hr as [|? ? Ha Hr']; subst.
    simpl in H. intros [E|E].
    - subst a. destruct q; simpl in H; discriminate.
    - destruct q.
      + destruct (between 1 127 a); [exact (IH Hr' _ H E)|].
        apply andb_true_iff in H. destruct H as [_ H]. exact (IH Hr' _ H E).
      + apply andb_true_iff in H. destruct H as [_ H]. exact (IH Hr' _ H E). }
  simpl in H. destruct p as [|p].
  - destruct (between 1 127 c) eqn:Ha.
    + apply between_spec in Ha. split; [|split].
      * unfold settled. rewrite (lead_byte_range c Hc).
        replace (between 192 247 c) with false by (symmetry; apply between_false; lia). lia.
      * intros [E|E]; [lia | exact (Hz _ H E)].
      * exists 0%nat. exact H.
    + apply andb_true_iff in H. destruct H as [Hl H].
      pose proof Hl as Hl'. rewrite (lead_byte_range c Hc) in Hl'. apply between_spec in Hl'.
      split; [|split].
      * unfold settled. rewrite Hl.
        pose proof (lead_length_range c Hc) as Hlen.
        unfold is_valid_lead_byte, trail_at, c_str. simpl.
        destruct (between 192 223 c) eqn:B2; [|destruct (between 224 239 c) eqn:B3;
          [|destruct (between 240 247 c) eqn:B4]]; rewrite Hlen in *; simpl in H.
        -- destruct (well_formed_trail _ _ H) as [t1 [r1 [-> [T1 _]]]].
           inversion Hr; subst. simpl. rewrite T1. simpl.
           split; [apply (trail_hd t1); assumption | reflexivity].
        -- destruct (well_formed_trail _ _ H) as [t1 [r1 [-> [T1 H1]]]].
           destruct (well_formed_trail _ _ H1) as [t2 [r2 [-> [T2 _]]]].
           inversion Hr; subst. simpl. rewrite T1, T2. simpl.
           split; [apply (trail_hd t1); assumption | reflexivity].
        -- destruct (well_formed_trail _ _ H) as [t1 [r1 [-> [T1 H1]]]].
           destruct (well_formed_trail _ _ H1) as [t2 [r2 [-> [T2 H2]]]].
           destruct (well_formed_trail _ _ H2) as [t3 [r3 [-> [T3 _]]]].
           inversion Hr; subst. simpl. rewrite T1, T2, T3. simpl.
           split; [apply (trail_hd t1); assumption | reflexivity].
        -- apply between_false in B2, B3, B4. lia.
      * intros [E|E]; [lia | exact (Hz _ H E)].
      * eexists. exact H.
  - apply andb_true_iff in H. destruct H as [Ht H].
    pose proof Ht as Ht'. rewrite (trail_byte_range c Hc) in Ht'. apply between_spec in Ht'.
    split; [|split].
    + unfold settled. rewrite (lead_byte_range c Hc).
      replace (between 192 247 c) with false by (symmetry; apply between_false; lia). lia.
    + intros [E|E]; [lia | exact (Hz _ H E)].
    + exists p. exact H.
Qed.

Lemma well_formed_all_settled (s : list Z) (p : nat) (i : nat) :
  Forall is_byte s -> well_formed p s = true -> settled (skipn i s).
Proof.
  revert s p. induction i as [|i IH]; intros s p Hb H.
  - apply (well_formed_settled p s Hb H).
  - destruct s as [|c rest]; [exact I|].
    destruct (well_formed_settled p _ Hb H) as [_ [_ [p' H']]].
    inversion Hb; subst. exact (IH rest p' ltac:(assumption) H').
Qed.

Lemma fix_loop_settled (s : list Z) (count i : nat) :
  (i + count <= List.length s)%nat ->
  (forall j, settled (skipn j s)) ->
  fix_loop count i s = Some s.
Proof.
  intros Hn Hs. revert i Hn. induction count as [|count IH]; intros i Hn; [reflexivity|].
  simpl. rewrite (settled_fix_at s i) by (try lia; apply Hs).
  apply IH. lia.
Qed.

End WellFormed.

(** ** [trim] *)

(** X10.  [trim] takes white space off both ends and nothing else: the
    string is a run of white space, then the result, then a run of white
    space; the result neither starts nor ends with a white-space
    character; a string of white space only becomes the empty string. *)
Theorem trim_strips_both_ends (C : locale) (s : list ascii) :
  (exists pre suf,
     s = pre ++ trim C s ++ suf /\ all_space C pre = true /\ all_space C suf = true) /\
  (forall c, hd_error (trim C s) = Some c -> isspace C c = false) /\
  (forall c, hd_error (rev (trim C s)) = Some c -> isspace C c = false) /\
  (all_space C s = true -> trim C s = []).
Proof.
  split; [apply trim_parts|]. split; [apply trim_ends|]. split; [apply trim_ends|].
  intros Hs. rewrite trim_spec, (skip_space_all C s Hs). reflexivity.
Qed.

(** X11.  [trim] is idempotent, and it leaves a string as it is exactly
    when the string neither starts nor ends with white space. *)
Theorem trim_is_idempotent (C : locale) (s : list ascii) :
  trim C (trim C s) = trim C s /\
  (trim C s = s <->
     (forall c, hd_error s = Some c -> isspace C c = false) /\
     (forall c, hd_error (rev s) = Some c -> isspace C c = false)).
Proof.
  destruct (trim_ends C s) as [Hh Hl].
  split.
  - apply trim_fixed; assumption.
  - split.
    + intros E. rewrite E in Hh, Hl. split; assumption.
    + intros [A B]. apply trim_fixed; assumption.
Qed.

(** ** [split] *)

(** X12.  The tokens of [split] are the fields of the string: none is
    empty and none holds the delimiter; put end to end they are the
    string without its delimiters, in order; and a string without
    delimiter is its only token, the empty string having none. *)
Theorem split_yields_the_fields (s : list ascii) (d : ascii) :
  forallb (is_token d) (split s d) = true /\
  List.concat (split s d) = filter (fun c => negb (Ascii.eqb d c)) s /\
  (has d s = false -> split s d = if is_nil s then [] else [s]).
Proof.
  destruct (split_tokens d s) as [H1 H2].
  split; [exact H1|]. split; [exact H2|]. apply split_token.
Qed.

(** X13.  [split] works field by field: the tokens of two strings with a
    delimiter between them are the tokens of the first followed by those
    of the second; so a delimiter in front or at the end, and a delimiter
    repeated, add no token. *)
Theorem split_distributes_over_the_delimiter (a b : list ascii) (d : ascii) :
  split (a ++ d :: b) d = split a d ++ split b d /\
  split (d :: b) d = split b d /\
  split (a ++ [d]) d = split a d /\
  split (a ++ d :: d :: b) d = split a d ++ split b d.
Proof.
  split; [apply split_app|]. split; [apply (split_app d [] b)|]. split.
  - rewrite split_app. apply app_nil_r.
  - rewrite split_app. f_equal. apply (split_app d [] b).
Qed.

(** X14.  [split] undoes a join: tokens that are not empty and hold no
    delimiter, put together with the delimiter between them, are found
    again. *)
Theorem split_inverts_join (tokens : list (list ascii)) (d : ascii) :
  forallb (is_token d) tokens = true -> split (join d tokens) d = tokens.
Proof. apply split_join. Qed.

Lemma split_inverts_join_witness :
  let tokens := [chars "en"; chars "de"; chars "uk"] in
  forallb (is_token ","%char) tokens = true /\
  split (chars "en,de,uk") ","%char = tokens.
Proof.
  cbv zeta. split; [reflexivity|].
  exact (split_inverts_join [chars "en"; chars "de"; chars "uk"] ","%char eq_refl).
Defined.

(** ** [split_words] *)

(** X15.  The words of [split_words]: none is empty and none holds white
    space; put end to end they are the string without its white space, in
    order; they are what the extraction [>>] of a stream yields, one word
    after the other; and white space in front and at the end adds
    nothing. *)
Theorem split_words_yields_the_words (C : locale) (s : list ascii) :
  forallb (is_word C) (split_words C s) = true /\
  List.concat (split_words C s) = filter (fun c => negb (isspace C c)) s /\
  split_words C s =
    match extract_word C s with
    | None => []
    | Some (w, rest) => w :: split_words C rest
    end /\
  (forall pre suf, all_space C pre = true -> all_space C suf = true ->
     split_words C (pre ++ s ++ suf) = split_words C s).
Proof.
  destruct (split_words_words C s) as [H1 H2].
  split; [exact H1|]. split; [exact H2|]. split; [apply split_words_extract|].
  intros pre suf Hp Hs.
  rewrite (split_words_prefix C pre _ Hp). apply split_words_suffix. exact Hs.
Qed.

(** X16.  When the delimiter is the only white space that occurs in a
    string, [split_words] and [split] at that delimiter give the same
    list. *)
Theorem split_words_agrees_with_split (C : locale) (s : list ascii) (d : ascii) :
  (forall c, In c s -> isspace C c = Ascii.eqb c d) ->
  split_words C s = split s d.
Proof. apply split_words_split. Qed.

Lemma split_words_agrees_with_split_witness :
  let s := chars "a  bc " in
  (forall c, In c s -> isspace c_locale c = Ascii.eqb c " "%char) /\
  split_words c_locale s = split s " "%char.
Proof.
  cbv zeta.
  assert (H : forall c, In c (chars "a  bc ") -> isspace c_locale c = Ascii.eqb c " "%char).
  { intros c Hc. simpl in Hc.
    destruct Hc as [<-|[<-|[<-|[<-|[<-|[<-|[]]]]]]]; reflexivity. }
  split; [exact H|].
  exact (split_words_agrees_with_split c_locale (chars "a  bc ") " "%char H).
Defined.

(** X17.  Trimming a string does not change its words. *)
Theorem split_words_ignores_trimming (C : locale) (s : list ascii) :
  split_words C (trim C s) = split_words C s.
Proof. apply split_words_trim. Qed.

(** ** [remove_leading_trailing_nonalpha] *)

(** X18.  In a locale where no character is both white space and
    punctuation, as the C standard requires of [ispunct], the test of
    lines 119-121 and 125-127 holds of every character, so nothing is
    taken off the end and exactly one character is taken off the front:
    a string of three characters or more loses its first character,
    whatever it is.  A string of at most two characters is reduced to
    its alphabetic characters. *)
Theorem remove_nonalpha_drops_the_first_character (C : locale) (s : list ascii) :
  (forall c, isspace C c = true -> ispunct C c = false) ->
  remove_leading_trailing_nonalpha C s =
    Some (if (List.length s <=? 2)%nat then filter (isalpha C) s else tl s).
Proof.
  intros HC. destruct (Nat.leb_spec (List.length s) 2) as [H|H].
  - apply remove_short. exact H.
  - apply remove_long; [exact HC | lia].
Qed.

Lemma remove_nonalpha_drops_the_first_character_witness :
  (forall c, isspace c_locale c = true -> ispunct c_locale c = false) /\
  remove_leading_trailing_nonalpha c_locale (chars "hello, world!")
  = Some (chars "ello, world!").
Proof.
  assert (H : forall c, isspace c_locale c = true -> ispunct c_locale c = false).
  { intros c. destruct c as [[] [] [] [] [] [] [] []]; vm_compute; congruence. }
  split; [exact H|].
  exact (remove_nonalpha_drops_the_first_character c_locale (chars "hello, world!") H).
Defined.

(** ** [split_into_lines] *)

(** X19.  [split_into_lines] breaks no word and loses none: in a locale
    where the space and the line feed are white space, for a maximal
    length that is not zero and sizes that do not wrap around, the words
    of the lines put end to end are the words of the text, in order. *)
Theorem split_into_lines_keeps_the_words
    (C : locale) (text : list ascii) (max_len c0 : Z) :
  isspace C space = true ->
  isspace C newline = true ->
  max_len <> 0 ->
  0 <= c0 ->
  c0 + Z.of_nat (List.length text) + 1 < size_max ->
  split_words C (List.concat (split_into_lines C text max_len c0)) = split_words C text.
Proof.
  intros Hs Hn Hm H0 Hw.
  destruct (split_into_lines_final C Hs Hn text max_len c0 H0 Hw Hm)
    as [bodies [seg [E [_ [W _]]]]].
  rewrite E, concat_app, <- W. f_equal. f_equal.
  destruct seg; simpl; [reflexivity | rewrite app_nil_r; reflexivity].
Qed.

Lemma split_into_lines_keeps_the_words_witness :
  let text := chars "the quick brown fox" in
  isspace c_locale space = true /\
  isspace c_locale newline = true /\
  10 <> 0 /\
  0 <= 7 /\
  7 + Z.of_nat (List.length text) + 1 < size_max /\
  split_words c_locale (List.concat (split_into_lines c_locale text 10 7))
  = split_words c_locale text.
Proof.
  cbv zeta.
  assert (H3 : 10 <> 0) by discriminate.
  assert (H4 : 0 <= 7) by discriminate.
  assert (H5 : 7 + Z.of_nat (List.length (chars "the quick brown fox")) + 1 < size_max)
    by reflexivity.
  split; [reflexivity|]. split; [reflexivity|]. split; [exact H3|].
  split; [exact H4|]. split; [exact H5|].
  exact (split_into_lines_keeps_the_words c_locale (chars "the quick brown fox") 10 7
           eq_refl eq_refl H3 H4 H5).
Defined.

(** A text without a word gives no line. *)
Lemma split_into_lines_blank (C : locale) (text : list ascii) (max_len c0 : Z) :
  all_space C text = true -> split_into_lines C text max_len c0 = [].
Proof.
  intros H. unfold split_into_lines.
  destruct ((max_len =? 0) || is_nil text); [reflexivity|].
  cbn [lines_loop]. unfold extract_word. rewrite (skip_space_all C text H).
  reflexivity.
Qed.

(** X20.  The shape of the result of [split_into_lines], under the same
    conditions on the locale and the sizes: every line but the last ends
    with a line feed, and the last, if there is one, is not empty and
    has none; no line has a line feed inside; the first line, which
    continues a line of [c0] characters, is empty or fits the maximal
    length; each other line fits it or is a single word.  With a maximal
    length of zero, or a text of white space only, there are no lines at
    all. *)
Theorem split_into_lines_fits_the_lines
    (C : locale) (text : list ascii) (max_len c0 : Z) :
  isspace C space = true ->
  isspace C newline = true ->
  0 <= c0 ->
  c0 + Z.of_nat (List.length text) + 1 < size_max ->
  (exists bodies last_line,
     split_into_lines C text max_len c0
     = map add_newline bodies ++ (if is_nil last_line then [] else [last_line]) /\
     (is_nil last_line = true -> bodies = []) /\
     lines_fit C max_len c0 (bodies ++ [last_line]) /\
     Forall (fun b => no_newline b = true) (bodies ++ [last_line])) /\
  (max_len = 0 -> split_into_lines C text max_len c0 = []) /\
  (all_space C text = true -> split_into_lines C text max_len c0 = []).
Proof.
  intros Hs Hn H0 Hw. split; [|split; [|apply split_into_lines_blank]].
  - destruct (Z.eq_dec max_len 0) as [Hz|Hm].
    + exists [], []. unfold split_into_lines. rewrite Hz. simpl.
      repeat split; auto.
    + destruct (split_into_lines_final C Hs Hn text max_len c0 H0 Hw Hm)
        as [bodies [seg [E [F [_ [G K]]]]]].
      exists bodies, seg. auto.
  - intros ->. reflexivity.
Qed.

Lemma split_into_lines_fits_the_lines_witness :
  let text := chars "the quick brown fox" in
  isspace c_locale space = true /\
  isspace c_locale newline = true /\
  0 <= 7 /\
  7 + Z.of_nat (List.length text) + 1 < size_max /\
  split_into_lines c_locale text 10 7
  = [[newline]; add_newline (chars "the quick"); chars "brown fox"] /\
  exists bodies last_line,
    split_into_lines c_locale text 10 7
    = map add_newline bodies ++ (if is_nil last_line then [] else [last_line]) /\
    lines_fit c_locale 10 7 (bodies ++ [last_line]).
Proof.
  cbv zeta.
  assert (H3 : 0 <= 7) by discriminate.
  assert (H4 : 7 + Z.of_nat (List.length (chars "the quick brown fox")) + 1 < size_max)
    by reflexivity.
  split; [reflexivity|]. split; [reflexivity|]. split; [exact H3|]. split; [exact H4|].
  split; [reflexivity|].
  destruct (proj1 (split_into_lines_fits_the_lines c_locale (chars "the quick brown fox")
                     10 7 eq_refl eq_refl H3 H4))
    as [bodies [last_line [E [_ [F _]]]]].
  exists bodies, last_line. split; [exact E | exact F].
Defined.

(** ** [get_last_line_length] *)

Lemma forallb_reversed {A : Type} (p : A -> bool) (l : list A) :
  forallb p (rev l) = forallb p l.
Proof.
  induction l as [|a l IH]; simpl; [reflexivity|].
  rewrite forallb_app, IH. simpl. rewrite andb_true_r. apply andb_comm.
Qed.

(** X21.  [get_last_line_length] is the number of characters after the
    last line feed of the file: the content is a part that is empty or
    ends with a line feed, followed by as many characters without line
    feed as the function returns.  A file that cannot be opened counts
    for 0, as does an empty one. *)
Theorem last_line_length_counts_after_the_last_newline
    (fs : filesystem) (file_path : string) :
  (forall file, ifstream fs file_path = Some file ->
                Z.of_nat (List.length file) < 2 ^ 64) ->
  match ifstream fs file_path with
  | None => get_last_line_length fs file_path = 0
  | Some file =>
      exists before last_line,
        file = before ++ last_line /\
        no_newline last_line = true /\
        (before = [] \/ exists b, before = b ++ [newline]) /\
        get_last_line_length fs file_path = Z.of_nat (List.length last_line)
  end.
Proof.
  intros Hsize. destruct (ifstream fs file_path) as [file|] eqn:Ho.
  2:{ unfold get_last_line_length. rewrite Ho. reflexivity. }
  rewrite (get_last_line_length_spec fs file_path file Ho (Hsize file eq_refl)).
  set (k := find_if is_newline (rev file)).
  pose proof (find_if_split is_newline (rev file)) as [Hf Hs]. fold k in Hf, Hs.
  pose proof (find_if_le is_newline (rev file)) as Hk. fold k in Hk.
  rewrite length_rev in Hk.
  exists (rev (skipn k (rev file))), (rev (firstn k (rev file))).
  split; [|split; [|split]].
  - rewrite <- rev_app_distr, firstn_skipn, rev_involutive. reflexivity.
  - unfold no_newline. rewrite forallb_reversed. exact Hf.
  - destruct (skipn k (rev file)) as [|c r]; [left; reflexivity|].
    right. exists (rev r). simpl. f_equal. f_equal.
    unfold is_newline in Hs. apply Ascii.eqb_eq in Hs. exact Hs.
  - rewrite length_rev, length_firstn, length_rev. f_equal. lia.
Qed.

Lemma last_line_length_counts_after_the_last_newline_witness :
  (forall file, ifstream two_files "out" = Some file ->
                Z.of_nat (List.length file) < 2 ^ 64) /\
  get_last_line_length two_files "out" = 10 /\
  exists before last_line,
    chars "first line" = before ++ last_line /\
    no_newline last_line = true /\
    (before = [] \/ exists b, before = b ++ [newline]) /\
    get_last_line_length two_files "out" = Z.of_nat (List.length last_line).
Proof.
  assert (H : forall file, ifstream two_files "out" = Some file ->
                Z.of_nat (List.length file) < 2 ^ 64).
  { intros file Hf.
    assert (Hc : ifstream two_files "out" = Some (chars "first line")) by reflexivity.
    rewrite Hc in Hf. injection Hf as <-. reflexivity. }
  split; [exact H|]. split; [reflexivity|].
  exact (last_line_length_counts_after_the_last_newline two_files "out" H).
Defined.

(** ** [clear_output_files_on_start] *)

(** X22.  [clear_output_files_on_start] with a path that is not empty:
    the output file is created or emptied when it can be opened for
    writing; the translation file of a language code is emptied when it
    exists and can be opened, and is never created; every other file
    keeps its content; and what can be opened stays as it is. *)
Theorem clear_output_files_empties_only_the_named_files
    (P : path_library) (output_file_path : string)
    (language_codes_to_whisper : list (string * string)) (fs : filesystem) :
  output_file_path <> EmptyString ->
  let fs' := clear_output_files_on_start P output_file_path language_codes_to_whisper fs in
  (forall q,
     content_of fs' q =
       if (String.eqb q output_file_path && writable fs output_file_path)
          || (existsb (String.eqb q)
                (translation_paths P output_file_path language_codes_to_whisper)
              && exists_file fs q && writable fs q)
       then Some [] else content_of fs q) /\
  readable fs' = readable fs /\
  writable fs' = writable fs /\
  clear_output_files_on_start P EmptyString language_codes_to_whisper fs = fs.
Proof.
  intros Hp. cbv zeta. rewrite (clear_step_fold P _ _ fs Hp).
  split; [|split; [|split]].
  - intros q.
    destruct (clear_loop_spec P output_file_path language_codes_to_whisper
                (truncate output_file_path fs) q) as [H _].
    cbv zeta in H. rewrite H. clear H.
    unfold exists_file. rewrite !truncate_content.
    destruct (truncate_modes output_file_path fs) as [_ ->].
    destruct (String.eqb q output_file_path && writable fs output_file_path) eqn:Hq; simpl.
    + destruct (existsb _ _ && true && writable fs q); reflexivity.
    + reflexivity.
  - destruct (clear_loop_spec P output_file_path language_codes_to_whisper
                (truncate output_file_path fs) EmptyString) as [_ [H _]].
    cbv zeta in H. rewrite H. apply truncate_modes.
  - destruct (clear_loop_spec P output_file_path language_codes_to_whisper
                (truncate output_file_path fs) EmptyString) as [_ [_ H]].
    cbv zeta in H. rewrite H. apply truncate_modes.
  - reflexivity.
Qed.

Lemma clear_output_files_empties_only_the_named_files_witness :
  let fs' := clear_output_files_on_start plain_names "out"
               [("de", "german"); ("fr", "french")]%string two_files in
  "out"%string <> EmptyString /\
  content_of fs' "out" = Some [] /\
  content_of fs' "out_de" = Some [] /\
  content_of fs' "out_fr" = None.
Proof.
  cbv zeta.
  assert (H : "out"%string <> EmptyString) by discriminate.
  split; [exact H|].
  destruct (clear_output_files_empties_only_the_named_files plain_names "out"
              [("de", "german"); ("fr", "french")]%string two_files H) as [E _].
  split; [rewrite E; reflexivity|]. split; rewrite E; reflexivity.
Defined.

(** ** [fix_utf8] *)

(** X23.  The bit tests of lines 10-25 as ranges of bytes: a lead byte
    is a byte from 0xc0 to 0xf7, of length 2 up to 0xdf, 3 up to 0xef and
    4 above; a trail byte is a byte from 0x80 to 0xbf; every other byte
    has length 1; [is_lead_byte] holds exactly when the length is not 1,
    and no byte is both a lead and a trail byte. *)
Theorem byte_classes_are_ranges (c : Z) :
  0 <= c < 256 ->
  lead_byte_length c
  = (if between 192 223 c then 2
     else if between 224 239 c then 3
     else if between 240 247 c then 4
     else 1) /\
  is_lead_byte c = between 192 247 c /\
  is_trail_byte c = between 128 191 c /\
  is_lead_byte c = negb (lead_byte_length c =? 1) /\
  is_lead_byte c && is_trail_byte c = false.
Proof.
  intros H.
  assert (T : forallb (fun c => byte_classes c
                         && Bool.eqb (is_lead_byte c) (negb (lead_byte_length c =? 1))
                         && negb (is_lead_byte c && is_trail_byte c))
                (map Z.of_nat (seq 0 256)) = true) by (vm_compute; reflexivity).
  rewrite forallb_forall in T.
  assert (Hin : In c (map Z.of_nat (seq 0 256))).
  { apply in_map_iff. exists (Z.to_nat c). split; [lia|]. apply in_seq. lia. }
  specialize (T c Hin).
  apply andb_true_iff in T. destruct T as [T T3].
  apply andb_true_iff in T. destruct T as [_ T2].
  apply Bool.eqb_prop in T2. apply negb_true_iff in T3.
  split; [apply lead_length_range; exact H|].
  split; [apply lead_byte_range; exact H|].
  split; [apply trail_byte_range; exact H|].
  split; [exact T2 | exact T3].
Qed.

Lemma byte_classes_are_ranges_witness :
  0 <= 195 < 256 /\ lead_byte_length 195 = 2 /\ is_lead_byte 195 = true.
Proof.
  assert (H : 0 <= 195 < 256) by lia.
  split; [exact H|].
  destruct (byte_classes_are_ranges 195 H) as [E1 [E2 _]].
  split; [exact E1 | exact E2].
Defined.

Lemma nth_firstn_lt (l : list Z) (k j : nat) :
  (j < k)%nat -> nth j (firstn k l) 0 = nth j l 0.
Proof.
  revert k j. induction l as [|a l IH]; intros k j H.
  - rewrite firstn_nil. reflexivity.
  - destruct k; [lia|]. destruct j; [reflexivity|]. simpl. apply IH. lia.
Qed.

(** X24.  What [fix_utf8] may change, when it returns: the result is no
    longer than the string, and as long when the string holds no zero
    byte; on Windows it holds no zero byte; each of its bytes is the
    byte of the string at the same place, or that byte less 0x20 where
    it was 0xc0 or more, or 0x9f where it was 0xff.  So a byte below
    0xc0, an ASCII character or a trail byte, is never altered.  Where
    [_WIN32] is not defined the result is the string. *)
Theorem fix_utf8_alters_only_high_bytes (win32 : bool) (str out : list Z) :
  Forall is_byte str ->
  fix_utf8 win32 str = Some out ->
  (List.length out <= List.length str)%nat /\
  (~ In 0 str -> List.length out = List.length str) /\
  (win32 = true -> ~ In 0 out) /\
  (win32 = false -> out = str) /\
  (forall j, (j < List.length out)%nat ->
     nth j out 0 = nth j str 0 \/
     (192 <= nth j str 0 /\ nth j out 0 = nth j str 0 - 32) \/
     (nth j str 0 = 255 /\ nth j out 0 = 159)) /\
  (forall j, (j < List.length out)%nat -> nth j str 0 < 192 ->
     nth j out 0 = nth j str 0).
Proof.
  intros Hb Hf. unfold fix_utf8 in Hf. destruct win32.
  2:{ injection Hf as <-. repeat split; auto; try lia; discriminate. }
  destruct (fix_loop (List.length str) 0 str) as [final|] eqn:Hl; [|discriminate].
  injection Hf as <-.
  pose proof (fix_loop_fixing str (List.length str) 0 str final (Nat.le_refl _)
                (fixing_start str Hb) Hl) as [Hlen [Hbf Hj]].
  destruct (until_zero_spec final) as [U1 [U2 U3]].
  set (out := until_zero final) in *.
  assert (Hk : (List.length out <= List.length final)%nat).
  { rewrite U1, length_firstn. lia. }
  assert (Hnth : forall j, (j < List.length out)%nat -> nth j out 0 = nth j final 0).
  { intros j Hjk. rewrite U1. apply nth_firstn_lt. exact Hjk. }
  assert (Hcases : forall j, (j < List.length out)%nat ->
            nth j out 0 = nth j str 0 \/
            (192 <= nth j str 0 /\ nth j out 0 = nth j str 0 - 32) \/
            (nth j str 0 = 255 /\ nth j out 0 = 159)).
  { intros j Hjk. rewrite (Hnth j Hjk).
    destruct (Hj j) as [E|[[E1 [E2 _]]|[E1 [E2 _]]]]; auto. }
  split; [lia|]. split; [|split; [|split; [|split]]].
  - intros Hz. rewrite U3; [exact Hlen|].
    intros Hin. apply (In_nth _ _ 0) in Hin. destruct Hin as [j [Hjl Hj0]].
    destruct (Hj j) as [E|[[E1 [E2 _]]|[_ [E2 _]]]]; try lia.
    apply Hz. rewrite <- Hj0, E. apply nth_In. lia.
  - intros _. exact U2.
  - discriminate.
  - exact Hcases.
  - intros j Hjk Hlow. destruct (Hcases j Hjk) as [E|[[E1 _]|[E1 _]]]; [exact E | lia | lia].
Qed.

Lemma fix_utf8_alters_only_high_bytes_witness :
  let str := [104; 227; 255; 65] in
  Forall is_byte str /\
  fix_utf8 true str = Some [104; 195; 159; 65] /\
  (List.length [104; 195; 159; 65] <= List.length str)%nat.
Proof.
  cbv zeta.
  assert (Hb : Forall is_byte [104; 227; 255; 65])
    by (repeat constructor; unfold is_byte; lia).
  assert (Hf : fix_utf8 true [104; 227; 255; 65] = Some [104; 195; 159; 65])
    by reflexivity.
  split; [exact Hb|]. split; [exact Hf|].
  exact (proj1 (fix_utf8_alters_only_high_bytes true [104; 227; 255; 65]
                  [104; 195; 159; 65] Hb Hf)).
Defined.

(** X25.  A string that is well formed, made of bytes from 1 to 127 and
    of lead bytes each followed by the trail bytes of its class, comes
    back from [fix_utf8] as it is, on Windows as elsewhere. *)
Theorem fix_utf8_keeps_well_formed_text (win32 : bool) (str : list Z) :
  Forall is_byte str ->
  well_formed 0 str = true ->
  fix_utf8 win32 str = Some str.
Proof.
  intros Hb Hw. unfold fix_utf8. destruct win32; [|reflexivity].
  rewrite (fix_loop_settled str (List.length str) 0 (Nat.le_refl _)).
  - simpl. f_equal. apply until_zero_spec.
    apply (well_formed_settled 0 str Hb Hw).
  - intros j. apply (well_formed_all_settled str 0 j Hb Hw).
Qed.

Lemma fix_utf8_keeps_well_formed_text_witness :
  let str := [104; 195; 169; 226; 130; 172; 240; 159; 152; 128] in
  Forall is_byte str /\
  well_formed 0 str = true /\
  fix_utf8 true str = Some str.
Proof.
  cbv zeta.
  assert (Hb : Forall is_byte [104; 195; 169; 226; 130; 172; 240; 159; 152; 128])
    by (repeat constructor; unfold is_byte; lia).
  split; [exact Hb|]. split; [reflexivity|].
  exact (fix_utf8_keeps_well_formed_text true
           [104; 195; 169; 226; 130; 172; 240; 159; 152; 128] Hb eq_refl).
Defined.

(** X26.  [fix_utf8] stays within the storage of the string, and returns,
    when neither of the last two bytes is 0xf8 or more. *)
Theorem fix_utf8_stays_within_the_string (win32 : bool) (str : list Z) :
  Forall is_byte str ->
  (forall j, (j < List.length str)%nat -> (List.length str < j + 3)%nat ->
             nth j str 0 < 248) ->
  exists out, fix_utf8 win32 str = Some out.
Proof.
  intros Hb Hlast. unfold fix_utf8. destruct win32; [|eexists; reflexivity].
  pose proof (fix_loop_defined str (List.length str) 0 str Hb Hlast (Nat.le_refl _)
                (fixing_start str Hb)) as Hd.
  destruct (fix_loop (List.length str) 0 str) as [final|]; [|contradiction].
  eexists. reflexivity.
Qed.

Lemma fix_utf8_stays_within_the_string_witness :
  let str := [248; 128; 65; 66] in
  Forall is_byte str /\
  (forall j, (j < List.length str)%nat -> (List.length str < j + 3)%nat ->
             nth j str 0 < 248) /\
  exists out, fix_utf8 true str = Some out.
Proof.
  cbv zeta.
  assert (Hb : Forall is_byte [248; 128; 65; 66])
    by (repeat constructor; unfold is_byte; lia).
  assert (Hl : forall j, (j < List.length [248; 128; 65; 66])%nat ->
                 (List.length [248; 128; 65; 66] < j + 3)%nat ->
                 nth j [248; 128; 65; 66] 0 < 248).
  { intros j H1 H2. simpl in H1, H2.
    destruct j as [|[|[|[|j]]]]; simpl; lia. }
  split; [exact Hb|]. split; [exact Hl|].
  exact (fix_utf8_stays_within_the_string true [248; 128; 65; 66] Hb Hl).
Defined.

(** X27.  On Windows [fix_utf8] reads beyond the storage of the string
    when one of its last two bytes is a byte from 0xf8 to 0xfe: lines
    70-72 read the three bytes after it, of which the terminating zero
    is the last that exists. *)
Theorem fix_utf8_reads_past_the_end (str : list Z) (j : nat) :
  Forall is_byte str ->
  (j < List.length str)%nat ->
  (List.length str < j + 3)%nat ->
  248 <= nth j str 0 <= 254 ->
  fix_utf8 true str = None.
Proof.
  intros Hb Hj Hlast Hhigh. unfold fix_utf8.
  replace (List.length str) with (j + S (List.length str - S j))%nat at 1 by lia.
  rewrite fix_loop_app.
  destruct (fix_loop j 0 str) as [mid|] eqn:Hm; [|reflexivity].
  pose proof (fix_loop_fixing str j 0 str mid ltac:(lia) (fixing_start str Hb) Hm)
    as [Hlen [Hbm Hc]].
  simpl Nat.add. cbn [fix_loop].
  rewrite (fix_at_overrun mid j); [reflexivity | lia | exact Hbm | | lia].
  destruct (Hc j) as [E|[[_ [_ E]]|[E _]]]; lia.
Qed.

Lemma fix_utf8_reads_past_the_end_witness :
  let str := [104; 105; 248] in
  Forall is_byte str /\
  (2 < List.length str)%nat /\
  (List.length str < 2 + 3)%nat /\
  248 <= nth 2 str 0 <= 254 /\
  fix_utf8 true str = None.
Proof.
  cbv zeta.
  assert (Hb : Forall is_byte [104; 105; 248])
    by (repeat constructor; unfold is_byte; lia).
  assert (H1 : (2 < List.length [104; 105; 248])%nat) by (simpl; lia).
  assert (H2 : (List.length [104; 105; 248] < 2 + 3)%nat) by (simpl; lia).
  assert (H3 : 248 <= nth 2 [104; 105; 248] 0 <= 254) by (simpl; lia).
  split; [exact Hb|]. split; [exact H1|]. split; [exact H2|]. split; [exact H3|].
  exact (fix_utf8_reads_past_the_end [104; 105; 248] 2 Hb H1 H2 H3).
Defined.

(** ** [split_into_lines] after [get_last_line_length] *)

Lemma find_if_app_none {A : Type} (p : A -> bool) (a b : list A) :
  forallb (fun x => negb (p x)) a = true ->
  find_if p (a ++ b) = (List.length a + find_if p b)%nat.
Proof.
  induction a as [|x a IH]; simpl; [reflexivity|].
  intros H. apply andb_true_iff in H. destruct H as [H1 H2].
  apply negb_true_iff in H1. rewrite H1, (IH H2). reflexivity.
Qed.

Lemma concat_add_newline_last (bodies : list (list ascii)) :
  bodies <> [] ->
  exists front, List.concat (map add_newline bodies) = front ++ [newline].
Proof.
  intros H. destruct (exists_last H) as [init [b ->]].
  rewrite map_app, concat_app. simpl. rewrite app_nil_r. unfold add_newline.
  exists (List.concat (map (fun body => body ++ [newline]) init) ++ b).
  rewrite <- app_assoc. reflexivity.
Qed.

(** The length of the last line of a content to which lines of
    [split_into_lines] were appended. *)
Lemma last_line_after_append (file : list ascii) (bodies : list (list ascii))
    (seg : list ascii) :
  no_newline seg = true ->
  find_if is_newline (rev (file ++ List.concat (map add_newline bodies) ++ seg))
  = ((if is_nil bodies then find_if is_newline (rev file) else 0) + List.length seg)%nat.
Proof.
  intros Hs. rewrite !rev_app_distr, <- app_assoc.
  rewrite find_if_app_none
    by (rewrite forallb_reversed; exact Hs).
  rewrite length_rev. destruct bodies as [|b bs].
  - simpl. lia.
  - destruct (concat_add_newline_last (b :: bs)) as [front E]; [discriminate|].
    rewrite E, rev_app_distr. simpl. lia.
Qed.

Lemma lines_fit_last (C : locale) (max_len c0 : Z) (bodies : list (list ascii))
    (seg : list ascii) :
  lines_fit C max_len c0 (bodies ++ [seg]) ->
  seg = [] \/ is_word C seg = true \/
  (if is_nil bodies then c0 else 0) + Z.of_nat (List.length seg) <= max_len.
Proof.
  destruct bodies as [|b bs]; simpl.
  - intros [[H|H] _]; auto.
  - intros [_ H]. apply Forall_app in H. destruct H as [_ H].
    inversion H as [|? ? [Hw|Hl] _]; subst; auto.
Qed.

(** X28.  [split_into_lines] continues the file whose last line
    [get_last_line_length] has measured: when the lines it returns for
    that length are appended to the file, the last line of the file is
    the line the function was filling, of the length it was counting; so
    it fits the maximal length, unless it is a single word or nothing was
    appended. *)
Theorem appended_lines_continue_the_last_line
    (C : locale) (fs fs' : filesystem) (file_path : string)
    (file text : list ascii) (max_len : Z) :
  isspace C space = true ->
  isspace C newline = true ->
  ifstream fs file_path = Some file ->
  let c0 := get_last_line_length fs file_path in
  let appended := split_into_lines C text max_len c0 in
  ifstream fs' file_path = Some (file ++ List.concat appended) ->
  Z.of_nat (List.length (file ++ List.concat appended)) + Z.of_nat (List.length text) + 1
    < 2 ^ 64 ->
  exists bodies last_line,
    appended = map add_newline bodies ++ (if is_nil last_line then [] else [last_line]) /\
    get_last_line_length fs' file_path
    = (if is_nil bodies then c0 else 0) + Z.of_nat (List.length last_line) /\
    (appended = [] \/ is_word C last_line = true \/
     get_last_line_length fs' file_path <= max_len).
Proof.
  intros Hs Hn Ho c0 appended Ho' Hsize.
  assert (Hlen : Z.of_nat (List.length file) < 2 ^ 64).
  { rewrite length_app in Hsize. lia. }
  assert (Hc0 : c0 = Z.of_nat (find_if is_newline (rev file)))
    by (apply get_last_line_length_spec; assumption).
  assert (Hc0' : 0 <= c0 <= Z.of_nat (List.length file)).
  { rewrite Hc0. pose proof (find_if_le is_newline (rev file)) as H.
    rewrite length_rev in H. lia. }
  assert (Hw : c0 + Z.of_nat (List.length text) + 1 < size_max).
  { unfold size_max. rewrite length_app in Hsize. lia. }
  assert (Hshape : exists bodies seg,
            appended = map add_newline bodies ++ (if is_nil seg then [] else [seg]) /\
            (is_nil seg = true -> bodies = []) /\
            lines_fit C max_len c0 (bodies ++ [seg]) /\
            Forall (fun b => no_newline b = true) (bodies ++ [seg])).
  { destruct (Z.eq_dec max_len 0) as [Hz|Hm].
    - exists [], []. unfold appended, split_into_lines. rewrite Hz. simpl.
      repeat split; auto.
    - destruct (split_into_lines_final C Hs Hn text max_len c0 (proj1 Hc0') Hw Hm)
        as [bodies [seg [E [F [_ [G K]]]]]].
      exists bodies, seg. auto. }
  destruct Hshape as [bodies [seg [E [F [G K]]]]].
  exists bodies, seg. split; [exact E|].
  assert (Hseg : no_newline seg = true).
  { apply Forall_app in K. destruct K as [_ K]. inversion K; assumption. }
  assert (Hcat : List.concat appended = List.concat (map add_newline bodies) ++ seg).
  { rewrite E, concat_app. f_equal.
    destruct seg; simpl; [reflexivity | rewrite app_nil_r; reflexivity]. }
  assert (Hnew : get_last_line_length fs' file_path
                 = (if is_nil bodies then c0 else 0) + Z.of_nat (List.length seg)).
  { rewrite (get_last_line_length_spec fs' file_path _ Ho') by lia.
    rewrite Hcat, (last_line_after_append file bodies seg Hseg), Hc0.
    destruct (is_nil bodies); lia. }
  split; [exact Hnew|].
  rewrite Hnew.
  destruct (lines_fit_last C max_len c0 bodies seg G) as [H|[H|H]]; auto.
  left. rewrite E. subst seg. rewrite (F eq_refl). reflexivity.
Qed.

Lemma appended_lines_continue_the_last_line_witness :
  let text := chars "and then some" in
  let appended := split_into_lines c_locale text 14 (get_last_line_length two_files "out") in
  let fs' := {| content_of := fun _ => Some (chars "first line" ++ List.concat appended);
                readable := fun _ => true;
                writable := fun _ => true |} in
  isspace c_locale space = true /\
  isspace c_locale newline = true /\
  ifstream two_files "out" = Some (chars "first line") /\
  ifstream fs' "out" = Some (chars "first line" ++ List.concat appended) /\
  Z.of_nat (List.length (chars "first line" ++ List.concat appended))
    + Z.of_nat (List.length text) + 1 < 2 ^ 64 /\
  appended = [add_newline (chars " and"); chars "then some"] /\
  get_last_line_length fs' "out" = 9 /\
  exists bodies last_line,
    appended = map add_newline bodies ++ (if is_nil last_line then [] else [last_line]) /\
    get_last_line_length fs' "out"
    = (if is_nil bodies then get_last_line_length two_files "out" else 0)
      + Z.of_nat (List.length last_line).
Proof.
  cbv zeta.
  split; [reflexivity|]. split; [reflexivity|]. split; [reflexivity|].
  split; [reflexivity|]. split; [reflexivity|]. split; [reflexivity|].
  split; [reflexivity|].
  destruct (appended_lines_continue_the_last_line c_locale two_files
              {| content_of := fun _ =>
                   Some (chars "first line"
                         ++ List.concat
                              (split_into_lines c_locale (chars "and then some") 14
                                 (get_last_line_length two_files "out")));
                 readable := fun _ => true;
                 writable := fun _ => true |}
              "out" (chars "first line") (chars "and then some") 14
              eq_refl eq_refl eq_refl eq_refl eq_refl)
    as [bodies [last_line [E [L _]]]].
  exists bodies, last_line. split; [exact E | exact L].
Defined.

(* ===================================================================== *)
(** * Part IX. Further properties of the streaming client                 *)
(* ===================================================================== *)

(** X1.  The successful path of [start] (lines 55-65, 71-83 and 98-101):
    on a client that is not running and has no reader thread left to
    join, when the stream is created and the configuration is accepted,
    [start] returns success; the client is running on the new stream; the
    credential, the language and the clock reading are stored; what it
    did, in order, is to open the stream with the credential, to write
    one request, the configuration (the language, 16000 Hz, one channel,
    LINEAR16, automatic punctuation, interim results, no single
    utterance), and to start the reader thread; the queue and the
    counter of samples are as they were. *)
Theorem start_opens_a_session
    (E : environment) (api_key lang : string) (w : world) :
  running_ (self w) = false ->
  reader_ (self w) = false ->
  stream_created E (streams_opened w) = true ->
  write_ok E (writes_issued w) = true ->
  let o := start E api_key lang w in
  value_of o = Some true /\
  running_ (self (world_of o)) = true /\
  stream_of (self (world_of o)) = Some (streams_opened w) /\
  api_key_ (self (world_of o)) = api_key /\
  language_code_ (self (world_of o)) = lang /\
  start_ms_ (self (world_of o)) = now_ms_at E (clock_reads w) mod uint64_max /\
  events_since w (world_of o)
  = released w
      ++ [NetOpen api_key true;
          NetWrite (ConfigRequest
                      {| language_code := lang;
                         sample_rate_hertz := 16000;
                         audio_channel_count := 1;
                         encoding := LINEAR16;
                         enable_automatic_punctuation := true;
                         interim_results := true;
                         single_utterance := false |}) true;
          ReaderSpawned] /\
  reader_ (self (world_of o)) = true /\
  reader_live (world_of o) = true /\
  inbox (world_of o) = responses_of E (streams_opened w) /\
  pending_ (self (world_of o)) = pending_ (self w) /\
  sent_samples_ (self (world_of o)) = sent_samples_ (self w).
Proof.
  intros Hr Hj Hs Hw. cbv zeta.
  rewrite (start_streaming E api_key lang w Hr Hs Hw Hj). cbn [value_of world_of].
  rewrite (events_since_app w _
             (released w ++ [NetOpen api_key true; NetWrite (cfgReq lang) true;
                             ReaderSpawned]))
    by (cbn [trace]; rewrite <- !app_assoc; reflexivity).
  open_world w. repeat split; reflexivity.
Qed.

Lemma start_opens_a_session_witness :
  let w := world_new (Some host_en) in
  running_ (self w) = false /\
  reader_ (self w) = false /\
  stream_created env_quiet (streams_opened w) = true /\
  write_ok env_quiet (writes_issued w) = true /\
  value_of (start env_quiet "key" "en" w) = Some true.
Proof.
  cbv zeta. split; [reflexivity|]. split; [reflexivity|].
  split; [reflexivity|]. split; [reflexivity|].
  exact (proj1 (start_opens_a_session env_quiet "key" "en" (world_new (Some host_en))
                  eq_refl eq_refl eq_refl eq_refl)).
Defined.

(** X2.  When the body of the reader thread has returned on its own, the
    stream having ended, the client is not running but [reader_] is still
    joinable; a [start] that then opens a stream and has its
    configuration accepted reaches the assignment of line 100 and ends
    the process.  The same [start] after a [stop()], which joins the
    thread, succeeds. *)
Theorem restart_without_stop_ends_the_process
    (E : environment) (api_key lang : string) (w : world) (k : nat) :
  stream_of (self w) = Some k ->
  reader_ (self w) = true ->
  let w1 := world_of (resultsThread E w) in
  stream_created E (streams_opened w1) = true ->
  write_ok E (writes_issued w1) = true ->
  value_of (resultsThread E w) = Some tt /\
  running_ (self w1) = false /\
  reader_ (self w1) = true /\
  value_of (start E api_key lang w1) = None /\
  value_of (start E api_key lang (world_of (stop E w1))) = Some true.
Proof.
  intros Hk Hj w1 Hs Hw. subst w1.
  rewrite (resultsThread_spec E w k Hk) in *. cbn [value_of world_of] in *.
  set (w0 := if running_ (self w) then after_reading E (inbox w) w else w) in *.
  assert (H0 : reader_ (self w0) = true /\ streams_opened w0 = streams_opened w /\
               writes_issued w0 = writes_issued w).
  { unfold w0. destruct (running_ (self w)); [|auto]. open_world w. auto. }
  destruct H0 as [Hj0 [Ho0 Hw0]]. clearbody w0.
  assert (F : running_ (self (after_finish E k w0)) = false /\
              reader_ (self (after_finish E k w0)) = true /\
              streams_opened (after_finish E k w0) = streams_opened w0 /\
              writes_issued (after_finish E k w0) = writes_issued w0).
  { open_world w0. auto. }
  destruct F as [F1 [F2 [F3 F4]]].
  split; [reflexivity|]. split; [exact F1|]. split; [exact F2|]. split.
  - rewrite (start_joinable E api_key lang _ F1 Hs Hw F2). reflexivity.
  - rewrite stop_spec. cbn [world_of].
    rewrite (start_streaming E api_key lang (stopped E (after_finish E k w0)));
      [reflexivity | reflexivity | exact Hs | exact Hw | reflexivity].
Qed.

Lemma restart_without_stop_ends_the_process_witness :
  let w := world_running in
  stream_of (self w) = Some 0%nat /\
  reader_ (self w) = true /\
  value_of (start env_quiet "key" "en" (world_of (resultsThread env_quiet w))) = None.
Proof.
  cbv zeta. split; [reflexivity|]. split; [reflexivity|].
  exact (proj1 (proj2 (proj2 (proj2
           (restart_without_stop_ends_the_process env_quiet "key" "en" world_running 0%nat
              eq_refl eq_refl eq_refl eq_refl))))).
Defined.

(** X3.  [stop] from any state: it returns; the client is not running,
    has no handle, no reader thread and an empty queue; the counter of
    samples, the credential, the language and the rotation flag are as
    they were; no stream is opened and nothing is written.  What it does,
    in order: it closes the writes and cancels when there is a stream;
    the reader thread, when it is joined before its body ran, reads
    nothing more, finishes the stream and reports a failed status; the
    thread is joined; the handle is released.  So no audio is written, and
    the host receives at most one result, a PARTIAL one carrying the
    error of the finished stream: the responses not read yet are
    dropped. *)
Theorem stop_closes_the_session (E : environment) (w : world) :
  let o := stop E w in
  let events := events_since w (world_of o) in
  value_of o = Some tt /\
  running_ (self (world_of o)) = false /\
  impl_ (self (world_of o)) = None /\
  reader_ (self (world_of o)) = false /\
  pending_ (self (world_of o)) = [] /\
  sent_samples_ (self (world_of o)) = sent_samples_ (self w) /\
  api_key_ (self (world_of o)) = api_key_ (self w) /\
  language_code_ (self (world_of o)) = language_code_ (self w) /\
  rotating_ (self (world_of o)) = rotating_ (self w) /\
  streams_opened (world_of o) = streams_opened w /\
  writes_issued (world_of o) = writes_issued w /\
  events
  = (match stream_of (self w) with
     | Some _ => [NetWritesDone; NetTryCancel]
     | None => []
     end)
      ++ (if reader_ (self w) && reader_live w then
            match stream_of (self w) with
            | Some k => NetFinish (finish_status E k) :: finish_diagnostic E k w
            | None => []
            end
          else [])
      ++ (if reader_ (self w) then [ReaderJoined] else [])
      ++ (match impl_ (self w) with Some _ => [ImplReleased] | None => [] end) /\
  frames_written events = [] /\
  (List.length (callbacks events) <= 1)%nat /\
  Forall (fun out => result out = DETECTION_RESULT_PARTIAL /\
                     exists k, stream_of (self w) = Some k /\
                               ok (finish_status E k) = false /\
                               text out = ("CloudSTT error: "
                                           ++ error_message (finish_status E k))%string)
         (callbacks events).
Proof.
  cbv zeta. rewrite stop_spec. cbn [value_of world_of].
  rewrite (events_since_app w _
             ((match stream_of (self w) with
               | Some _ => [NetWritesDone; NetTryCancel]
               | None => []
               end)
              ++ reader_end E w
              ++ (if reader_ (self w) then [ReaderJoined] else [])
              ++ released w)) by reflexivity.
  unfold reader_end, released, finish_diagnostic.
  open_world w.
  do 11 (split; [reflexivity|]). split; [reflexivity|].
  destruct impl0 as [[[k|]]|], reader0, live0; cbn [andb];
    try (destruct gf0; [destruct (ok (finish_status E k)) eqn:Hok|]);
    cbn [app frames_written callbacks flat_map audio_of callback_of List.length negb];
    (split; [reflexivity|]); (split; [lia|]);
    repeat constructor.
  exists k. auto.
Qed.

(** X4.  [stop] is idempotent: a second [stop], as the destructor makes
    after an explicit one, changes nothing and does nothing; so does any
    [stop] on a client that is not running and has no handle, no reader
    thread and an empty queue. *)
Theorem stop_is_idempotent (E : environment) (w : world) :
  stop E (world_of (stop E w)) = Returned tt (world_of (stop E w)) /\
  events_since (world_of (stop E w)) (world_of (stop E (world_of (stop E w)))) = [] /\
  (running_ (self w) = false -> impl_ (self w) = None -> reader_ (self w) = false ->
   pending_ (self w) = [] -> stop E w = Returned tt w).
Proof.
  rewrite !stop_spec. cbn [world_of]. rewrite stopped_twice.
  split; [reflexivity|]. split; [apply events_since_same|].
  intros H1 H2 H3 H4. f_equal. unfold stopped, reader_end, released.
  open_world w. subst. unfold_monad. cbn [List.length app callbacks flat_map].
  rewrite ?app_nil_r, ?Nat.add_0_r. reflexivity.
Qed.

(** X5.  The body of the reader thread as a whole.  Without a stream it
    returns at once and leaves everything as it is, the running flag
    included.  With a stream it delivers the results of the responses it
    reads, none when the client is not running, then finishes the stream
    and, when the status is not OK and there is a host, delivers one
    PARTIAL result whose text is "CloudSTT error: " followed by the
    message of the status, with language "en" and both timestamps at the
    clock reading; at the end the client is marked not running, and
    nothing else of the object has changed. *)
Theorem reader_thread_reports_the_end_of_the_stream (E : environment) (w : world) :
  let o := resultsThread E w in
  match stream_of (self w) with
  | None => o = Returned tt w
  | Some k =>
      let resps := if running_ (self w) then inbox w else [] in
      let ds := deliveries E (gf_ (self w)) (clock_reads w) resps in
      let t := now_ms_at E (clock_reads w + List.length ds) mod uint64_max in
      value_of o = Some tt /\
      events_since w (world_of o)
      = map (fun d => HostCallback (fst d) (snd d)) ds
          ++ [NetFinish (finish_status E k)]
          ++ (match gf_ (self w) with
              | Some _ =>
                  if ok (finish_status E k) then []
                  else [HostCallback t
                          {| result := DETECTION_RESULT_PARTIAL;
                             text := ("CloudSTT error: "
                                      ++ error_message (finish_status E k))%string;
                             start_timestamp_ms := t;
                             end_timestamp_ms := t;
                             language := "en" |}]
              | None => []
              end) /\
      self (world_of o) = set_running_ false (self w) /\
      running_ (self (world_of o)) = false /\
      writes_issued (world_of o) = writes_issued w /\
      streams_opened (world_of o) = streams_opened w
  end.
Proof.
  cbv zeta. destruct (stream_of (self w)) as [k|] eqn:Hk.
  2:{ apply resultsThread_no_stream. exact Hk. }
  rewrite (resultsThread_spec E w k Hk). cbn [value_of world_of].
  split; [reflexivity|].
  unfold after_finish, finish_diagnostic, finish_error.
  destruct (running_ (self w)) eqn:Hr.
  - unfold after_reading. cbn [self clock_reads trace streams_opened writes_issued].
    split; [|open_world w; auto].
    apply events_since_app. rewrite <- app_assoc. f_equal. f_equal.
    destruct (gf_ (self w)); [|reflexivity].
    destruct (ok (finish_status E k)); reflexivity.
  - cbn [deliveries map List.length app]. rewrite Nat.add_0_r.
    split; [|open_world w; subst; auto].
    apply events_since_app. f_equal.
    destruct (gf_ (self w)); [|reflexivity].
    destruct (ok (finish_status E k)); reflexivity.
Qed.

(** X6.  [shouldRotate] on a running client compares the rotation
    interval with the difference of two [uint64_t]: the age of the
    session when the clock reads at least the creation timestamp, and
    2^64 less the gap when the clock reads less.  So a clock that was
    set back, by any amount, makes a rotation due as long as the interval
    is below 2^64 less the gap. *)
Theorem rotation_is_due_by_the_unsigned_difference (E : environment) (w : world) :
  running_ (self w) = true ->
  0 <= start_ms_ (self w) < uint64_max ->
  let now := now_ms_at E (clock_reads w) mod uint64_max in
  let age := if start_ms_ (self w) <=? now then now - start_ms_ (self w)
             else uint64_max - (start_ms_ (self w) - now) in
  shouldRotate E w
  = Returned (rotate_interval_ms_ (self w) <? age) (set_clock_reads (S (clock_reads w)) w) /\
  (now < start_ms_ (self w) ->
   rotate_interval_ms_ (self w) < uint64_max - (start_ms_ (self w) - now) ->
   value_of (shouldRotate E w) = Some true).
Proof.
  intros Hr Hs now age.
  assert (Hnow : 0 <= now < uint64_max) by (apply Z.mod_pos_bound; reflexivity).
  assert (Hage : (now - start_ms_ (self w)) mod uint64_max = age).
  { unfold age. destruct (Z.leb_spec (start_ms_ (self w)) now).
    - apply Z.mod_small. lia.
    - replace (now - start_ms_ (self w))
        with (uint64_max - (start_ms_ (self w) - now) + (-1) * uint64_max) by lia.
      rewrite Z.mod_add by (unfold uint64_max; lia). apply Z.mod_small. lia. }
  assert (Hspec : shouldRotate E w
                  = Returned (rotate_interval_ms_ (self w) <? age)
                      (set_clock_reads (S (clock_reads w)) w)).
  { rewrite (shouldRotate_running E w Hr). unfold rotation_due. fold now.
    rewrite Hage. reflexivity. }
  split; [exact Hspec|].
  intros Hback Hint. rewrite Hspec. cbn [value_of]. f_equal.
  apply Z.ltb_lt. unfold age. destruct (Z.leb_spec (start_ms_ (self w)) now); lia.
Qed.

Lemma rotation_is_due_by_the_unsigned_difference_witness :
  let w := world_set_back in
  running_ (self w) = true /\
  0 <= start_ms_ (self w) < uint64_max /\
  start_ms_ (self w) = 1000 /\
  now_ms_at env_set_back (clock_reads w) = 500 /\
  value_of (shouldRotate env_set_back w) = Some true.
Proof.
  cbv zeta.
  assert (H1 : running_ (self world_set_back) = true) by reflexivity.
  assert (H2 : 0 <= start_ms_ (self world_set_back) < uint64_max)
    by (vm_compute; split; [discriminate | reflexivity]).
  split; [exact H1|]. split; [exact H2|]. split; [reflexivity|]. split; [reflexivity|].
  apply (proj2 (rotation_is_due_by_the_unsigned_difference env_set_back world_set_back
                  H1 H2)); vm_compute; reflexivity.
Defined.

(** [doRotate] as [stop], then [start] with what is stored, then the
    assignment of line 149. *)
Lemma doRotate_spec (E : environment) (w : world) :
  doRotate E w =
    match start E (api_key_ (self w)) (language_code_ (self w)) (stopped E w) with
    | Returned _ w' => Returned tt (set_self (set_rotating_ false (self w')) w')
    | Terminated w' => Terminated w'
    end.
Proof.
  unfold doRotate. unfold bind at 1. rewrite stop_spec.
  unfold bind at 1. unfold get at 1. unfold bind at 1. unfold get at 1.
  unfold bind at 1. unfold modify.
  replace (api_key_ (self (stopped E w))) with (api_key_ (self w))
    by (open_world w; reflexivity).
  replace (language_code_ (self (stopped E w))) with (language_code_ (self w))
    by (open_world w; reflexivity).
  reflexivity.
Qed.

(** X7.  The rotation task as a whole, from any state: it returns, the
    [stop()] it begins with having joined the reader thread; the flag is
    clear at its end; the queue is empty; the credential, the language
    and the counter of samples are as before; the stream is asked for
    with the stored credential and configured with the stored language;
    and the client is running, with a reader thread, exactly when the
    stream was created and the configuration accepted. *)
Theorem rotation_restarts_with_the_stored_credentials (E : environment) (w : world) :
  let o := doRotate E w in
  let opened := stream_created E (streams_opened w) in
  let accepted := write_ok E (writes_issued w) in
  value_of o = Some tt /\
  rotating_ (self (world_of o)) = false /\
  running_ (self (world_of o)) = opened && accepted /\
  reader_ (self (world_of o)) = opened && accepted /\
  pending_ (self (world_of o)) = [] /\
  api_key_ (self (world_of o)) = api_key_ (self w) /\
  language_code_ (self (world_of o)) = language_code_ (self w) /\
  sent_samples_ (self (world_of o)) = sent_samples_ (self w) /\
  In (NetOpen (api_key_ (self w)) opened) (events_since w (world_of o)) /\
  (opened = true ->
   In (NetWrite (cfgReq (language_code_ (self w))) accepted) (events_since w (world_of o))).
Proof.
  cbv zeta. rewrite doRotate_spec.
  set (ws := stopped E w).
  assert (Hws : running_ (self ws) = false /\ reader_ (self ws) = false /\
                streams_opened ws = streams_opened w /\
                writes_issued ws = writes_issued w /\
                api_key_ (self ws) = api_key_ (self w) /\
                language_code_ (self ws) = language_code_ (self w) /\
                sent_samples_ (self ws) = sent_samples_ (self w) /\
                pending_ (self ws) = [] /\
                exists es, trace ws = trace w ++ es).
  { unfold ws, stopped. open_world w. repeat split; try reflexivity. eexists. reflexivity. }
  destruct Hws as (R & J & O & Wr & K & Lg & Sn & P & es & T). clearbody ws.
  destruct (stream_created E (streams_opened w)) eqn:Hs.
  - destruct (write_ok E (writes_issued w)) eqn:Hw.
    + rewrite (start_streaming E _ _ ws R) by congruence.
      cbn [value_of world_of].
      match goal with |- context [events_since w ?w'] =>
        assert (Hev : exists es', events_since w w'
                 = es' ++ [NetOpen (api_key_ (self w)) true;
                           NetWrite (cfgReq (language_code_ (self w))) true; ReaderSpawned])
      end.
      { exists (es ++ released ws). apply events_since_app. cbn [trace set_self].
        rewrite T, <- !app_assoc. reflexivity. }
      destruct Hev as [es' Hev]. rewrite Hev.
      split; [reflexivity|]. split; [open_world ws; reflexivity|].
      split; [open_world ws; reflexivity|]. split; [open_world ws; reflexivity|].
      split; [open_world ws; subst; reflexivity|].
      split; [open_world ws; reflexivity|]. split; [open_world ws; reflexivity|].
      split; [open_world ws; subst; reflexivity|].
      split; [apply in_or_app; right; left; reflexivity|].
      intros _. apply in_or_app. right. right. left. reflexivity.
    + rewrite (start_config_refused E _ _ ws R) by congruence.
      cbn [value_of world_of].
      match goal with |- context [events_since w ?w'] =>
        assert (Hev : exists es' es'', events_since w w'
                 = es' ++ [NetOpen (api_key_ (self w)) true;
                           NetWrite (cfgReq (language_code_ (self w))) false] ++ es'')
      end.
      { exists (es ++ released ws), (config_diagnostic E ws ++ [ImplReleased]).
        apply events_since_app. cbn [trace set_self].
        rewrite T, <- !app_assoc. reflexivity. }
      destruct Hev as [es' [es'' Hev]]. rewrite Hev.
      split; [reflexivity|]. split; [open_world ws; reflexivity|].
      split; [open_world ws; subst; reflexivity|].
      split; [open_world ws; subst; reflexivity|].
      split; [open_world ws; subst; reflexivity|].
      split; [open_world ws; reflexivity|]. split; [open_world ws; reflexivity|].
      split; [open_world ws; subst; reflexivity|].
      split; [apply in_or_app; right; left; reflexivity|].
      intros _. apply in_or_app. right. right. left. reflexivity.
  - rewrite (start_no_stream E _ _ ws R) by congruence.
    cbn [value_of world_of].
    match goal with |- context [events_since w ?w'] =>
      assert (Hev : exists es', events_since w w'
               = es' ++ [NetOpen (api_key_ (self w)) false])
    end.
    { exists (es ++ released ws). apply events_since_app. cbn [trace set_self].
      rewrite T, <- !app_assoc. reflexivity. }
    destruct Hev as [es' Hev]. rewrite Hev.
    split; [reflexivity|]. split; [open_world ws; reflexivity|].
    split; [open_world ws; subst; reflexivity|].
    split; [open_world ws; subst; reflexivity|].
    split; [open_world ws; subst; reflexivity|].
    split; [open_world ws; reflexivity|]. split; [open_world ws; reflexivity|].
    split; [open_world ws; subst; reflexivity|].
    split; [apply in_or_app; right; left; reflexivity|].
    intros H; discriminate.
Qed.

Section QueueInvariant.

Variable L : libm.
Variable E : environment.

Lemma resultsThread_keeps_queue (w : world) :
  pending_ (self (world_of (resultsThread E w))) = pending_ (self w).
Proof.
  destruct (stream_of (self w)) as [k|] eqn:Hk.
  - rewrite (resultsThread_spec E w k Hk). cbn [world_of].
    destruct (running_ (self w)); open_world w; reflexivity.
  - rewrite (resultsThread_no_stream E w Hk). reflexivity.
Qed.

Lemma push_keeps_queue_short (me : thread_id) (data : option (list float32)) (n : nat)
    (w : world) :
  (List.length (pending_ (self w)) < CHUNK)%nat ->
  (List.length (pending_ (self (world_of (pushFloat16k L E me data n w)))) < CHUNK)%nat.
Proof.
  intros H. destruct (push_outcome L E me data n w) as [w' [Hp [[Hq _]|[d [_ Hw]]]]];
    rewrite Hp; cbn [world_of].
  - rewrite Hq. exact H.
  - rewrite Hw.
    destruct (after_sending_frames E
                (frames_of L (pending_ (self w) ++ firstn n d))
                (drained (queued (firstn n d) w))) as [Hq _].
    rewrite Hq.
    replace (pending_ (self (drained (queued (firstn n d) w))))
      with (remainder_of (pending_ (self w) ++ firstn n d))
      by (open_world w; reflexivity).
    rewrite length_remainder_of. apply Nat.mod_upper_bound. discriminate.
Qed.

Lemma step_keeps_queue_short (l : label) (sys sys' : system) :
  step L E l sys sys' ->
  (List.length (pending_ (self (shared sys))) < CHUNK)%nat ->
  (List.length (pending_ (self (shared sys'))) < CHUNK)%nat.
Proof.
  intros Hs. destruct Hs as
    [w ts i me won w' Hn Hc | w ts i me w' Hn Hc | w ts i w' Hn Hc
    | w ts i started w' Hn Hc | w ts i started w' Hn Hc | w ts me data n w' Hc
    | w ts w' Hc | w ts api_key lang started w' Hc | w ts w' Hl Hc];
    cbn [shared]; intros H.
  - unfold compare_exchange_rotating in Hc.
    destruct (rotating_ (self w)); injection Hc as _ <-; [exact H|].
    open_world w. exact H.
  - assert (Hq : pending_ (self (world_of (respawn_rotator me w))) = pending_ (self w)).
    { unfold respawn_rotator. open_world w. unfold_monad.
      destruct rotator0, me; reflexivity. }
    rewrite Hc in Hq. cbn [world_of] in Hq. rewrite Hq. exact H.
  - rewrite stop_spec in Hc. injection Hc as <-. unfold stopped. cbn [self].
    replace (pending_ _) with (@nil float32) by (open_world w; reflexivity).
    cbn [List.length]. unfold CHUNK. lia.
  - destruct (start_keeps_queue E (api_key_ (self w)) (language_code_ (self w)) w) as [Hq _].
    rewrite Hc in Hq. cbn [world_of] in Hq. rewrite Hq. exact H.
  - unfold modify in Hc. injection Hc as <-. open_world w. exact H.
  - pose proof (push_keeps_queue_short me data n w H) as Hq.
    rewrite Hc in Hq. exact Hq.
  - rewrite stop_spec in Hc. injection Hc as <-. unfold stopped. cbn [self].
    replace (pending_ _) with (@nil float32) by (open_world w; reflexivity).
    cbn [List.length]. unfold CHUNK. lia.
  - destruct (start_keeps_queue E api_key lang w) as [Hq _].
    rewrite Hc in Hq. cbn [world_of] in Hq. rewrite Hq. exact H.
  - pose proof (resultsThread_keeps_queue (set_reader_live false w)) as Hq.
    rewrite Hc in Hq. cbn [world_of] in Hq. rewrite Hq. open_world w. exact H.
Qed.

End QueueInvariant.

(** X8.  The queue holds less than a chunk between calls: if it does in
    a state of the client, it does in every state reached from it by
    calls of [pushFloat16k], [start], [stop] and [requestRotate], by
    rotation tasks and by the reader thread, whatever fails on the
    way. *)
Theorem queue_stays_below_a_chunk
    (L : libm) (E : environment) (sys0 sys : system) (ls : list label) :
  run L E sys0 ls sys ->
  (List.length (pending_ (self (shared sys0))) < CHUNK)%nat ->
  (List.length (pending_ (self (shared sys))) < CHUNK)%nat.
Proof.
  intros Hr H0. induction Hr as [sys|sys0 ls sys l sys' Hr IH Hs]; [exact H0|].
  apply (step_keeps_queue_short L E l sys sys' Hs). apply IH. exact H0.
Qed.

Lemma queue_stays_below_a_chunk_witness :
  let sys := {| shared := stopped env_quiet world_running; pool := pool race_start |} in
  run linux64 env_quiet race_start [HostStop] sys /\
  (List.length (pending_ (self (shared race_start))) < CHUNK)%nat /\
  (List.length (pending_ (self (shared sys))) < CHUNK)%nat.
Proof.
  cbv zeta.
  assert (R : run linux64 env_quiet race_start [HostStop]
                {| shared := stopped env_quiet world_running;
                   pool := pool race_start |}).
  { apply (run_snoc linux64 env_quiet race_start [] race_start HostStop).
    - apply run_nil.
    - apply (step_host_stop linux64 env_quiet world_running (pool race_start)).
      apply stop_spec. }
  assert (H0 : (List.length (pending_ (self (shared race_start))) < CHUNK)%nat)
    by (unfold CHUNK; vm_compute; lia).
  split; [exact R|]. split; [exact H0|].
  exact (queue_stays_below_a_chunk linux64 env_quiet race_start _ [HostStop] R H0).
Defined.

Section Samples.

Variable L : libm.
Variable E : environment.
Hypothesis long_is_wide : 32 <= long_bits L.
Hypothesis nan_is_tame : -32767 <= to_int16 (lround_unspecified L S754_nan) <= 32767.

Lemma f32_to_s16_bounds (x : float32) :
  valid x = true -> -32767 <= f32_to_s16 L x <= 32767.
Proof.
  intros Hv. destruct (is_nan x) eqn:Hn.
  - destruct x; try discriminate. rewrite f32_to_s16_nan. exact nan_is_tame.
  - rewrite (f32_to_s16_value L long_is_wide x Hv Hn). apply encode_value_range.
Qed.

Lemma Forall_firstn' {A : Type} (P : A -> Prop) (k : nat) (l : list A) :
  Forall P l -> Forall P (firstn k l).
Proof.
  intros H. revert k. induction H as [|a l Ha H IH]; intros k; destruct k; simpl;
    constructor; auto.
Qed.

Lemma Forall_skipn' {A : Type} (P : A -> Prop) (k : nat) (l : list A) :
  Forall P l -> Forall P (skipn k l).
Proof.
  intros H. revert k. induction H as [|a l Ha H IH]; intros k; destruct k; simpl;
    auto.
Qed.

Lemma frames_of_bounded (q : list float32) :
  Forall (fun x => valid x = true) q ->
  Forall (fun frame => List.length frame = CHUNK /\
                       Forall (fun v => -32767 <= v <= 32767) frame)
         (frames_of L q).
Proof.
  intros Hq.
  pose proof (frames_full L q) as Hf.
  assert (Hb : Forall (fun frame => Forall (fun v => -32767 <= v <= 32767) frame)
                 (frames_of L q)).
  { unfold frames_of. apply Forall_map. apply Forall_forall. intros i _.
    unfold frame_at. apply Forall_map.
    apply Forall_firstn', Forall_skipn'.
    apply (Forall_impl _ f32_to_s16_bounds Hq). }
  clear Hq. induction Hf as [|f fs H1 Hf IH]; [constructor|].
  inversion Hb; subst. constructor; auto.
Qed.

End Samples.

(** X9.  What a call of [pushFloat16k] writes is 16-bit PCM within
    bounds: on a platform as in C5, when the samples queued and the
    samples pushed are well-formed binary32 data, every frame handed to
    [Write] has 1600 samples and each of them lies in [-32767, 32767];
    and the samples left in the queue are well formed again. *)
Theorem written_frames_are_bounded_pcm
    (L : libm) (E : environment) (me : thread_id)
    (data : option (list float32)) (n : nat) (w : world) :
  32 <= long_bits L ->
  -32767 <= to_int16 (lround_unspecified L S754_nan) <= 32767 ->
  Forall (fun x => valid x = true) (pending_ (self w)) ->
  (forall d, data = Some d -> Forall (fun x => valid x = true) (firstn n d)) ->
  let o := pushFloat16k L E me data n w in
  Forall (fun frame => List.length frame = CHUNK /\
                       Forall (fun v => -32767 <= v <= 32767) frame)
         (frames_written (events_since w (world_of o))) /\
  Forall (fun x => valid x = true) (pending_ (self (world_of o))).
Proof.
  intros Hl Hnan Hq Hd. cbv zeta.
  destruct (push_outcome L E me data n w) as [w' [Hp [[Hq' [_ Hf]]|[d [Hdata Hw]]]]];
    rewrite Hp; cbn [world_of].
  - rewrite Hf, Hq'. split; [constructor | exact Hq].
  - specialize (Hd d Hdata).
    set (total := pending_ (self w) ++ firstn n d) in *.
    assert (Ht : Forall (fun x => valid x = true) total)
      by (apply Forall_app; split; assumption).
    set (wd := drained (queued (firstn n d) w)) in *.
    assert (Hwd : trace wd = trace w /\ pending_ (self wd) = remainder_of total)
      by (subst wd total; open_world w; split; reflexivity).
    destruct Hwd as [Htr Hrem].
    destruct (after_sending_frames E (frames_of L total) wd) as (Hpq & _ & _ & Hfr & _ & _).
    rewrite Hw.
    replace (events_since w (after_sending E (frames_of L total) wd))
      with (events_since wd (after_sending E (frames_of L total) wd))
      by (unfold events_since; now rewrite Htr).
    rewrite Hfr, Hpq, Hrem.
    pose proof (frames_of_bounded L Hl Hnan total Ht) as Hb.
    split.
    + destruct (stream_of (self wd)); [|constructor].
      destruct (first_refusal E (writes_issued wd) (List.length (frames_of L total)));
        [apply Forall_firstn'|]; exact Hb.
    + unfold remainder_of. apply Forall_skipn'. exact Ht.
Qed.

Lemma written_frames_are_bounded_pcm_witness :
  let w := world_running in
  let d := repeat half 1600 in
  32 <= long_bits linux64 /\
  -32767 <= to_int16 (lround_unspecified linux64 S754_nan) <= 32767 /\
  Forall (fun x => valid x = true) (pending_ (self w)) /\
  (forall d', Some d = Some d' -> Forall (fun x => valid x = true) (firstn 1600 d')) /\
  Forall (fun frame => List.length frame = CHUNK /\
                       Forall (fun v => -32767 <= v <= 32767) frame)
         (frames_written
            (events_since w (world_of (pushFloat16k linux64 env_quiet HostThread
                                         (Some d) 1600 w)))).
Proof.
  cbv zeta.
  assert (H1 : 32 <= long_bits linux64) by (vm_compute; discriminate).
  assert (H2 : -32767 <= to_int16 (lround_unspecified linux64 S754_nan) <= 32767)
    by (vm_compute; split; discriminate).
  assert (H3 : Forall (fun x => valid x = true) (pending_ (self world_running)))
    by (vm_compute; constructor).
  assert (H4 : forall d', Some (repeat half 1600) = Some d' ->
                 Forall (fun x => valid x = true) (firstn 1600 d')).
  { intros d' Hd.
    apply (f_equal (fun o => match o with Some x => x | None => [] end)) in Hd.
    cbv beta iota in Hd. subst d'. apply Forall_firstn'. apply Forall_forall.
    intros x Hx. apply repeat_spec in Hx. subst x. reflexivity. }
  split; [exact H1|]. split; [exact H2|]. split; [exact H3|]. split; [exact H4|].
  exact (proj1 (written_frames_are_bounded_pcm linux64 env_quiet HostThread
                  (Some (repeat half 1600)) 1600 world_running H1 H2 H3 H4)).
Defined.
